(** * One step of Loop subdivision (src/computer graphics/src/loop.cpp)

    A shallow embedding of [loopSubdivision] and [getNewVertex].

    The C++ vectors are lists read with [!!] and written with [<[_:=_]>].
    [std::vector::operator[]] is unchecked: an access [v[i]] past the end is
    undefined behaviour in C++, and what the program does from there on is
    not fixed by its text.  The embedding follows a run up to its first such
    access and marks it with [OutOfRange]; this outcome says that the run
    makes an access out of range, reached without any earlier failure, and
    nothing about what happens afterwards.  No theorem below concludes from
    it what the program does on an index out of range; the statements about
    failures are made under hypotheses that keep every access in bounds.
    [MalformedMesh] marks, in the same way, a call of the opposite-vertex
    finder on an edge for which the specification does not say what it
    answers.  [assert] follows <cassert> with NDEBUG not defined: a false
    condition is the error [AssertionFailed].

    [loop.hpp] and [geometry.hpp] are not part of the sources at hand.  The
    arithmetic of [float], [point3d] and [vec3d] is therefore an interface
    ([Geometry]); every theorem holds for each implementation of it, the
    IEEE one included, because it only says which operations are applied to
    which operands.  [idxtype] is taken as [nat]: the cast
    [(idxtype) vertList.size()] is exact as long as sizes fit the index type. *)

From stdpp Require Import base option list gmap sets.

Set Default Proof Using "Type".

(** ** Outcomes *)

Inductive error : Type :=
| AssertionFailed   (* assert( occurrences[i] != 0 ) at loop.cpp:134 *)
| OutOfRange        (* the run reaches an operator[] past the end: undefined *)
| RegistryMisuse    (* EdgeList::add on a present edge, getIndex on an absent one *)
| MalformedMesh.    (* the opposite-vertex finder on an edge it does not cover *)

Inductive res (A : Type) : Type :=
| Ok (a : A)
| Err (e : error).
Arguments Ok {A} a.
Arguments Err {A} e.

#[global] Instance error_eq_dec : EqDecision error.
Proof. solve_decision. Defined.

#[global] Instance res_ret : MRet res := @Ok.
#[global] Instance res_bind : MBind res := fun A B f m =>
  match m with
  | Ok a => f a
  | Err e => Err e
  end.

(** [for (const auto& x : l) body], threading the state the body updates. *)
Fixpoint for_each {A S : Type} (body : S -> A -> res S) (l : list A) (s : S)
  : res S :=
  match l with
  | [] => Ok s
  | x :: l => s ← body s x; for_each body l s
  end.

(** [v.clear( )] and [dst = src] on vectors: the former contents are gone. *)
Definition clear {A} (v : list A) : list A := [].
Definition assign {A} (dst src : list A) : list A := src.

(** [v[i]] as an rvalue.  In bounds it is the element; past the end the
    source is undefined and the run is followed no further. *)
Definition vec_get {A} (v : list A) (i : nat) : res A :=
  match v !! i with
  | Some x => Ok x
  | None => Err OutOfRange
  end.

(** [v[i] = x].  In bounds it is the update; past the end the source is
    undefined (it writes outside the vector) and the run is followed no
    further. *)
Definition vec_set {A} (v : list A) (i : nat) (x : A) : res (list A) :=
  if decide (i < length v) then Ok (<[i:=x]> v) else Err OutOfRange.

(** ** Mesh data *)

Abbreviation idxtype := nat.

(** [face(v1, v2, v3)]: the three vertex indices, in winding order. *)
Record face : Type := Face { v1 : idxtype; v2 : idxtype; v3 : idxtype }.

(** [edge]: a pair read through [.first] and [.second]. *)
Abbreviation edge := (idxtype * idxtype)%type.

#[global] Instance face_eq_dec : EqDecision face.
Proof. solve_decision. Defined.

(** The interface of geometry.hpp used by loop.cpp. *)
Class Geometry : Type := {
  float : Type;
  point3d : Type;
  vec3d : Type;
  (* float literals 3.f, 8.f, 1.f, 5.0f, 16.0f and 0.5f *)
  float_lit : nat -> float;
  float_half : float;
  (* (float) n for a size_t n *)
  float_of_size : nat -> float;
  fmul : float -> float -> float;
  fdiv : float -> float -> float;
  (* point3d( ): the comments of loop.cpp call it [0 0 0] *)
  point_zero : point3d;
  point_add : point3d -> point3d -> point3d;
  (* float * point3d and point3d * float *)
  scale_l : float -> point3d -> point3d;
  scale_r : point3d -> float -> point3d;
  vec_zero : vec3d;
  vec_add : vec3d -> vec3d -> vec3d;
  vec_scale : float -> vec3d -> vec3d;
  computeNormal : point3d -> point3d -> point3d -> vec3d;
  angleAtVertex : point3d -> point3d -> point3d -> float;
  normalize : vec3d -> vec3d
}.

Declare Scope geo_scope.
Delimit Scope geo_scope with geo.
Infix "+" := point_add : geo_scope.
Infix "/" := fdiv : geo_scope.
Infix "*" := fmul : geo_scope.
Infix "*." := scale_l (at level 40, left associativity) : geo_scope.
Infix ".*" := scale_r (at level 40, left associativity) : geo_scope.

(** ** The edge registry and the opposite-vertex finder *)

(** Modelled from the spec: the key of an edge in the registry.  loop.hpp,
    which declares [EdgeList], is missing; the spec asks for an equality
    that ignores the order of the endpoints and proposes the sorted pair. *)
Definition canon (e : edge) : idxtype * idxtype :=
  (e.1 `min` e.2, e.1 `max` e.2).

(** Modelled from the spec: [EdgeList], the registry from an edge to the
    index of its midpoint vertex (loop.hpp is missing): [contains],
    [add], which fails on a present edge, and [getIndex], which fails on an
    absent one.  There is no removal. *)
Abbreviation EdgeList := (gmap (idxtype * idxtype) idxtype).

(** Modelled from the spec: [EdgeList::contains], whatever the order of the
    endpoints. *)
Definition contains (l : EdgeList) (e : edge) : bool :=
  bool_decide (is_Some (l !! canon e)).

(** Modelled from the spec: [EdgeList::add], a precondition violation when
    the edge is present. *)
Definition add (l : EdgeList) (e : edge) (i : idxtype) : res EdgeList :=
  if contains l e then Err RegistryMisuse else Ok (<[canon e := i]> l).

(** Modelled from the spec: [EdgeList::getIndex], a precondition violation
    when the edge is absent. *)
Definition getIndex (l : EdgeList) (e : edge) : res idxtype :=
  match l !! canon e with
  | Some i => Ok i
  | None => Err RegistryMisuse
  end.

(** What [isBoundaryEdge] reports: [Boundary] is the return value [true],
    [Interior oppV1 oppV2] the return value [false] with both reference
    parameters set. *)
Inductive incidence : Type :=
| Boundary
| Interior (oppV1 oppV2 : idxtype).

(** Modelled from the spec: a face contains a vertex when it is one of its
    three indices. *)
Definition face_has (f : face) (v : idxtype) : bool :=
  bool_decide (v = v1 f ∨ v = v2 f ∨ v = v3 f).

(** Modelled from the spec: a face is incident to an edge when it contains
    both of its endpoints. *)
Definition containsEdge (f : face) (e : edge) : bool :=
  face_has f e.1 && face_has f e.2.

(** Modelled from the spec: the opposite vertex is the third vertex of the
    face, the one equal to neither endpoint. *)
Definition oppositeVertex (f : face) (e : edge) : option idxtype :=
  head (filter (fun v => v ≠ e.1 ∧ v ≠ e.2) [v1 f; v2 f; v3 f]).

(** Modelled from the spec: the faces incident to an edge, in scan order. *)
Definition incidentFaces (e : edge) (mesh : list face) : list face :=
  filter (fun f => containsEdge f e = true) mesh.

(** Modelled from the spec: [isBoundaryEdge] (geometry.hpp is missing).  It
    scans all faces; one incident face makes a boundary edge, two give the
    two opposite vertices in scan order.  The spec leaves every other case
    open; it is the error [MalformedMesh] here, so that nothing is proved
    about it. *)
Definition isBoundaryEdge (e : edge) (mesh : list face) : res incidence :=
  match incidentFaces e mesh with
  | [_] => Ok Boundary
  | [f; g] =>
      match oppositeVertex f e, oppositeVertex g e with
      | Some oppV1, Some oppV2 => Ok (Interior oppV1 oppV2)
      | _, _ => Err MalformedMesh
      end
  | _ => Err MalformedMesh
  end.

Section Loop.
Context `{G : Geometry}.
Local Open Scope geo_scope.

(** ** getNewVertex (loop.cpp:191-278)

    The function returns the index and updates [vertList] and [newVertList]
    in place; here it returns the three.  Both branches of its [if] return,
    so the warning and the [return 0] that follow them are never reached. *)

Definition getNewVertex (e : edge) (vertList : list point3d)
    (mesh : list face) (newVertList : EdgeList)
  : res (idxtype * list point3d * EdgeList) :=
  if negb (contains newVertList e) then
    let newIndex : idxtype := length vertList in
    newVertList ← add newVertList e newIndex;
    b ← isBoundaryEdge e mesh;
    nvert ← match b with
             | Interior oppV1 oppV2 =>
                 p1 ← vec_get vertList e.1;
                 p2 ← vec_get vertList e.2;
                 o1 ← vec_get vertList oppV1;
                 o2 ← vec_get vertList oppV2;
                 Ok ((float_lit 3 / float_lit 8) *. (p1 + p2)
                     + (float_lit 1 / float_lit 8) *. (o1 + o2))
             | Boundary =>
                 p1 ← vec_get vertList e.1;
                 p2 ← vec_get vertList e.2;
                 Ok ((p1 + p2) .* float_half)
             end;
    Ok (newIndex, vertList ++ [nvert], newVertList)
  else
    i ← getIndex newVertList e;
    Ok (i, vertList, newVertList).

(** ** loopSubdivision (loop.cpp:21-177) *)

(** The three reference parameters the function writes. *)
Record outputs : Type := Outputs {
  destVert : list point3d;
  destMesh : list face;
  destNorm : list vec3d
}.

(** Body of the first loop over the faces (loop.cpp:42-81); its state is
    [destVert], [destMesh] and the local registry [newVertices]. *)
Definition subdivideFace (origMesh : list face)
    (st : list point3d * list face * EdgeList) (f : face)
  : res (list point3d * list face * EdgeList) :=
  let '(destVert, destMesh, newVertices) := st in
  let v1 := v1 f in
  let v2 := v2 f in
  let v3 := v3 f in
  '(a, destVert, newVertices) ← getNewVertex (v1, v2) destVert origMesh newVertices;
  '(b, destVert, newVertices) ← getNewVertex (v2, v3) destVert origMesh newVertices;
  '(c, destVert, newVertices) ← getNewVertex (v3, v1) destVert origMesh newVertices;
  Ok (destVert,
      destMesh ++ [Face v1 a c; Face a b c; Face c b v3; Face a v2 b],
      newVertices).

(** Body of the second loop over the faces (loop.cpp:102-127); its state is
    [occurrences] and [tmp]. *)
Definition accumulate (origVert : list point3d)
    (st : list nat * list point3d) (f : face)
  : res (list nat * list point3d) :=
  let '(occurrences, tmp) := st in
  let v1 := v1 f in
  let v2 := v2 f in
  let v3 := v3 f in
  (* v1 *)
  n ← vec_get occurrences v1;
  occurrences ← vec_set occurrences v1 (S n);
  t ← vec_get tmp v1;
  p2 ← vec_get origVert v2;
  p3 ← vec_get origVert v3;
  tmp ← vec_set tmp v1 (t + (p2 + p3));
  (* v2 *)
  n ← vec_get occurrences v2;
  occurrences ← vec_set occurrences v2 (S n);
  t ← vec_get tmp v2;
  p1 ← vec_get origVert v1;
  p3 ← vec_get origVert v3;
  tmp ← vec_set tmp v2 (t + (p1 + p3));
  (* v3 *)
  n ← vec_get occurrences v3;
  occurrences ← vec_set occurrences v3 (S n);
  t ← vec_get tmp v3;
  p1 ← vec_get origVert v1;
  p2 ← vec_get origVert v2;
  tmp ← vec_set tmp v3 (t + (p1 + p2));
  Ok (occurrences, tmp).

(** Body of the loop over the original vertices (loop.cpp:133-136). *)
Definition reposition (origVert : list point3d) (occurrences : list nat)
    (tmp : list point3d) (destVert : list point3d) (i : nat)
  : res (list point3d) :=
  n ← vec_get occurrences i;
  if decide (n = 0) then Err AssertionFailed
  else
    p ← vec_get origVert i;
    t ← vec_get tmp i;
    vec_set destVert i
      ((float_lit 5 / float_lit 8) *. p
       + t .* (float_lit 3 / (float_lit 16 * float_of_size n))).

(** Body of the loop over the new faces (loop.cpp:148-165). *)
Definition accumulateNormal (destVert : list point3d)
    (destNorm : list vec3d) (f : face) : res (list vec3d) :=
  p1 ← vec_get destVert (v1 f);
  p2 ← vec_get destVert (v2 f);
  p3 ← vec_get destVert (v3 f);
  let norm := computeNormal p1 p2 p3 in
  n ← vec_get destNorm (v1 f);
  destNorm ← vec_set destNorm (v1 f)
               (vec_add n (vec_scale (angleAtVertex p1 p2 p3) norm));
  n ← vec_get destNorm (v2 f);
  destNorm ← vec_set destNorm (v2 f)
               (vec_add n (vec_scale (angleAtVertex p2 p3 p1) norm));
  n ← vec_get destNorm (v3 f);
  destNorm ← vec_set destNorm (v3 f)
               (vec_add n (vec_scale (angleAtVertex p3 p1 p2) norm));
  Ok destNorm.

(** The first loop alone: the vertices with the midpoints appended, the new
    faces, and the registry it leaves. *)
Definition subdivideFaces (origVert : list point3d) (origMesh : list face)
    (destVert0 : list point3d) (destMesh0 : list face)
  : res (list point3d * list face * EdgeList) :=
  let destVert := assign destVert0 origVert in
  let destMesh := clear destMesh0 in
  let newVertices : EdgeList := ∅ in
  for_each (subdivideFace origMesh) origMesh (destVert, destMesh, newVertices).

(** [out] holds what the three reference parameters contain at the call. *)
Definition loopSubdivision (origVert : list point3d) (origMesh : list face)
    (out : outputs) : res outputs :=
  '(destVert, destMesh, newVertices) ←
    subdivideFaces origVert origMesh (destVert out) (destMesh out);
  let occurrences := replicate (length origVert) 0 in
  let tmp := replicate (length origVert) point_zero in
  '(occurrences, tmp) ←
    for_each (accumulate origVert) origMesh (occurrences, tmp);
  destVert ←
    for_each (reposition origVert occurrences tmp)
             (seq 0 (length origVert)) destVert;
  let destNorm := clear (destNorm out) in
  let destNorm := assign destNorm (replicate (length destVert) vec_zero) in
  destNorm ← for_each (accumulateNormal destVert) destMesh destNorm;
  let destNorm := normalize <$> destNorm in
  Ok (Outputs destVert destMesh destNorm).

End Loop.

Arguments outputs {G}.
Arguments Outputs {G} _ _ _.

(** ** The call through its references

    [loopSubdivision] receives five references.  Above, the two inputs and
    the three outputs are separate values: that is the call on five
    different vectors.  Here the parameters are locations in a memory of
    vectors, so that two parameters of the same type can name the same
    vector: [destVert] can be [origVert], and [destMesh] can be [origMesh].
    A location without an entry holds the empty vector. *)

Abbreviation loc := nat.

Section Calls.
Context `{G : Geometry}.

Record memory : Type := Memory {
  points : gmap loc (list point3d);
  meshes : gmap loc (list face);
  normals : gmap loc (list vec3d)
}.

Definition set_points (m : memory) (l : loc) (v : list point3d) : memory :=
  Memory (<[l:=v]> (points m)) (meshes m) (normals m).

Definition set_meshes (m : memory) (l : loc) (v : list face) : memory :=
  Memory (points m) (<[l:=v]> (meshes m)) (normals m).

Definition set_normals (m : memory) (l : loc) (v : list vec3d) : memory :=
  Memory (points m) (meshes m) (<[l:=v]> (normals m)).

(** A call [getNewVertex(e, vertList, mesh, newVertList)].  [vertList] is a
    vector of points and [mesh] a vector of faces, so the two are different
    vectors, and the registry is a local of the caller: the body runs on
    the contents of the two vectors and [vertList] is stored back. *)
Definition getNewVertex_at (e : edge) (vertList mesh : loc)
    (newVertList : EdgeList) (m : memory)
  : res (idxtype * memory * EdgeList) :=
  '(i, V, newVertList) ←
    getNewVertex e (points m !!! vertList) (meshes m !!! mesh) newVertList;
  Ok (i, set_points m vertList V, newVertList).

(** Body of the first loop (loop.cpp:42-81) on the memory. *)
Definition subdivideFace_at (origMesh destVert destMesh : loc)
    (st : memory * EdgeList) (f : face) : res (memory * EdgeList) :=
  let '(m, newVertices) := st in
  let v1 := v1 f in
  let v2 := v2 f in
  let v3 := v3 f in
  '(a, m, newVertices) ← getNewVertex_at (v1, v2) destVert origMesh newVertices m;
  '(b, m, newVertices) ← getNewVertex_at (v2, v3) destVert origMesh newVertices m;
  '(c, m, newVertices) ← getNewVertex_at (v3, v1) destVert origMesh newVertices m;
  let m := set_meshes m destMesh
             (meshes m !!! destMesh
              ++ [Face v1 a c; Face a b c; Face c b v3; Face a v2 b]) in
  Ok (m, newVertices).

(** Body of the loop over the original vertices (loop.cpp:133-136) on the
    memory: [origVert[i]] is read from the memory as it is in this
    iteration. *)
Definition reposition_at (origVert destVert : loc) (occurrences : list nat)
    (tmp : list point3d) (m : memory) (i : nat) : res memory :=
  V ← reposition (points m !!! origVert) occurrences tmp
                 (points m !!! destVert) i;
  Ok (set_points m destVert V).

(** [loopSubdivision(origVert, origMesh, destVert, destMesh, destNorm)]
    (loop.cpp:21-177) on the memory.  The range-for loops run over the
    vector as it is when the loop starts: the second and the fourth loop do
    not change the vector they run over, and the first appends to
    [destMesh] only, which has just been cleared, so that when [destMesh]
    is [origMesh] the loop has no iteration.  [origVert.size( )] at line 133
    does not change during its loop, which only assigns to elements. *)
Definition loopSubdivision_at
    (origVert origMesh destVert destMesh destNorm : loc) (m : memory)
  : res memory :=
  let m := set_points m destVert
             (assign (points m !!! destVert) (points m !!! origVert)) in
  let m := set_meshes m destMesh (clear (meshes m !!! destMesh)) in
  let newVertices : EdgeList := ∅ in
  '(m, newVertices) ←
    for_each (subdivideFace_at origMesh destVert destMesh)
             (meshes m !!! origMesh) (m, newVertices);
  let occurrences := replicate (length (points m !!! origVert)) 0 in
  let tmp := replicate (length (points m !!! origVert)) point_zero in
  '(occurrences, tmp) ←
    for_each (accumulate (points m !!! origVert)) (meshes m !!! origMesh)
             (occurrences, tmp);
  m ← for_each (reposition_at origVert destVert occurrences tmp)
               (seq 0 (length (points m !!! origVert))) m;
  let m := set_normals m destNorm (clear (normals m !!! destNorm)) in
  let m := set_normals m destNorm
             (assign (normals m !!! destNorm)
                     (replicate (length (points m !!! destVert)) vec_zero)) in
  norms ← for_each (accumulateNormal (points m !!! destVert))
                   (meshes m !!! destMesh) (normals m !!! destNorm);
  let m := set_normals m destNorm (normalize <$> norms) in
  Ok m.

End Calls.

Arguments memory {G}.
Arguments Memory {G} _ _ _.

(** ** A symbolic implementation of the interface

    Every value is the expression that computes it, so that running the pass
    shows which formula produced each output. *)

Inductive term : Type :=
| T_point (x y z : Z)
| T_lit (n : nat)
| T_half
| T_size (n : nat)
| T_zero
| T_add (a b : term)
| T_mul (a b : term)
| T_div (a b : term)
| T_scale_l (k p : term)
| T_scale_r (p k : term)
| T_normal (p q r : term)
| T_angle (p q r : term)
| T_normalize (v : term).

#[global] Instance term_eq_dec : EqDecision term.
Proof. solve_decision. Defined.

Definition symbolic : Geometry := {|
  float := term; point3d := term; vec3d := term;
  float_lit := T_lit; float_half := T_half; float_of_size := T_size;
  fmul := T_mul; fdiv := T_div;
  point_zero := T_zero; point_add := T_add;
  scale_l := T_scale_l; scale_r := T_scale_r;
  vec_zero := T_zero; vec_add := T_add; vec_scale := T_scale_l;
  computeNormal := T_normal; angleAtVertex := T_angle;
  normalize := T_normalize
|}.

Module Examples.
Definition P0 : term := T_point 0 0 0.
Definition P1 : term := T_point 4 0 0.
Definition P2 : term := T_point 0 4 0.
Definition P3 : term := T_point 4 4 0.
Definition P4 : term := T_point 0 0 4.

(** One triangle: three boundary edges. *)
Definition triangleVert : list term := [P0; P1; P2].
Definition triangleMesh : list face := [Face 0 1 2].

(** Two triangles sharing the edge {1,2}. *)
Definition stripVert : list term := [P0; P1; P2; P3].
Definition stripMesh : list face := [Face 0 1 2; Face 2 1 3].

(** A closed mesh: every edge is interior. *)
Definition tetraVert : list term := [P0; P1; P2; P4].
Definition tetraMesh : list face :=
  [Face 0 2 1; Face 0 1 3; Face 1 2 3; Face 2 0 3].

(** One triangle and a fourth vertex that no face mentions. *)
Definition looseVert : list term := [P0; P1; P2; P3].
Definition looseMesh : list face := [Face 0 1 2].

(** Three faces over four vertices, the last of which names the index 4,
    past the end of the list. *)
Definition chainVert : list term := [P0; P1; P2; P3].
Definition chainMesh : list face := [Face 0 1 2; Face 2 1 3; Face 3 1 4].

(** A face that names the vertex 0 twice, over its two vertices and over
    these and a third one that it does not mention. *)
Definition foldedVert : list term := [P0; P1].
Definition spareVert : list term := [P0; P1; P2].
Definition foldedMesh : list face := [Face 0 0 1].

Definition none : @outputs symbolic := Outputs [] [] [].

Definition resultOr (d : @outputs symbolic) (r : res (@outputs symbolic))
  : @outputs symbolic :=
  match r with
  | Ok out => out
  | Err _ => d
  end.

(** What the pass returns on the strip. *)
Definition stripOut : @outputs symbolic :=
  Eval vm_compute in
    resultOr none (@loopSubdivision symbolic stripVert stripMesh none).

(** A memory that holds the triangle, and one that holds the strip, at the
    location 0 of the points and of the faces. *)
Definition triangleMemory : @memory symbolic :=
  Memory {[0 := triangleVert]} {[0 := triangleMesh]} ∅.

Definition stripMemory : @memory symbolic :=
  Memory {[0 := stripVert]} {[0 := stripMesh]} ∅.
End Examples.

Module MoreExamples.
(** The strip with other positions at the same four indices. *)
Definition movedVert : list term :=
  [T_point 1 1 1; T_point 5 0 2; T_point 0 6 3; T_point 7 7 7].

Definition movedOut : @outputs symbolic :=
  Eval vm_compute in
    Examples.resultOr Examples.none
      (@loopSubdivision symbolic movedVert Examples.stripMesh Examples.none).

(** What the pass returns on the face that names the vertex 0 twice. *)
Definition foldedOut : @outputs symbolic :=
  Eval vm_compute in
    Examples.resultOr Examples.none
      (@loopSubdivision symbolic Examples.foldedVert Examples.foldedMesh
         Examples.none).

(** The new vertex of the edge (0,1) of the strip, met first. *)
Definition firstMidpoint : term := T_scale_r (T_add Examples.P0 Examples.P1) T_half.
End MoreExamples.

(** ** What the theorems speak about *)

Definition edgesOf (f : face) : list edge :=
  [(v1 f, v2 f); (v2 f, v3 f); (v3 f, v1 f)].

(** The edges in the order the first loop resolves them. *)
Definition meshEdges (mesh : list face) : list edge := mesh ≫= edgesOf.

(** The distinct undirected edges of a mesh. *)
Definition distinctEdges (mesh : list face) : gset (idxtype * idxtype) :=
  list_to_set (canon <$> meshEdges mesh).

(** The first occurrence of every undirected edge not in [seen]. *)
Fixpoint firsts (seen : gset (idxtype * idxtype)) (es : list edge)
  : list edge :=
  match es with
  | [] => []
  | e :: es =>
      if decide (canon e ∈ seen) then firsts seen es
      else e :: firsts ({[canon e]} ∪ seen) es
  end.

(** The registry that maps these first occurrences to [k], [k+1], ... *)
Fixpoint registry_after (R : EdgeList) (k : nat) (es : list edge) : EdgeList :=
  match es with
  | [] => R
  | e :: es =>
      if decide (canon e ∈ dom R) then registry_after R k es
      else registry_after (<[canon e := k]> R) (S k) es
  end.

Definition face_in_range (n : nat) (f : face) : Prop :=
  v1 f < n ∧ v2 f < n ∧ v3 f < n.

Definition edge_in_range (n : nat) (e : edge) : Prop := e.1 < n ∧ e.2 < n.

Definition face_distinct (f : face) : Prop :=
  v1 f ≠ v2 f ∧ v2 f ≠ v3 f ∧ v3 f ≠ v1 f.

Definition face_ok (n : nat) (f : face) : Prop :=
  face_in_range n f ∧ face_distinct f.

Definition manifold (mesh : list face) : Prop :=
  Forall (fun e => length (incidentFaces e mesh) ≤ 2) (meshEdges mesh).

Definition referenced (mesh : list face) (i : idxtype) : Prop :=
  Exists (fun f => face_has f i = true) mesh.

(** Faces with three distinct indices below [n], and at most two faces on
    an edge. *)
Definition well_formed (n : nat) (mesh : list face) : Prop :=
  Forall (face_ok n) mesh ∧ manifold mesh.

(** The input the pass is written for: a well-formed mesh over [n] vertices
    that leaves no vertex out of every face. *)
Definition valid_mesh (n : nat) (mesh : list face) : Prop :=
  well_formed n mesh ∧ Forall (referenced mesh) (seq 0 n).

#[global] Instance well_formed_dec n mesh : Decision (well_formed n mesh).
Proof.
  unfold well_formed, manifold, face_ok, face_in_range, face_distinct.
  apply _.
Defined.

#[global] Instance valid_mesh_dec n mesh : Decision (valid_mesh n mesh).
Proof. unfold valid_mesh, referenced. apply _. Defined.

(** The set of the three vertices of a face. *)
Definition vertexSet (f : face) : gset idxtype :=
  {[v1 f; v2 f; v3 f]}.

(** No two faces of the list have the same three vertices. *)
Definition simple (mesh : list face) : Prop :=
  NoDup (vertexSet <$> mesh).

#[global] Instance simple_dec mesh : Decision (simple mesh).
Proof. unfold simple. apply _. Defined.

(** How many of the three slots of a face hold the vertex [i]. *)
Definition multiplicity (f : face) (i : idxtype) : nat :=
  (if decide (i = v1 f) then 1 else 0)
  + (if decide (i = v2 f) then 1 else 0)
  + (if decide (i = v3 f) then 1 else 0).

(** What [occurrences[i]] holds after the second loop: the slots of the
    face list that hold [i]. *)
Definition occurrenceTotal (mesh : list face) (i : idxtype) : nat :=
  foldl (λ c f, multiplicity f i + c) 0 mesh.

(** The invariant of the first loop that [getNewVertex] keeps: every
    registered index points into the vertex list. *)
Definition registry_in_range {A} (vertList : list A) (R : EdgeList) : Prop :=
  map_Forall (λ _ i, i < length vertList) R.

Section Properties.
Context `{G : Geometry}.
Local Open Scope geo_scope.

#[local] Instance point3d_inhabited : Inhabited point3d := populate point_zero.

Implicit Types (ov V X : list point3d) (om fs : list face) (R : EdgeList).
Implicit Types (e : edge) (es : list edge) (f : face) (i j k n : nat).

(** The position [getNewVertex] computes for a new edge (loop.cpp:225-248),
    read from the vertex list [vertList]. *)
Definition midpoint (vertList : list point3d) (mesh : list face) (e : edge)
  : res point3d :=
  b ← isBoundaryEdge e mesh;
  match b with
  | Interior oppV1 oppV2 =>
      p1 ← vec_get vertList e.1;
      p2 ← vec_get vertList e.2;
      o1 ← vec_get vertList oppV1;
      o2 ← vec_get vertList oppV2;
      Ok ((float_lit 3 / float_lit 8) *. (p1 + p2)
          + (float_lit 1 / float_lit 8) *. (o1 + o2))
  | Boundary =>
      p1 ← vec_get vertList e.1;
      p2 ← vec_get vertList e.2;
      Ok ((p1 + p2) .* float_half)
  end.

(** The vertex list and the registry after resolving the edges [es]. *)
Fixpoint resolveEdges (mesh : list face) (es : list edge)
    (vertList : list point3d) (newVertList : EdgeList)
  : res (list point3d * EdgeList) :=
  match es with
  | [] => Ok (vertList, newVertList)
  | e :: es =>
      '(_, vertList, newVertList) ← getNewVertex e vertList mesh newVertList;
      resolveEdges mesh es vertList newVertList
  end.

(** The four children of a face, with the midpoint indices taken from the
    registry [R]. *)
Definition childFaces (R : EdgeList) (f : face) : list face :=
  let a := R !!! canon (v1 f, v2 f) in
  let b := R !!! canon (v2 f, v3 f) in
  let c := R !!! canon (v3 f, v1 f) in
  [Face (v1 f) a c; Face a b c; Face c b (v3 f); Face a (v2 f) b].

(** The number of faces that contain the vertex [i]. *)
Definition occurrenceCount (mesh : list face) (i : idxtype) : nat :=
  length (filter (λ f, face_has f i = true) mesh).

(** What one face adds to the running sum of the vertex [i]: the positions
    of its other two vertices. *)
Definition contribution (origVert : list point3d) (f : face) (i : idxtype)
    (acc : point3d) : point3d :=
  if decide (i = v1 f) then
    acc + (origVert !!! v2 f + origVert !!! v3 f)
  else if decide (i = v2 f) then
    acc + (origVert !!! v1 f + origVert !!! v3 f)
  else if decide (i = v3 f) then
    acc + (origVert !!! v1 f + origVert !!! v2 f)
  else acc.

Definition neighborSumFrom (acc : point3d) (origVert : list point3d)
    (mesh : list face) (i : idxtype) : point3d :=
  foldl (λ acc f, contribution origVert f i acc) acc mesh.

(** The sum over the faces containing [i], in face order, starting from
    [point_zero]. *)
Definition neighborSum (origVert : list point3d) (mesh : list face)
    (i : idxtype) : point3d :=
  neighborSumFrom point_zero origVert mesh i.

(** The Loop update of an original vertex. *)
Definition newPosition (p : point3d) (sum : point3d) (n : nat) : point3d :=
  (float_lit 5 / float_lit 8) *. p
  + sum .* (float_lit 3 / (float_lit 16 * float_of_size n)).

Definition repositioned (origVert : list point3d) (mesh : list face)
  : list point3d :=
  imap (λ i p, newPosition p (neighborSum origVert mesh i)
                           (occurrenceCount mesh i)) origVert.

(** The registry the first loop leaves: the first occurrences of the edges,
    numbered from [length origVert]. *)
Definition finalRegistry (origVert : list point3d) (mesh : list face)
  : EdgeList :=
  registry_after ∅ (length origVert) (meshEdges mesh).

(** What one face adds to [tmp[i]], slot after slot (loop.cpp:116-125). *)
Definition contributionSeq (origVert : list point3d) (f : face) (i : idxtype)
    (acc : point3d) : point3d :=
  let acc :=
    if decide (i = v1 f) then acc + (origVert !!! v2 f + origVert !!! v3 f)
    else acc in
  let acc :=
    if decide (i = v2 f) then acc + (origVert !!! v1 f + origVert !!! v3 f)
    else acc in
  if decide (i = v3 f) then acc + (origVert !!! v1 f + origVert !!! v2 f)
  else acc.

(** What [tmp[i]] holds after the second loop. *)
Definition runningSum (origVert : list point3d) (mesh : list face)
    (i : idxtype) : point3d :=
  foldl (λ acc f, contributionSeq origVert f i acc) point_zero mesh.

(** The original vertices after the repositioning loop. *)
Definition repositionedSeq (origVert : list point3d) (mesh : list face)
  : list point3d :=
  imap (λ i p, newPosition p (runningSum origVert mesh i)
                           (occurrenceTotal mesh i)) origVert.

(** What one face adds to [destNorm[i]], slot after slot
    (loop.cpp:154-162). *)
Definition normalContribution (destVert : list point3d) (f : face)
    (i : idxtype) (acc : vec3d) : vec3d :=
  let p1 := destVert !!! v1 f in
  let p2 := destVert !!! v2 f in
  let p3 := destVert !!! v3 f in
  let norm := computeNormal p1 p2 p3 in
  let acc :=
    if decide (i = v1 f)
    then vec_add acc (vec_scale (angleAtVertex p1 p2 p3) norm) else acc in
  let acc :=
    if decide (i = v2 f)
    then vec_add acc (vec_scale (angleAtVertex p2 p3 p1) norm) else acc in
  if decide (i = v3 f)
  then vec_add acc (vec_scale (angleAtVertex p3 p1 p2) norm) else acc.

(** What [destNorm[i]] holds before it is normalized. *)
Definition accumulatedNormal (destVert : list point3d) (mesh : list face)
    (i : idxtype) : vec3d :=
  foldl (λ acc f, normalContribution destVert f i acc) vec_zero mesh.

(** *** The registry *)

Lemma canon_swap (a b : idxtype) : canon (a, b) = canon (b, a).
Proof. unfold canon; simpl. f_equal; lia. Qed.

Lemma canon_eq (e e' : edge) :
  canon e' = canon e ↔ e' = e ∨ e' = (e.2, e.1).
Proof.
  destruct e as [a b], e' as [c d]; unfold canon; simpl. split.
  - intros [= H1 H2].
    destruct (decide (c = a)) as [->|]; [left; f_equal; lia|right; f_equal; lia].
  - intros [[= -> ->]|[= -> ->]]; f_equal; lia.
Qed.

Lemma contains_true (R : EdgeList) e i :
  R !! canon e = Some i → contains R e = true.
Proof. intros H. unfold contains. apply bool_decide_eq_true. eauto. Qed.

Lemma contains_false (R : EdgeList) e :
  R !! canon e = None → contains R e = false.
Proof.
  intros H. unfold contains. apply bool_decide_eq_false.
  rewrite H. by intros [? ?].
Qed.

Lemma getNewVertex_registered e V om (R : EdgeList) i :
  R !! canon e = Some i → getNewVertex e V om R = Ok (i, V, R).
Proof.
  intros H. unfold getNewVertex, getIndex.
  rewrite (contains_true _ _ _ H). rewrite H. reflexivity.
Qed.

Lemma getNewVertex_fresh e V om (R : EdgeList) :
  R !! canon e = None →
  getNewVertex e V om R =
    (p ← midpoint V om e; Ok (length V, V ++ [p], <[canon e := length V]> R)).
Proof.
  intros H. unfold getNewVertex, add, midpoint.
  rewrite (contains_false _ _ H). simpl.
  destruct (isBoundaryEdge e om) as [[|o1 o2]|]; simpl; [| |done].
  - destruct (vec_get V e.1); simpl; [|done].
    destruct (vec_get V e.2); simpl; done.
  - destruct (vec_get V e.1); simpl; [|done].
    destruct (vec_get V e.2); simpl; [|done].
    destruct (vec_get V o1); simpl; [|done].
    destruct (vec_get V o2); simpl; done.
Qed.

(** *** Reads of the grown vertex list *)

Lemma vec_get_app ov X i :
  i < length ov → vec_get (ov ++ X) i = vec_get ov i.
Proof. intros H. unfold vec_get. by rewrite lookup_app_l. Qed.

Lemma vec_get_lt {A} (l : list A) i :
  i < length l → ∃ x, l !! i = Some x ∧ vec_get l i = Ok x.
Proof.
  intros H. destruct (lookup_lt_is_Some_2 l i H) as [x Hx].
  exists x. unfold vec_get. by rewrite Hx.
Qed.

Lemma oppositeVertex_elem f e o :
  oppositeVertex f e = Some o →
  (o = v1 f ∨ o = v2 f ∨ o = v3 f) ∧ o ≠ e.1 ∧ o ≠ e.2.
Proof.
  unfold oppositeVertex. intros H.
  apply head_Some_elem_of in H. apply list_elem_of_filter in H as [[? ?] Ho].
  split; [|done]. rewrite !elem_of_cons in Ho.
  destruct Ho as [?|[?|[?|Ho]]]; auto. by apply elem_of_nil in Ho.
Qed.

Lemma incidentFaces_elem e om f :
  f ∈ incidentFaces e om ↔ containsEdge f e = true ∧ f ∈ om.
Proof.
  unfold incidentFaces.
  apply (list_elem_of_filter (fun f => containsEdge f e = true)).
Qed.

Lemma face_in_range_elem n f v :
  face_in_range n f → v = v1 f ∨ v = v2 f ∨ v = v3 f → v < n.
Proof. unfold face_in_range. intros (? & ? & ?) [->|[->| ->]]; done. Qed.

Lemma isBoundaryEdge_interior n om e o1 o2 :
  Forall (face_in_range n) om →
  isBoundaryEdge e om = Ok (Interior o1 o2) →
  ∃ f g, incidentFaces e om = [f; g] ∧
         oppositeVertex f e = Some o1 ∧ oppositeVertex g e = Some o2 ∧
         o1 < n ∧ o2 < n.
Proof.
  intros Hr. unfold isBoundaryEdge.
  destruct (incidentFaces e om) as [|f [|g [|]]] eqn:Hinc; try done.
  destruct (oppositeVertex f e) as [a|] eqn:Hf; [|done].
  destruct (oppositeVertex g e) as [b|] eqn:Hg; [|done].
  intros [= <- <-]. exists f, g. split_and!; try done.
  - assert (f ∈ om) as Hin
      by (apply (incidentFaces_elem e); rewrite Hinc; set_solver).
    rewrite Forall_forall in Hr.
    eapply face_in_range_elem; [by apply Hr|].
    by apply oppositeVertex_elem in Hf as [? _].
  - assert (g ∈ om) as Hin
      by (apply (incidentFaces_elem e); rewrite Hinc; set_solver).
    rewrite Forall_forall in Hr.
    eapply face_in_range_elem; [by apply Hr|].
    by apply oppositeVertex_elem in Hg as [? _].
Qed.

Lemma midpoint_app ov X om e :
  Forall (face_in_range (length ov)) om →
  e.1 < length ov → e.2 < length ov →
  midpoint (ov ++ X) om e = midpoint ov om e.
Proof.
  intros Hr H1 H2. unfold midpoint.
  destruct (isBoundaryEdge e om) as [[|o1 o2]|] eqn:Hb; simpl; [| |done].
  - by rewrite !vec_get_app.
  - destruct (isBoundaryEdge_interior _ _ _ _ _ Hr Hb)
      as (f & g & _ & _ & _ & ? & ?).
    by rewrite !vec_get_app.
Qed.

(** *** The first loop in closed form *)

Lemma edgesOf_elem e f :
  e ∈ edgesOf f ↔ e = (v1 f, v2 f) ∨ e = (v2 f, v3 f) ∨ e = (v3 f, v1 f).
Proof.
  unfold edgesOf. rewrite !elem_of_cons, elem_of_nil. tauto.
Qed.

Lemma meshEdges_elem e om :
  e ∈ meshEdges om ↔ ∃ f, e ∈ edgesOf f ∧ f ∈ om.
Proof. unfold meshEdges. apply list_elem_of_bind. Qed.

Lemma meshEdges_in_range n om :
  Forall (face_in_range n) om → Forall (edge_in_range n) (meshEdges om).
Proof.
  intros H. rewrite Forall_forall. intros e He.
  apply meshEdges_elem in He as (f & He & Hf).
  rewrite Forall_forall in H. specialize (H f Hf) as (? & ? & ?).
  apply edgesOf_elem in He. unfold edge_in_range.
  destruct He as [->|[->| ->]]; simpl; done.
Qed.

Lemma resolveEdges_closed ov om es : ∀ X R,
  Forall (face_in_range (length ov)) om →
  Forall (edge_in_range (length ov)) es →
  resolveEdges om es (ov ++ X) R =
    (ps ← mapM (midpoint ov om) (firsts (dom R) es);
     Ok (ov ++ X ++ ps, registry_after R (length ov + length X) es)).
Proof.
  induction es as [|e es IH]; intros X R Hr He; simpl.
  - by rewrite app_nil_r.
  - apply Forall_cons in He as [[He1 He2] He].
    destruct (decide (canon e ∈ dom R)) as [Hin|Hin].
    + apply elem_of_dom in Hin as [i Hi].
      rewrite (getNewVertex_registered _ _ _ _ _ Hi). simpl.
      by apply IH.
    + apply not_elem_of_dom in Hin.
      rewrite (getNewVertex_fresh _ _ _ _ Hin), (midpoint_app ov X om e Hr He1 He2).
      simpl. destruct (midpoint ov om e) as [p|err]; simpl; [|done].
      rewrite <- (assoc_L (++)), (IH (X ++ [p])) by done.
      rewrite dom_insert_L, !length_app. simpl.
      replace (length ov + (length X + 1))%nat
        with (S (length ov + length X)) by lia.
      destruct (mapM _ _) as [ps|err]; simpl; [|done].
      by rewrite <- (assoc_L (++) X).
Qed.

Lemma mapM_Ok_Forall2 {A B} (f : A → res B) (l : list A) (ys : list B) :
  mapM f l = Ok ys ↔ Forall2 (λ x y, f x = Ok y) l ys.
Proof.
  revert ys. induction l as [|x l IH]; intros ys; simpl.
  - split; [intros [= <-]; constructor|by inversion 1].
  - split.
    + destruct (f x) as [y|] eqn:Hy; simpl; [|done].
      destruct (mapM f l) as [k|] eqn:Hk; simpl; [|done].
      intros [= <-]. constructor; [done|]. by apply IH.
    + inversion 1 as [|? y ? k Hy Hk]; subst. rewrite Hy. simpl.
      apply IH in Hk. by rewrite Hk.
Qed.

Lemma mapM_Ok_intro {A B} (f : A → res B) (l : list A) :
  Forall (λ x, ∃ y, f x = Ok y) l → ∃ ys, mapM f l = Ok ys.
Proof.
  induction 1 as [|x l [y Hy] _ [ys Hys]]; simpl; [by eexists|].
  rewrite Hy, Hys. simpl. by eexists.
Qed.

Lemma firsts_elem (seen : gset (idxtype * idxtype)) es e :
  e ∈ firsts seen es → e ∈ es ∧ canon e ∉ seen.
Proof.
  revert seen. induction es as [|e' es IH]; intros seen; simpl.
  - by rewrite elem_of_nil.
  - destruct (decide (canon e' ∈ seen)) as [Hin|Hin].
    + intros [? ?]%IH. split; [by right|done].
    + rewrite elem_of_cons. intros [->|[? Hn]%IH]; [split; [by left|done]|].
      split; [by right|]. intros ?. apply Hn. apply elem_of_union. by right.
Qed.

Lemma length_firsts (seen : gset (idxtype * idxtype)) es :
  length (firsts seen es) = size (list_to_set (canon <$> es) ∖ seen : gset _).
Proof.
  revert seen. induction es as [|e es IH]; intros seen; csimpl.
  - apply eq_sym, size_empty_iff. intros x.
    rewrite elem_of_difference, elem_of_empty. tauto.
  - destruct (decide (canon e ∈ seen)) as [Hin|Hin].
    + rewrite IH. f_equal. apply set_eq. intros x.
      rewrite !elem_of_difference, elem_of_union, elem_of_singleton.
      split; [tauto|]. intros [[->|?] ?]; tauto.
    + csimpl. rewrite IH.
      assert ((({[canon e]} ∪ list_to_set (canon <$> es)) ∖ seen
               : gset (idxtype * idxtype))
              = {[canon e]}
                ∪ (list_to_set (canon <$> es) ∖ ({[canon e]} ∪ seen))) as ->.
      { apply set_eq. intros x.
        rewrite !elem_of_difference, !elem_of_union, !elem_of_difference,
          !elem_of_union, !elem_of_singleton.
        destruct (decide (x = canon e)) as [->|]; tauto. }
      rewrite (size_union (C:=gset (nat * nat)) {[canon e]}).
      { by rewrite (size_singleton (C:=gset (idxtype * idxtype)) (canon e)). }
      intros x. rewrite elem_of_singleton, elem_of_difference, elem_of_union,
        elem_of_singleton. tauto.
Qed.

Lemma registry_after_subseteq es : ∀ R k, R ⊆ registry_after R k es.
Proof.
  induction es as [|e es IH]; intros R k; simpl; [done|].
  destruct (decide (canon e ∈ dom R)) as [Hin|Hin]; [apply IH|].
  etrans; [|apply IH]. apply insert_subseteq. by apply not_elem_of_dom.
Qed.

Lemma registry_after_dom es : ∀ R k,
  dom (registry_after R k es) = dom R ∪ list_to_set (canon <$> es).
Proof.
  induction es as [|e es IH]; intros R k; csimpl.
  - by rewrite (right_id_L ∅ (∪)).
  - destruct (decide (canon e ∈ dom R)) as [Hin|Hin]; rewrite IH.
    + apply set_eq. intros x.
      rewrite !elem_of_union, elem_of_singleton. split; [tauto|].
      intros [?|[->|?]]; tauto.
    + rewrite dom_insert_L. apply set_eq. intros x.
      rewrite !elem_of_union. tauto.
Qed.

(** Where an edge of [es] ends up: at the position of its first occurrence. *)
Lemma registry_after_lookup es : ∀ R k e,
  e ∈ es → canon e ∉ dom R →
  ∃ j e0, firsts (dom R) es !! j = Some e0 ∧ canon e0 = canon e ∧
          e0 ∈ es ∧ registry_after R k es !! canon e = Some (k + j)%nat.
Proof.
  induction es as [|e' es IH]; intros R k e He Hn; simpl.
  - by apply elem_of_nil in He.
  - destruct (decide (canon e' ∈ dom R)) as [Hin|Hin].
    + apply elem_of_cons in He as [->|He]; [done|].
      destruct (IH R k e He Hn) as (j & e0 & ? & ? & ? & ?).
      exists j, e0. split_and!; try done. by right.
    + destruct (decide (canon e = canon e')) as [Heq|Hne].
      * exists 0, e'. split_and!; try done; [by left|].
        rewrite Nat.add_0_r, Heq.
        eapply lookup_weaken; [|apply registry_after_subseteq].
        apply lookup_insert_eq.
      * apply elem_of_cons in He as [->|He]; [done|].
        destruct (IH (<[canon e':=k]> R) (S k) e He) as (j & e0 & H1 & ? & ? & H2).
        { rewrite dom_insert_L, elem_of_union, elem_of_singleton. tauto. }
        exists (S j), e0. rewrite dom_insert_L in H1. split_and!; try done.
        -- by right.
        -- rewrite H2. f_equal. lia.
Qed.

Lemma registry_after_bound es : ∀ R k,
  map_Forall (λ _ i, i < k) R →
  map_Forall (λ _ i, i < k + length (firsts (dom R) es))
             (registry_after R k es).
Proof.
  induction es as [|e es IH]; intros R k HR; simpl.
  - intros key i Hi. specialize (HR key i Hi). simpl in HR. lia.
  - destruct (decide (canon e ∈ dom R)) as [Hin|Hin]; [by apply IH|].
    simpl. specialize (IH (<[canon e:=k]> R) (S k)).
    rewrite dom_insert_L in IH.
    replace (k + S (length (firsts ({[canon e]} ∪ dom R) es)))%nat
      with (S k + length (firsts ({[canon e]} ∪ dom R) es))%nat by lia.
    apply IH. apply map_Forall_insert_2; [lia|].
    intros key i Hi. specialize (HR key i Hi). simpl in HR. lia.
Qed.

(** *** The first loop and the edges it resolves *)

Lemma getNewVertex_Ok e V om R i V' (R' : EdgeList) :
  getNewVertex e V om R = Ok (i, V', R') →
  R' !! canon e = Some i ∧ R ⊆ R'.
Proof.
  destruct (R !! canon e) as [j|] eqn:Hj.
  - rewrite (getNewVertex_registered _ _ _ _ _ Hj). by intros [= <- <- <-].
  - rewrite (getNewVertex_fresh _ _ _ _ Hj).
    destruct (midpoint V om e); simpl; [|done]. intros [= <- <- <-].
    split; [apply lookup_insert_eq|by apply insert_subseteq].
Qed.

Lemma resolveEdges_subseteq om es : ∀ V R V' (R' : EdgeList),
  resolveEdges om es V R = Ok (V', R') → R ⊆ R'.
Proof.
  induction es as [|e es IH]; intros V R V' R'; simpl.
  - by intros [= <- <-].
  - destruct (getNewVertex e V om R) as [[[i Vi] Ri]|] eqn:Hi; simpl; [|done].
    intros H. apply getNewVertex_Ok in Hi as [_ ?]. apply IH in H.
    by etrans.
Qed.

Lemma subdivideFaces_resolveEdges om fs : ∀ V (M : list face) R,
  for_each (subdivideFace om) fs (V, M, R) =
    ('(V', R') ← resolveEdges om (meshEdges fs) V R;
     Ok (V', M ++ (fs ≫= childFaces R'), R')).
Proof.
  induction fs as [|f fs IH]; intros V M R; simpl.
  - by rewrite app_nil_r.
  - destruct (getNewVertex (v1 f, v2 f) V om R) as [[[a Va] Ra]|] eqn:Ha;
      simpl; [|done].
    destruct (getNewVertex (v2 f, v3 f) Va om Ra) as [[[b Vb] Rb]|] eqn:Hb;
      simpl; [|done].
    destruct (getNewVertex (v3 f, v1 f) Vb om Rb) as [[[c Vc] Rc]|] eqn:Hc;
      simpl; [|done].
    rewrite IH.
    destruct (resolveEdges om (meshEdges fs) Vc Rc) as [[V' R']|] eqn:Hr;
      simpl; [|done].
    apply getNewVertex_Ok in Ha as [Ha ?], Hb as [Hb ?], Hc as [Hc ?].
    apply resolveEdges_subseteq in Hr.
    assert (R' !!! canon (v1 f, v2 f) = a) as ->.
    { apply lookup_total_correct.
      do 3 (eapply lookup_weaken; [|eassumption]). done. }
    assert (R' !!! canon (v2 f, v3 f) = b) as ->.
    { apply lookup_total_correct.
      do 2 (eapply lookup_weaken; [|eassumption]). done. }
    assert (R' !!! canon (v3 f, v1 f) = c) as ->.
    { apply lookup_total_correct.
      do 1 (eapply lookup_weaken; [|eassumption]). done. }
    by rewrite <- (assoc_L (++)).
Qed.

(** *** The finder on the edges of a valid mesh *)

Lemma face_has_true f v :
  face_has f v = true ↔ v = v1 f ∨ v = v2 f ∨ v = v3 f.
Proof. unfold face_has. apply bool_decide_eq_true. Qed.

Lemma containsEdge_true f e :
  containsEdge f e = true ↔
  (e.1 = v1 f ∨ e.1 = v2 f ∨ e.1 = v3 f) ∧
  (e.2 = v1 f ∨ e.2 = v2 f ∨ e.2 = v3 f).
Proof.
  unfold containsEdge. by rewrite andb_true_iff, !face_has_true.
Qed.

Lemma containsEdge_edgesOf f e : e ∈ edgesOf f → containsEdge f e = true.
Proof.
  intros He%edgesOf_elem. apply containsEdge_true.
  destruct He as [->|[->| ->]]; simpl; tauto.
Qed.

Lemma edgesOf_distinct f e : face_distinct f → e ∈ edgesOf f → e.1 ≠ e.2.
Proof.
  intros (? & ? & ?) He%edgesOf_elem.
  destruct He as [->|[->| ->]]; simpl; done.
Qed.

Lemma oppositeVertex_is_Some f e :
  face_distinct f → containsEdge f e = true → e.1 ≠ e.2 →
  is_Some (oppositeVertex f e).
Proof.
  intros (H12 & H23 & H31) [H1 H2]%containsEdge_true Hne.
  unfold oppositeVertex. apply head_is_Some. intros Hnil.
  assert (∀ v, v ∈ [v1 f; v2 f; v3 f] → ¬ (v ≠ e.1 ∧ v ≠ e.2)) as Hall.
  { intros v Hv HP.
    by apply (filter_nil_not_elem_of
                (λ v : idxtype, v ≠ e.1 ∧ v ≠ e.2) _ v Hnil HP). }
  assert (v1 f = e.1 ∨ v1 f = e.2) as Ha.
  { specialize (Hall (v1 f)). rewrite !elem_of_cons in Hall. lia. }
  assert (v2 f = e.1 ∨ v2 f = e.2) as Hb.
  { specialize (Hall (v2 f)). rewrite !elem_of_cons in Hall. lia. }
  assert (v3 f = e.1 ∨ v3 f = e.2) as Hc.
  { specialize (Hall (v3 f)). rewrite !elem_of_cons in Hall. lia. }
  lia.
Qed.

Lemma incidentFaces_swap e om :
  incidentFaces (e.2, e.1) om = incidentFaces e om.
Proof.
  unfold incidentFaces. apply list_filter_iff. intros f.
  unfold containsEdge. simpl. by rewrite andb_comm.
Qed.

Lemma oppositeVertex_swap f e :
  oppositeVertex f (e.2, e.1) = oppositeVertex f e.
Proof.
  unfold oppositeVertex. f_equal. apply list_filter_iff. intros v.
  simpl. tauto.
Qed.

Lemma isBoundaryEdge_swap e om :
  isBoundaryEdge (e.2, e.1) om = isBoundaryEdge e om.
Proof.
  unfold isBoundaryEdge. rewrite incidentFaces_swap.
  destruct (incidentFaces e om) as [|f [|g [|]]]; try done.
  by rewrite !oppositeVertex_swap.
Qed.

(** On a valid mesh an edge of a face has one or two incident faces, and
    the finder reports them. *)
Lemma isBoundaryEdge_valid n om e :
  well_formed n om → e ∈ meshEdges om →
  (∃ f, incidentFaces e om = [f] ∧ isBoundaryEdge e om = Ok Boundary) ∨
  (∃ f g o1 o2,
      incidentFaces e om = [f; g] ∧
      oppositeVertex f e = Some o1 ∧ oppositeVertex g e = Some o2 ∧
      isBoundaryEdge e om = Ok (Interior o1 o2)).
Proof.
  intros (Hok & Hman) He.
  unfold manifold in Hman. rewrite Forall_forall in Hman.
  rewrite Forall_forall in Hok.
  specialize (Hman e He).
  apply meshEdges_elem in He as (f0 & He & Hf0).
  assert (e.1 ≠ e.2) as Hne.
  { eapply edgesOf_distinct; [|done]. by apply Hok. }
  assert (f0 ∈ incidentFaces e om) as Hin0.
  { apply incidentFaces_elem. split; [by apply containsEdge_edgesOf|done]. }
  assert (∀ g, g ∈ incidentFaces e om → is_Some (oppositeVertex g e)) as Hopp.
  { intros g [Hg1 Hg2]%incidentFaces_elem.
    apply oppositeVertex_is_Some; [by apply Hok|done..]. }
  unfold isBoundaryEdge.
  destruct (incidentFaces e om) as [|f [|g [|h l]]] eqn:Hinc.
  - by apply elem_of_nil in Hin0.
  - left. by exists f.
  - right. destruct (Hopp f) as [o1 Ho1]; [by left|].
    destruct (Hopp g) as [o2 Ho2]; [right; by left|].
    exists f, g, o1, o2. by rewrite Ho1, Ho2.
  - simpl in Hman. lia.
Qed.

Lemma midpoint_valid ov om e :
  well_formed (length ov) om → e ∈ meshEdges om →
  ∃ p, midpoint ov om e = Ok p.
Proof.
  intros Hv He. pose proof Hv as (Hok & _).
  assert (Forall (face_in_range (length ov)) om) as Hr.
  { eapply Forall_impl; [done|]. by intros f [? _]. }
  pose proof (meshEdges_in_range _ _ Hr) as Her.
  rewrite Forall_forall in Her. destruct (Her e He) as [H1 H2].
  destruct (vec_get_lt ov _ H1) as (p1 & _ & Hp1).
  destruct (vec_get_lt ov _ H2) as (p2 & _ & Hp2).
  unfold midpoint.
  destruct (isBoundaryEdge_valid _ _ _ Hv He)
    as [(f & _ & ->)|(f & g & o1 & o2 & _ & _ & _ & Hb)]; simpl.
  - rewrite Hp1, Hp2. simpl. by eexists.
  - rewrite Hb. simpl.
    destruct (isBoundaryEdge_interior _ _ _ _ _ Hr Hb)
      as (_ & _ & _ & _ & _ & Ho1 & Ho2).
    destruct (vec_get_lt ov _ Ho1) as (q1 & _ & Hq1).
    destruct (vec_get_lt ov _ Ho2) as (q2 & _ & Hq2).
    rewrite Hp1, Hp2, Hq1, Hq2. simpl. by eexists.
Qed.

Lemma well_formed_in_range n om :
  well_formed n om → Forall (face_in_range n) om.
Proof. intros (Hok & _). eapply Forall_impl; [done|]. by intros f [? _]. Qed.

(** The first loop on a valid mesh: the midpoints of the first occurrences
    of the edges, appended in order; the children of every face; the
    registry that numbers the first occurrences from [length origVert]. *)
Lemma subdivideFaces_closed ov om dv0 (dm0 : list face) :
  Forall (face_in_range (length ov)) om →
  subdivideFaces ov om dv0 dm0 =
    (ps ← mapM (midpoint ov om) (firsts ∅ (meshEdges om));
     let R := registry_after ∅ (length ov) (meshEdges om) in
     Ok (ov ++ ps, om ≫= childFaces R, R)).
Proof.
  intros Hr. unfold subdivideFaces, assign, clear.
  rewrite subdivideFaces_resolveEdges.
  pose proof (resolveEdges_closed ov om (meshEdges om) [] ∅ Hr
                (meshEdges_in_range _ _ Hr)) as Hc.
  rewrite app_nil_r in Hc. rewrite Hc, dom_empty_L. simpl.
  destruct (mapM _ _) as [ps|]; simpl; [|done].
  by rewrite Nat.add_0_r.
Qed.

Lemma midpoints_valid ov om :
  well_formed (length ov) om →
  ∃ ps, mapM (midpoint ov om) (firsts ∅ (meshEdges om)) = Ok ps.
Proof.
  intros Hv. apply mapM_Ok_intro. rewrite Forall_forall. intros e He.
  apply firsts_elem in He as [He _]. by apply midpoint_valid.
Qed.

(** *** The accumulation loop *)

Lemma vec_get_Some {A} (l : list A) i x : l !! i = Some x → vec_get l i = Ok x.
Proof. intros H. unfold vec_get. by rewrite H. Qed.

Lemma vec_set_lt {A} (l : list A) i x :
  i < length l → vec_set l i x = Ok (<[i:=x]> l).
Proof. intros H. unfold vec_set. by rewrite decide_True. Qed.

Lemma imap_imap {A B C} (g : nat → B → C) (h : nat → A → B) (l : list A) :
  imap g (imap h l) = imap (λ i x, g i (h i x)) l.
Proof.
  apply list_eq. intros i. rewrite !list_lookup_imap.
  by destruct (l !! i).
Qed.

Lemma occurrenceCount_cons f fs i :
  occurrenceCount (f :: fs) i =
    ((if face_has f i then 1 else 0) + occurrenceCount fs i)%nat.
Proof.
  unfold occurrenceCount. rewrite filter_cons.
  destruct (face_has f i); by rewrite ?decide_True, ?decide_False by done.
Qed.

Lemma accumulate_step ov f (occ : list nat) (tmp : list point3d) :
  face_ok (length ov) f →
  length occ = length ov → length tmp = length ov →
  accumulate ov (occ, tmp) f =
    Ok (imap (λ i c, ((if face_has f i then 1 else 0) + c)%nat) occ,
        imap (λ i t, contribution ov f i t) tmp).
Proof.
  intros [(H1 & H2 & H3) (H12 & H23 & H31)] Hocc Htmp.
  unfold accumulate.
  destruct (lookup_lt_is_Some_2 ov (v1 f) H1) as [p1 Hp1].
  destruct (lookup_lt_is_Some_2 ov (v2 f) H2) as [p2 Hp2].
  destruct (lookup_lt_is_Some_2 ov (v3 f) H3) as [p3 Hp3].
  destruct (lookup_lt_is_Some_2 occ (v1 f)) as [n1 Hn1]; [lia|].
  destruct (lookup_lt_is_Some_2 occ (v2 f)) as [n2 Hn2]; [lia|].
  destruct (lookup_lt_is_Some_2 occ (v3 f)) as [n3 Hn3]; [lia|].
  destruct (lookup_lt_is_Some_2 tmp (v1 f)) as [t1 Ht1]; [lia|].
  destruct (lookup_lt_is_Some_2 tmp (v2 f)) as [t2 Ht2]; [lia|].
  destruct (lookup_lt_is_Some_2 tmp (v3 f)) as [t3 Ht3]; [lia|].
  rewrite (vec_get_Some _ _ _ Hp1), (vec_get_Some _ _ _ Hp2),
    (vec_get_Some _ _ _ Hp3).
  rewrite (vec_get_Some _ _ _ Hn1), (vec_get_Some _ _ _ Ht1). simpl.
  rewrite !vec_set_lt by lia. simpl.
  rewrite (vec_get_Some (<[v1 f:=_]> occ) _ n2)
    by (by rewrite list_lookup_insert_ne).
  rewrite (vec_get_Some (<[v1 f:=_]> tmp) _ t2)
    by (by rewrite list_lookup_insert_ne).
  simpl. rewrite !vec_set_lt by (rewrite !length_insert; lia). simpl.
  rewrite (vec_get_Some (<[v2 f:=_]> (<[v1 f:=_]> occ)) _ n3)
    by (by rewrite !list_lookup_insert_ne).
  rewrite (vec_get_Some (<[v2 f:=_]> (<[v1 f:=_]> tmp)) _ t3)
    by (by rewrite !list_lookup_insert_ne).
  simpl. rewrite !vec_set_lt by (rewrite !length_insert; lia). simpl.
  pose proof (list_lookup_total_correct _ _ _ Hp1) as E1.
  pose proof (list_lookup_total_correct _ _ _ Hp2) as E2.
  pose proof (list_lookup_total_correct _ _ _ Hp3) as E3.
  f_equal. f_equal.
  - apply list_eq. intros i. rewrite list_lookup_imap. unfold face_has.
    destruct (decide (i = v3 f)) as [->|N3].
    { rewrite list_lookup_insert_eq by (rewrite !length_insert; lia).
      rewrite Hn3, bool_decide_eq_true_2 by tauto. done. }
    rewrite list_lookup_insert_ne by done.
    destruct (decide (i = v2 f)) as [->|N2].
    { rewrite list_lookup_insert_eq by (rewrite !length_insert; lia).
      rewrite Hn2, bool_decide_eq_true_2 by tauto. done. }
    rewrite list_lookup_insert_ne by done.
    destruct (decide (i = v1 f)) as [->|N1].
    { rewrite list_lookup_insert_eq by lia.
      rewrite Hn1, bool_decide_eq_true_2 by tauto. done. }
    rewrite list_lookup_insert_ne by done.
    rewrite bool_decide_eq_false_2 by tauto. by destruct (occ !! i).
  - apply list_eq. intros i. rewrite list_lookup_imap. unfold contribution.
    rewrite E1, E2, E3.
    destruct (decide (i = v3 f)) as [->|N3].
    { rewrite list_lookup_insert_eq by (rewrite !length_insert; lia).
      rewrite Ht3. simpl. repeat case_decide; done. }
    rewrite list_lookup_insert_ne by done.
    destruct (decide (i = v2 f)) as [->|N2].
    { rewrite list_lookup_insert_eq by (rewrite !length_insert; lia).
      rewrite Ht2. simpl. repeat case_decide; done. }
    rewrite list_lookup_insert_ne by done.
    destruct (decide (i = v1 f)) as [->|N1].
    { rewrite list_lookup_insert_eq by lia. rewrite Ht1. simpl.
      repeat case_decide; done. }
    rewrite list_lookup_insert_ne by done.
    destruct (tmp !! i); simpl; [|done]. repeat case_decide; done.
Qed.

(** The second loop in closed form: the counters grow by the number of
    faces containing the vertex, the sums by their contributions. *)
Lemma accumulate_closed ov fs : ∀ (occ : list nat) (tmp : list point3d),
  Forall (face_ok (length ov)) fs →
  length occ = length ov → length tmp = length ov →
  for_each (accumulate ov) fs (occ, tmp) =
    Ok (imap (λ i c, (occurrenceCount fs i + c)%nat) occ,
        imap (λ i t, neighborSumFrom t ov fs i) tmp).
Proof.
  induction fs as [|f fs IH]; intros occ tmp Hok Hocc Htmp.
  - simpl. f_equal. f_equal.
    + apply list_eq. intros i. rewrite list_lookup_imap.
      by destruct (occ !! i).
    + apply list_eq. intros i. rewrite list_lookup_imap.
      by destruct (tmp !! i).
  - apply Forall_cons in Hok as [Hf Hok]. cbn [for_each].
    rewrite accumulate_step by done. simpl.
    rewrite IH by (by rewrite ?length_imap). rewrite !imap_imap.
    f_equal. f_equal. apply imap_ext. intros i c _.
    rewrite occurrenceCount_cons. lia.
Qed.

(** *** The repositioning loop *)

Lemma reposition_Ok ov (occ : list nat) (tmp : list point3d) dv i c p t :
  occ !! i = Some c → c ≠ 0 → ov !! i = Some p → tmp !! i = Some t →
  i < length dv →
  reposition ov occ tmp dv i = Ok (<[i:=newPosition p t c]> dv).
Proof.
  intros Hc Hnz Hp Ht Hi. unfold reposition.
  rewrite (vec_get_Some _ _ _ Hc). simpl. rewrite decide_False by done.
  rewrite (vec_get_Some _ _ _ Hp), (vec_get_Some _ _ _ Ht). simpl.
  by rewrite vec_set_lt.
Qed.

Lemma reposition_zero ov (occ : list nat) (tmp : list point3d) dv i :
  occ !! i = Some 0 → reposition ov occ tmp dv i = Err AssertionFailed.
Proof. intros Hc. unfold reposition. by rewrite (vec_get_Some _ _ _ Hc). Qed.

Lemma reposition_loop ov (occ : list nat) (tmp : list point3d) : ∀ m a dv,
  length occ = length ov → length tmp = length ov →
  length ov ≤ length dv → a + m ≤ length ov →
  (∀ i c, occ !! i = Some c → c ≠ 0) →
  ∃ dv', for_each (reposition ov occ tmp) (seq a m) dv = Ok dv' ∧
         length dv' = length dv ∧
         ∀ i, dv' !! i =
              if decide (a ≤ i < a + m)
              then Some (newPosition (ov !!! i) (tmp !!! i) (occ !!! i))
              else dv !! i.
Proof.
  induction m as [|m IH]; intros a dv Hocc Htmp Hdv Ham Hnz.
  - exists dv. split_and!; try done. intros i.
    by rewrite decide_False by lia.
  - cbn [seq for_each].
    destruct (lookup_lt_is_Some_2 occ a) as [c Hc]; [lia|].
    destruct (lookup_lt_is_Some_2 tmp a) as [t Ht]; [lia|].
    destruct (lookup_lt_is_Some_2 ov a) as [p Hp]; [lia|].
    rewrite (reposition_Ok _ _ _ _ _ c p t)
      by (first [done|by eapply Hnz|lia]).
    simpl.
    destruct (IH (S a) (<[a:=newPosition p t c]> dv)) as (dv' & Hrun & Hlen & Hlk);
      try done; [by rewrite length_insert|lia|].
    exists dv'. split; [exact Hrun|]. split; [by rewrite Hlen, length_insert|].
    intros i. rewrite Hlk.
    destruct (decide (i = a)) as [->|Hne].
    + rewrite decide_False, decide_True by lia.
      rewrite list_lookup_insert_eq by lia.
      by rewrite (list_lookup_total_correct _ _ _ Hc),
        (list_lookup_total_correct _ _ _ Ht),
        (list_lookup_total_correct _ _ _ Hp).
    + rewrite list_lookup_insert_ne by done.
      destruct (decide (S a ≤ i < S a + m));
        [by rewrite decide_True by lia|by rewrite decide_False by lia].
Qed.

(** A counter left at zero stops the loop at its assertion. *)
Lemma reposition_loop_assert ov (occ : list nat) (tmp : list point3d) :
  ∀ m a dv z,
  length occ = length ov → length tmp = length ov →
  length ov ≤ length dv → a + m ≤ length ov →
  a ≤ z < a + m → occ !! z = Some 0 →
  for_each (reposition ov occ tmp) (seq a m) dv = Err AssertionFailed.
Proof.
  induction m as [|m IH]; intros a dv z Hocc Htmp Hdv Ham Hz Hzero; [lia|].
  cbn [seq for_each].
  destruct (lookup_lt_is_Some_2 occ a) as [c Hc]; [lia|].
  destruct (lookup_lt_is_Some_2 tmp a) as [t Ht]; [lia|].
  destruct (lookup_lt_is_Some_2 ov a) as [p Hp]; [lia|].
  destruct (decide (c = 0)) as [->|Hc0]; [by rewrite reposition_zero|].
  rewrite (reposition_Ok _ _ _ _ _ c p t) by (first [done|lia]). simpl.
  apply (IH (S a) _ z); try done; [by rewrite length_insert|lia|].
  destruct (decide (z = a)) as [->|]; [congruence|lia].
Qed.

(** *** The normals loop *)

Lemma accumulateNormal_Ok dv (dn : list vec3d) f :
  face_in_range (length dv) f → length dn = length dv →
  ∃ dn', accumulateNormal dv dn f = Ok dn' ∧ length dn' = length dv.
Proof.
  intros (H1 & H2 & H3) Hlen. unfold accumulateNormal.
  destruct (vec_get_lt dv _ H1) as (p1 & _ & ->).
  destruct (vec_get_lt dv _ H2) as (p2 & _ & ->).
  destruct (vec_get_lt dv _ H3) as (p3 & _ & ->). simpl.
  destruct (vec_get_lt dn (v1 f)) as (n1 & _ & ->); [lia|]. simpl.
  rewrite vec_set_lt by lia. simpl.
  match goal with
  | |- context [vec_get ?l (v2 f)] =>
      destruct (vec_get_lt l (v2 f)) as (n2 & _ & ->);
        [rewrite !length_insert; lia|]
  end. simpl.
  rewrite vec_set_lt by (rewrite length_insert; lia). simpl.
  match goal with
  | |- context [vec_get ?l (v3 f)] =>
      destruct (vec_get_lt l (v3 f)) as (n3 & _ & ->);
        [rewrite !length_insert; lia|]
  end. simpl.
  rewrite vec_set_lt by (rewrite !length_insert; lia). simpl.
  eexists. split; [done|]. by rewrite !length_insert.
Qed.

Lemma accumulateNormal_loop dv (dm : list face) : ∀ (dn : list vec3d),
  Forall (face_in_range (length dv)) dm → length dn = length dv →
  ∃ dn', for_each (accumulateNormal dv) dm dn = Ok dn' ∧
         length dn' = length dv.
Proof.
  induction dm as [|f dm IH]; intros dn Hr Hlen; [by exists dn|].
  apply Forall_cons in Hr as [Hf Hr]. cbn [for_each].
  destruct (accumulateNormal_Ok dv dn f Hf Hlen) as (dn1 & -> & Hlen1).
  simpl. by apply IH.
Qed.

(** *** Where the registry sends the edges of the mesh *)

Lemma registry_index om n e :
  e ∈ meshEdges om →
  ∃ j e0, firsts ∅ (meshEdges om) !! j = Some e0 ∧ canon e0 = canon e ∧
          e0 ∈ meshEdges om ∧
          registry_after ∅ n (meshEdges om) !! canon e = Some (n + j)%nat.
Proof.
  intros He.
  destruct (registry_after_lookup (meshEdges om) ∅ n e He)
    as (j & e0 & H1 & H2 & H3 & H4).
  { rewrite dom_empty_L. apply not_elem_of_empty. }
  rewrite dom_empty_L in H1. by exists j, e0.
Qed.

Lemma childFaces_in_range n om (ps : list point3d) :
  Forall (face_in_range n) om →
  length ps = length (firsts ∅ (meshEdges om)) →
  Forall (face_in_range (n + length ps))
         (om ≫= childFaces (registry_after ∅ n (meshEdges om))).
Proof.
  intros Hr Hlen. rewrite Forall_forall. intros g Hg.
  apply list_elem_of_bind in Hg as (f & Hg & Hf).
  rewrite Forall_forall in Hr. destruct (Hr f Hf) as (H1 & H2 & H3).
  assert (∀ e, e ∈ edgesOf f →
               registry_after ∅ n (meshEdges om) !!! canon e < n + length ps)
    as Hidx.
  { intros e He.
    destruct (registry_index om n e) as (j & e0 & Hj & _ & _ & Hlk).
    { apply meshEdges_elem. eauto. }
    rewrite (lookup_total_correct _ _ _ Hlk).
    apply lookup_lt_Some in Hj. lia. }
  pose proof (Hidx (v1 f, v2 f)) as Ha.
  pose proof (Hidx (v2 f, v3 f)) as Hb.
  pose proof (Hidx (v3 f, v1 f)) as Hc.
  rewrite edgesOf_elem in Ha, Hb, Hc.
  specialize (Ha ltac:(tauto)). specialize (Hb ltac:(tauto)).
  specialize (Hc ltac:(tauto)).
  unfold childFaces in Hg. rewrite !elem_of_cons, elem_of_nil in Hg.
  unfold face_in_range.
  destruct Hg as [->|[->|[->|[->|[]]]]]; simpl; lia.
Qed.

(** *** The whole pass on a valid mesh *)

Lemma occurrenceCount_pos om i : referenced om i → occurrenceCount om i ≠ 0.
Proof.
  unfold referenced, occurrenceCount. rewrite Exists_exists.
  intros (f & Hf & Hi) Hlen. apply length_zero_iff_nil in Hlen.
  by apply (filter_nil_not_elem_of (λ f, face_has f i = true) _ f Hlen Hi).
Qed.

Lemma length_repositioned ov om : length (repositioned ov om) = length ov.
Proof. unfold repositioned. apply length_imap. Qed.

Lemma lookup_repositioned ov om i :
  i < length ov →
  repositioned ov om !! i =
    Some (newPosition (ov !!! i) (neighborSum ov om i) (occurrenceCount om i)).
Proof.
  intros Hi. unfold repositioned. rewrite list_lookup_imap.
  destruct (lookup_lt_is_Some_2 ov i Hi) as [p Hp].
  by rewrite Hp, (list_lookup_total_correct _ _ _ Hp).
Qed.

(** On a valid mesh the pass returns: the repositioned original vertices
    followed by the midpoints of the first occurrences of the edges, the
    children of every face in face order, and one normal per vertex. *)
Lemma loopSubdivision_valid ov om (out0 : outputs) :
  valid_mesh (length ov) om →
  ∃ ps dn,
    mapM (midpoint ov om) (firsts ∅ (meshEdges om)) = Ok ps ∧
    length dn = (length ov + length ps)%nat ∧
    loopSubdivision ov om out0 =
      Ok (Outputs (repositioned ov om ++ ps)
                  (om ≫= childFaces (finalRegistry ov om)) dn).
Proof.
  intros [Hw Href]. pose proof (well_formed_in_range _ _ Hw) as Hr.
  destruct (midpoints_valid ov om Hw) as [ps Hps].
  pose proof Hw as (Hok & _).
  assert (length ps = length (firsts ∅ (meshEdges om))) as Hlps.
  { apply mapM_Ok_Forall2, Forall2_length in Hps. done. }
  unfold loopSubdivision.
  rewrite subdivideFaces_closed, Hps by done. simpl.
  rewrite accumulate_closed by (by rewrite ?length_replicate). simpl.
  set (occ := imap _ (replicate (length ov) 0)).
  set (tmp := imap _ (replicate (length ov) point_zero)).
  assert (∀ i, i < length ov → occ !! i = Some (occurrenceCount om i)) as Hocc.
  { intros i Hi. unfold occ.
    rewrite list_lookup_imap, lookup_replicate_2 by done. simpl.
    by rewrite Nat.add_0_r. }
  assert (∀ i, i < length ov → tmp !! i = Some (neighborSum ov om i)) as Htmp.
  { intros i Hi. unfold tmp.
    by rewrite list_lookup_imap, lookup_replicate_2 by done. }
  destruct (reposition_loop ov occ tmp (length ov) 0 (ov ++ ps))
    as (dv & Hrun & Hlen & Hlk).
  { unfold occ. by rewrite length_imap, length_replicate. }
  { unfold tmp. by rewrite length_imap, length_replicate. }
  { rewrite length_app. lia. }
  { lia. }
  { intros i c Hc. assert (i < length ov) as Hi.
    { apply lookup_lt_Some in Hc. unfold occ in Hc.
      by rewrite length_imap, length_replicate in Hc. }
    rewrite Hocc in Hc by done. injection Hc as <-.
    apply occurrenceCount_pos. rewrite Forall_forall in Href.
    apply Href. apply elem_of_seq. lia. }
  rewrite Hrun. simpl.
  assert (dv = repositioned ov om ++ ps) as ->.
  { apply list_eq. intros i. rewrite Hlk.
    destruct (decide (0 ≤ i < 0 + length ov)) as [Hi|Hi].
    - rewrite lookup_app_l by (rewrite length_repositioned; lia).
      rewrite lookup_repositioned by lia.
      pose proof (Hocc i ltac:(lia)) as Hc. pose proof (Htmp i ltac:(lia)) as Ht.
      by rewrite (list_lookup_total_correct occ _ _ Hc),
        (list_lookup_total_correct tmp _ _ Ht).
    - rewrite !lookup_app_r by (rewrite ?length_repositioned; lia).
      by rewrite length_repositioned. }
  unfold assign, clear.
  destruct (accumulateNormal_loop (repositioned ov om ++ ps)
              (om ≫= childFaces (registry_after ∅ (length ov) (meshEdges om)))
              (replicate (length (repositioned ov om ++ ps)) vec_zero))
    as (dn & Hdn & Hldn).
  { rewrite length_app, length_repositioned.
    by apply childFaces_in_range. }
  { by rewrite length_replicate. }
  rewrite Hdn. simpl.
  exists ps, (normalize <$> dn). split; [done|]. split; [|done].
  by rewrite length_fmap, Hldn, length_app, length_repositioned.
Qed.

(** *** Facts that hold for every run *)

Lemma bind_Ok_inv {A B} (m : res A) (k : A → res B) b :
  m ≫= k = Ok b → ∃ a, m = Ok a ∧ k a = Ok b.
Proof. destruct m as [a|]; simpl; [eauto|done]. Qed.

Lemma bind_Err_inv {A B} (m : res A) (k : A → res B) x :
  m ≫= k = Err x → m = Err x ∨ ∃ a, m = Ok a ∧ k a = Err x.
Proof. destruct m as [a|]; simpl; [eauto|]. intros [= ->]. by left. Qed.

Lemma vec_get_Ok_inv {A} (l : list A) i x :
  vec_get l i = Ok x → l !! i = Some x ∧ i < length l.
Proof.
  unfold vec_get. destruct (l !! i) as [y|] eqn:Hy; [|done].
  intros [= ->]. split; [done|]. by eapply lookup_lt_Some.
Qed.

Lemma vec_set_Ok_inv {A} (l : list A) i x l' :
  vec_set l i x = Ok l' → l' = <[i:=x]> l ∧ i < length l.
Proof. unfold vec_set. case_decide; [|done]. by intros [= <-]. Qed.

Lemma vec_get_Err {A} (l : list A) i x : vec_get l i = Err x → x = OutOfRange.
Proof. unfold vec_get. destruct (l !! i); [done|]. by intros [= <-]. Qed.

Lemma vec_set_Err {A} (l : list A) i y x :
  vec_set l i y = Err x → x = OutOfRange.
Proof. unfold vec_set. case_decide; [done|]. by intros [= <-]. Qed.

Lemma for_each_app {A S} (body : S → A → res S) (l1 l2 : list A) (s : S) :
  for_each body (l1 ++ l2) s = (s ← for_each body l1 s; for_each body l2 s).
Proof.
  revert s. induction l1 as [|x l1 IH]; intros s; simpl; [done|].
  destruct (body s x); simpl; [apply IH|done].
Qed.

Lemma getNewVertex_prefix e V om R i V' (R' : EdgeList) :
  getNewVertex e V om R = Ok (i, V', R') → ∃ X, V' = V ++ X.
Proof.
  destruct (R !! canon e) as [j|] eqn:Hj.
  - rewrite (getNewVertex_registered _ _ _ _ _ Hj). intros [= <- <- <-].
    exists []. by rewrite app_nil_r.
  - rewrite (getNewVertex_fresh _ _ _ _ Hj).
    destruct (midpoint V om e) as [p|]; simpl; [|done].
    intros [= <- <- <-]. by exists [p].
Qed.

Lemma resolveEdges_prefix om es : ∀ V R V' (R' : EdgeList),
  resolveEdges om es V R = Ok (V', R') → ∃ X, V' = V ++ X.
Proof.
  induction es as [|e es IH]; intros V R V' R'; simpl.
  - intros [= <- <-]. exists []. by rewrite app_nil_r.
  - destruct (getNewVertex e V om R) as [[[i Vi] Ri]|] eqn:Hi; simpl; [|done].
    intros H. apply getNewVertex_prefix in Hi as [X ->].
    apply IH in H as [Y ->]. exists (X ++ Y). by rewrite (assoc_L (++)).
Qed.

Lemma resolveEdges_app om es1 es2 V R :
  resolveEdges om (es1 ++ es2) V R =
    ('(V1, R1) ← resolveEdges om es1 V R; resolveEdges om es2 V1 R1).
Proof.
  revert V R. induction es1 as [|e es1 IH]; intros V R; simpl; [done|].
  destruct (getNewVertex e V om R) as [[[i Vi] Ri]|]; simpl; [apply IH|done].
Qed.

(** The repositioning loop writes the entries it visits and nothing else. *)
Lemma reposition_frame ov (occ : list nat) (tmp : list point3d) :
  ∀ m a dv dv',
  for_each (reposition ov occ tmp) (seq a m) dv = Ok dv' →
  length dv' = length dv ∧ ∀ i, ¬ (a ≤ i < a + m) → dv' !! i = dv !! i.
Proof.
  induction m as [|m IH]; intros a dv dv'; cbn [seq for_each].
  - by intros [= <-].
  - intros (dv1 & H1 & H)%bind_Ok_inv. apply IH in H as [Hlen Hlk].
    unfold reposition in H1. apply bind_Ok_inv in H1 as (c & _ & H1).
    case_decide; [done|].
    apply bind_Ok_inv in H1 as (p & _ & H1).
    apply bind_Ok_inv in H1 as (t & _ & H1).
    apply vec_set_Ok_inv in H1 as [-> ?].
    rewrite length_insert in Hlen. split; [done|]. intros i Hi.
    rewrite Hlk by lia. apply list_lookup_insert_ne. lia.
Qed.

(** A face the accumulation loop gets past has its indices in range. *)
Lemma accumulate_Ok_inv ov (occ occ' : list nat) (tmp tmp' : list point3d) f :
  accumulate ov (occ, tmp) f = Ok (occ', tmp') →
  face_in_range (length occ) f ∧ length occ' = length occ.
Proof.
  unfold accumulate. intros H.
  apply bind_Ok_inv in H as (n1 & [_ Hv1]%vec_get_Ok_inv & H).
  apply bind_Ok_inv in H as (occ1 & [-> _]%vec_set_Ok_inv & H).
  apply bind_Ok_inv in H as (t1 & _ & H).
  apply bind_Ok_inv in H as (p2 & _ & H).
  apply bind_Ok_inv in H as (p3 & _ & H).
  apply bind_Ok_inv in H as (tmp1 & _ & H).
  apply bind_Ok_inv in H as (n2 & [_ Hv2]%vec_get_Ok_inv & H).
  apply bind_Ok_inv in H as (occ2 & [-> _]%vec_set_Ok_inv & H).
  apply bind_Ok_inv in H as (t2 & _ & H).
  apply bind_Ok_inv in H as (p1 & _ & H).
  apply bind_Ok_inv in H as (p3' & _ & H).
  apply bind_Ok_inv in H as (tmp2 & _ & H).
  apply bind_Ok_inv in H as (n3 & [_ Hv3]%vec_get_Ok_inv & H).
  apply bind_Ok_inv in H as (occ3 & [-> _]%vec_set_Ok_inv & H).
  apply bind_Ok_inv in H as (t3 & _ & H).
  apply bind_Ok_inv in H as (p1' & _ & H).
  apply bind_Ok_inv in H as (p2' & _ & H).
  apply bind_Ok_inv in H as (tmp3 & _ & H).
  injection H as <- <-. rewrite !length_insert in Hv2.
  rewrite !length_insert in Hv3.
  rewrite !length_insert. unfold face_in_range. by split_and!.
Qed.

Lemma accumulate_loop_Ok_inv ov fs :
  ∀ (occ occ' : list nat) (tmp tmp' : list point3d),
  for_each (accumulate ov) fs (occ, tmp) = Ok (occ', tmp') →
  Forall (face_in_range (length occ)) fs.
Proof.
  induction fs as [|f fs IH]; intros occ occ' tmp tmp'; cbn [for_each].
  - by constructor.
  - intros ([occ1 tmp1] & H1 & H)%bind_Ok_inv.
    apply accumulate_Ok_inv in H1 as [Hf Hlen].
    apply IH in H. rewrite Hlen in H. by constructor.
Qed.

Lemma accumulate_Err ov (st : list nat * list point3d) f x :
  accumulate ov st f = Err x → x = OutOfRange.
Proof.
  destruct st as [occ tmp]. unfold accumulate. intros H.
  repeat (apply bind_Err_inv in H as [H|(? & _ & H)];
          [by first [apply vec_get_Err in H|apply vec_set_Err in H]|]).
  done.
Qed.

Lemma accumulate_loop_Err ov fs : ∀ (st : list nat * list point3d) x,
  for_each (accumulate ov) fs st = Err x → x = OutOfRange.
Proof.
  induction fs as [|f fs IH]; intros st x; cbn [for_each]; [done|].
  intros [H|(st1 & _ & H)]%bind_Err_inv; [by eapply accumulate_Err|].
  by eapply IH.
Qed.

(** The first loop has no assertion and uses the registry as intended: a
    run of it is followed to its end, or up to an access out of range or to
    an edge that the finder does not cover. *)
Lemma getNewVertex_Err e V om R x :
  getNewVertex e V om R = Err x → x = OutOfRange ∨ x = MalformedMesh.
Proof.
  destruct (R !! canon e) as [j|] eqn:Hj.
  - by rewrite (getNewVertex_registered _ _ _ _ _ Hj).
  - rewrite (getNewVertex_fresh _ _ _ _ Hj).
    intros [H|(p & _ & H)]%bind_Err_inv; [|done].
    unfold midpoint in H.
    apply bind_Err_inv in H as [H|(b & _ & H)].
    + right. unfold isBoundaryEdge in H.
      destruct (incidentFaces e om) as [|f [|g [|]]];
        repeat case_match; congruence.
    + left. destruct b;
        repeat (apply bind_Err_inv in H as [H|(? & _ & H)];
                [by apply vec_get_Err in H|]); done.
Qed.

Lemma resolveEdges_Err om es : ∀ V R x,
  resolveEdges om es V R = Err x → x = OutOfRange ∨ x = MalformedMesh.
Proof.
  induction es as [|e es IH]; intros V R x; simpl; [done|].
  intros [H|([[i Vi] Ri] & _ & H)]%bind_Err_inv;
    [by eapply getNewVertex_Err|by eapply IH].
Qed.

Lemma subdivideFaces_Err ov om dv0 (dm0 : list face) x :
  subdivideFaces ov om dv0 dm0 = Err x → x = OutOfRange ∨ x = MalformedMesh.
Proof.
  unfold subdivideFaces. rewrite subdivideFaces_resolveEdges.
  intros [H|([V R] & _ & H)]%bind_Err_inv; [by eapply resolveEdges_Err|done].
Qed.

(** The stages of a run that returns. *)
Lemma loopSubdivision_Ok_inv ov om (out0 out : outputs) :
  loopSubdivision ov om out0 = Ok out →
  ∃ V1 R1 occ tmp,
    subdivideFaces ov om (destVert out0) (destMesh out0)
      = Ok (V1, destMesh out, R1) ∧
    for_each (accumulate ov) om
      (replicate (length ov) 0, replicate (length ov) point_zero)
      = Ok (occ, tmp) ∧
    for_each (reposition ov occ tmp) (seq 0 (length ov)) V1
      = Ok (destVert out) ∧
    length (destNorm out) = length (destVert out).
Proof.
  unfold loopSubdivision. intros H.
  apply bind_Ok_inv in H as ([[V1 M1] R1] & H1 & H).
  apply bind_Ok_inv in H as ([occ tmp] & H2 & H).
  apply bind_Ok_inv in H as (dv & H3 & H).
  apply bind_Ok_inv in H as (dn & H4 & H).
  injection H as <-. simpl. exists V1, R1, occ, tmp. split_and!; try done.
  rewrite length_fmap. clear -H4. unfold assign, clear in H4.
  assert (∀ (dm : list face) (d d' : list vec3d),
            for_each (accumulateNormal dv) dm d = Ok d' →
            length d' = length d) as Hlen.
  { induction dm as [|f dm IH]; intros d d'; cbn [for_each].
    - by intros [= <-].
    - intros (d1 & Hd1 & Hd)%bind_Ok_inv. apply IH in Hd. rewrite Hd.
      unfold accumulateNormal in Hd1.
      apply bind_Ok_inv in Hd1 as (p1 & _ & Hd1).
      apply bind_Ok_inv in Hd1 as (p2 & _ & Hd1).
      apply bind_Ok_inv in Hd1 as (p3 & _ & Hd1).
      apply bind_Ok_inv in Hd1 as (n1 & _ & Hd1).
      apply bind_Ok_inv in Hd1 as (d2 & [-> _]%vec_set_Ok_inv & Hd1).
      apply bind_Ok_inv in Hd1 as (n2 & _ & Hd1).
      apply bind_Ok_inv in Hd1 as (d3 & [-> _]%vec_set_Ok_inv & Hd1).
      apply bind_Ok_inv in Hd1 as (n3 & _ & Hd1).
      apply bind_Ok_inv in Hd1 as (d4 & [-> _]%vec_set_Ok_inv & Hd1).
      injection Hd1 as <-. by rewrite !length_insert. }
  apply Hlen in H4. by rewrite H4, length_replicate.
Qed.

Lemma loopSubdivision_Ok_in_range ov om (out0 out : outputs) :
  loopSubdivision ov om out0 = Ok out → Forall (face_in_range (length ov)) om.
Proof.
  intros (V1 & R1 & occ & tmp & _ & H & _)%loopSubdivision_Ok_inv.
  apply accumulate_loop_Ok_inv in H. by rewrite length_replicate in H.
Qed.

(** *** Helpers for the statements *)

Lemma length_firsts_distinct om :
  length (firsts ∅ (meshEdges om)) = size (distinctEdges om).
Proof.
  rewrite length_firsts. unfold distinctEdges. f_equal.
  apply set_eq. intros x. rewrite elem_of_difference, elem_of_empty. tauto.
Qed.

Lemma lookup_bind_chunk {A B} (g : A → list B) (c : nat) (l : list A) :
  (∀ x, length (g x) = c) →
  ∀ k x r, l !! k = Some x → r < c → (l ≫= g) !! (c * k + r)%nat = g x !! r.
Proof.
  intros Hg. induction l as [|y l IH]; intros k x r Hk Hr; [done|].
  rewrite bind_cons. destruct k as [|k]; simpl in Hk.
  - injection Hk as ->. rewrite lookup_app_l by (rewrite Hg; lia).
    f_equal. lia.
  - rewrite lookup_app_r by (rewrite Hg; lia). rewrite Hg.
    replace (c * S k + r - c)%nat with (c * k + r)%nat by lia.
    by apply IH.
Qed.

Lemma length_bind_chunk {A B} (g : A → list B) (c : nat) (l : list A) :
  (∀ x, length (g x) = c) → length (l ≫= g) = (c * length l)%nat.
Proof.
  intros Hg. induction l as [|y l IH]; [simpl; lia|].
  rewrite bind_cons, length_app, Hg, IH. simpl. lia.
Qed.

Lemma getIndex_finalRegistry ov om e :
  e ∈ meshEdges om →
  ∃ j e0, firsts ∅ (meshEdges om) !! j = Some e0 ∧
          (e0 = e ∨ e0 = (e.2, e.1)) ∧ e0 ∈ meshEdges om ∧
          finalRegistry ov om !! canon e = Some (length ov + j)%nat ∧
          getIndex (finalRegistry ov om) e = Ok (length ov + j)%nat.
Proof.
  intros He.
  destruct (registry_index om (length ov) e He) as (j & e0 & Hj & Hc & He0 & Hlk).
  exists j, e0. apply canon_eq in Hc. split_and!; try done.
  unfold getIndex, finalRegistry. by rewrite Hlk.
Qed.

(** The position of the midpoint of an edge of a valid mesh: the formula of
    [getNewVertex], read from the input positions, for the orientation in
    which the edge is first met. *)
Lemma midpoint_of_edge ov om (out0 : outputs) e :
  valid_mesh (length ov) om → e ∈ meshEdges om →
  ∃ out ps j e0 p,
    loopSubdivision ov om out0 = Ok out ∧
    subdivideFaces ov om (destVert out0) (destMesh out0)
      = Ok (ov ++ ps, destMesh out, finalRegistry ov om) ∧
    getIndex (finalRegistry ov om) e = Ok (length ov + j)%nat ∧
    (e0 = e ∨ e0 = (e.2, e.1)) ∧ e0 ∈ meshEdges om ∧
    midpoint ov om e0 = Ok p ∧
    destVert out !! (length ov + j)%nat = Some p.
Proof.
  intros Hv He.
  destruct (loopSubdivision_valid ov om out0 Hv) as (ps & dn & Hps & Hdn & Hrun).
  destruct (getIndex_finalRegistry ov om e He)
    as (j & e0 & Hj & Hor & He0 & _ & Hidx).
  pose proof Hps as HF%mapM_Ok_Forall2.
  destruct (Forall2_lookup_l _ _ _ _ _ HF Hj) as (p & Hp & Hmid).
  eexists _, ps, j, e0, p. split; [exact Hrun|]. simpl. split_and!; try done.
  - rewrite subdivideFaces_closed, Hps; [done|].
    apply well_formed_in_range, Hv.
  - rewrite lookup_app_r by (rewrite length_repositioned; lia).
    rewrite length_repositioned.
    by replace (length ov + j - length ov)%nat with j by lia.
Qed.

Lemma midpoint_boundary ov om e f :
  e.1 < length ov → e.2 < length ov →
  incidentFaces e om = [f] →
  midpoint ov om e = Ok ((ov !!! e.1 + ov !!! e.2) .* float_half).
Proof.
  intros H1 H2 Hinc. unfold midpoint, isBoundaryEdge. rewrite Hinc. simpl.
  destruct (vec_get_lt ov _ H1) as (p1 & Hl1 & ->).
  destruct (vec_get_lt ov _ H2) as (p2 & Hl2 & ->). simpl.
  by rewrite (list_lookup_total_correct _ _ _ Hl1),
    (list_lookup_total_correct _ _ _ Hl2).
Qed.

Lemma midpoint_interior ov om e f g oA oB :
  Forall (face_in_range (length ov)) om →
  e.1 < length ov → e.2 < length ov →
  incidentFaces e om = [f; g] →
  oppositeVertex f e = Some oA → oppositeVertex g e = Some oB →
  midpoint ov om e =
    Ok ((float_lit 3 / float_lit 8) *. (ov !!! e.1 + ov !!! e.2)
        + (float_lit 1 / float_lit 8) *. (ov !!! oA + ov !!! oB)).
Proof.
  intros Hr H1 H2 Hinc HA HB.
  assert (isBoundaryEdge e om = Ok (Interior oA oB)) as Hb.
  { unfold isBoundaryEdge. by rewrite Hinc, HA, HB. }
  destruct (isBoundaryEdge_interior _ _ _ _ _ Hr Hb)
    as (_ & _ & _ & _ & _ & HoA & HoB).
  unfold midpoint. rewrite Hb. simpl.
  destruct (vec_get_lt ov _ H1) as (p1 & Hl1 & ->).
  destruct (vec_get_lt ov _ H2) as (p2 & Hl2 & ->).
  destruct (vec_get_lt ov _ HoA) as (q1 & Hl3 & ->).
  destruct (vec_get_lt ov _ HoB) as (q2 & Hl4 & ->). simpl.
  by rewrite (list_lookup_total_correct _ _ _ Hl1),
    (list_lookup_total_correct _ _ _ Hl2),
    (list_lookup_total_correct _ _ _ Hl3),
    (list_lookup_total_correct _ _ _ Hl4).
Qed.

(** ** The claims *)

(** C1.  On a valid mesh every distinct undirected edge gets exactly one
    midpoint vertex.  Once [getNewVertex] has resolved an edge, resolving
    it again later (on a registry that has only grown), with its endpoints
    in either order, returns the registered index and leaves the vertex
    list and the registry as they are; and the pass returns a vertex list
    whose length is the number of input vertices plus the number of distinct
    edges of the faces. *)
Theorem one_midpoint_per_edge ov om (out0 : outputs) :
  valid_mesh (length ov) om →
  (∀ e V R i V' (R' : EdgeList),
      getNewVertex e V om R = Ok (i, V', R') →
      ∀ V2 (R2 : EdgeList), R' ⊆ R2 →
        getNewVertex e V2 om R2 = Ok (i, V2, R2) ∧
        getNewVertex (e.2, e.1) V2 om R2 = Ok (i, V2, R2)) ∧
  ∃ out, loopSubdivision ov om out0 = Ok out ∧
         length (destVert out) = (length ov + size (distinctEdges om))%nat.
Proof.
  intros Hv. split.
  - intros e V R i V' R' [Hi _]%getNewVertex_Ok V2 R2 Hsub.
    apply (lookup_weaken _ _ _ _ Hi) in Hsub. split.
    + by apply getNewVertex_registered.
    + apply getNewVertex_registered.
      by rewrite <- (canon_swap e.1 e.2), <- surjective_pairing.
  - destruct (loopSubdivision_valid ov om out0 Hv)
      as (ps & dn & Hps & Hdn & Hrun).
    eexists. split; [exact Hrun|]. simpl.
    rewrite length_app, length_repositioned. f_equal.
    apply mapM_Ok_Forall2, Forall2_length in Hps.
    by rewrite <- Hps, length_firsts_distinct.
Qed.

(** C2.  On a valid mesh the face at position [k], (v1, v2, v3), with
    a, b, c the indices the registry holds for the edges (v1,v2), (v2,v3)
    and (v3,v1), yields the output faces (v1,a,c), (a,b,c), (c,b,v3) and
    (a,v2,b) at positions 4k, 4k+1, 4k+2 and 4k+3; the output has four times
    as many faces as the input. *)
Theorem four_children_in_order ov om (out0 : outputs) :
  valid_mesh (length ov) om →
  ∃ out V R,
    loopSubdivision ov om out0 = Ok out ∧
    subdivideFaces ov om (destVert out0) (destMesh out0)
      = Ok (V, destMesh out, R) ∧
    length (destMesh out) = (4 * length om)%nat ∧
    ∀ k f, om !! k = Some f →
      ∃ a b c,
        getIndex R (v1 f, v2 f) = Ok a ∧
        getIndex R (v2 f, v3 f) = Ok b ∧
        getIndex R (v3 f, v1 f) = Ok c ∧
        destMesh out !! (4 * k)%nat = Some (Face (v1 f) a c) ∧
        destMesh out !! (4 * k + 1)%nat = Some (Face a b c) ∧
        destMesh out !! (4 * k + 2)%nat = Some (Face c b (v3 f)) ∧
        destMesh out !! (4 * k + 3)%nat = Some (Face a (v2 f) b).
Proof.
  intros Hv.
  destruct (loopSubdivision_valid ov om out0 Hv) as (ps & dn & Hps & Hdn & Hrun).
  eexists _, (ov ++ ps), (finalRegistry ov om).
  split; [exact Hrun|]. cbn [destMesh]. split_and!.
  - rewrite subdivideFaces_closed, Hps; [done|].
    apply well_formed_in_range, Hv.
  - by apply length_bind_chunk.
  - intros k f Hk.
    assert (∀ e, e ∈ edgesOf f →
              getIndex (finalRegistry ov om) e
              = Ok (finalRegistry ov om !!! canon e)) as Hidx.
    { intros e He.
      destruct (getIndex_finalRegistry ov om e) as (j & _ & _ & _ & _ & Hl & ->).
      { apply meshEdges_elem. exists f. split; [done|].
        by eapply list_elem_of_lookup_2. }
      by rewrite (lookup_total_correct _ _ _ Hl). }
    eexists _, _, _. split_and!.
    + apply Hidx, edgesOf_elem. tauto.
    + apply Hidx, edgesOf_elem. tauto.
    + apply Hidx, edgesOf_elem. tauto.
    + rewrite <- (Nat.add_0_r (4 * k)).
      by rewrite (lookup_bind_chunk (childFaces (finalRegistry ov om)) 4 om
                    (λ _, eq_refl) k f 0) by (done || lia).
    + by rewrite (lookup_bind_chunk (childFaces (finalRegistry ov om)) 4 om
                    (λ _, eq_refl) k f 1) by (done || lia).
    + by rewrite (lookup_bind_chunk (childFaces (finalRegistry ov om)) 4 om
                    (λ _, eq_refl) k f 2) by (done || lia).
    + by rewrite (lookup_bind_chunk (childFaces (finalRegistry ov om)) 4 om
                    (λ _, eq_refl) k f 3) by (done || lia).
Qed.

(** C3.  On a valid mesh, an edge (V_a, V_b) of a face that lies on
    exactly two faces [f] and [g] gets the midpoint
    3/8 * (V_a + V_b) + 1/8 * (oppA + oppB), where oppA and oppB are the
    input positions of the third vertices of [f] and [g] and (a, b) is the
    edge in the orientation in which the pass first meets it. *)
Theorem interior_edge_midpoint ov om (out0 : outputs) e f g :
  valid_mesh (length ov) om →
  e ∈ meshEdges om →
  incidentFaces e om = [f; g] →
  ∃ out V M R idx oA oB a b,
    loopSubdivision ov om out0 = Ok out ∧
    subdivideFaces ov om (destVert out0) (destMesh out0) = Ok (V, M, R) ∧
    getIndex R e = Ok idx ∧ length ov ≤ idx ∧
    oppositeVertex f e = Some oA ∧ oppositeVertex g e = Some oB ∧
    ((a, b) = e ∨ (b, a) = e) ∧
    destVert out !! idx =
      Some ((float_lit 3 / float_lit 8) *. (ov !!! a + ov !!! b)
            + (float_lit 1 / float_lit 8) *. (ov !!! oA + ov !!! oB)).
Proof.
  intros Hv He Hinc.
  destruct (midpoint_of_edge ov om out0 e Hv He)
    as (out & ps & j & e0 & p & Hrun & Hsub & Hidx & Hor & He0 & Hmid & Hp).
  destruct Hv as [Hw _]. pose proof (well_formed_in_range _ _ Hw) as Hr.
  destruct (isBoundaryEdge_valid _ _ _ Hw He)
    as [(f' & Hinc' & _)|(f' & g' & oA & oB & Hinc' & HA & HB & _)];
    [congruence|].
  rewrite Hinc in Hinc'. injection Hinc' as <- <-.
  pose proof (meshEdges_in_range _ _ Hr) as Her.
  rewrite Forall_forall in Her. destruct (Her e0 He0) as [H1 H2].
  exists out, (ov ++ ps), (destMesh out), (finalRegistry ov om),
    (length ov + j)%nat, oA, oB, e0.1, e0.2.
  split_and!; try done; [lia| |].
  - destruct Hor as [->| ->]; [left|right]; by destruct e.
  - rewrite (midpoint_interior ov om e0 f g oA oB) in Hmid; try done.
    + injection Hmid as <-. exact Hp.
    + destruct Hor as [->| ->]; [done|]. by rewrite incidentFaces_swap.
    + destruct Hor as [->| ->]; [done|]. by rewrite oppositeVertex_swap.
    + destruct Hor as [->| ->]; [done|]. by rewrite oppositeVertex_swap.
Qed.

(** C4.  On a valid mesh, an edge (V_a, V_b) of a face that lies on exactly
    one face gets the midpoint (V_a + V_b) * 0.5, the average of the input
    positions of its endpoints. *)
Theorem boundary_edge_midpoint ov om (out0 : outputs) e f :
  valid_mesh (length ov) om →
  e ∈ meshEdges om →
  incidentFaces e om = [f] →
  ∃ out V M R idx a b,
    loopSubdivision ov om out0 = Ok out ∧
    subdivideFaces ov om (destVert out0) (destMesh out0) = Ok (V, M, R) ∧
    getIndex R e = Ok idx ∧ length ov ≤ idx ∧
    ((a, b) = e ∨ (b, a) = e) ∧
    destVert out !! idx = Some ((ov !!! a + ov !!! b) .* float_half).
Proof.
  intros Hv He Hinc.
  destruct (midpoint_of_edge ov om out0 e Hv He)
    as (out & ps & j & e0 & p & Hrun & Hsub & Hidx & Hor & He0 & Hmid & Hp).
  destruct Hv as [Hw _]. pose proof (well_formed_in_range _ _ Hw) as Hr.
  pose proof (meshEdges_in_range _ _ Hr) as Her.
  rewrite Forall_forall in Her. destruct (Her e0 He0) as [H1 H2].
  exists out, (ov ++ ps), (destMesh out), (finalRegistry ov om),
    (length ov + j)%nat, e0.1, e0.2.
  split_and!; try done; [lia| |].
  - destruct Hor as [->| ->]; [left|right]; by destruct e.
  - rewrite (midpoint_boundary ov om e0 f) in Hmid; try done.
    + injection Hmid as <-. exact Hp.
    + destruct Hor as [->| ->]; [done|]. by rewrite incidentFaces_swap.
Qed.

(** C5.  On a valid mesh every original vertex [i] moves to
    5/8 * old_position[i] + sum_i * (3 / (16 * n)), where [n] is the number
    of faces containing [i] and [sum_i] adds, face after face, the input
    positions of the other two vertices of each face containing [i]; the
    same formula serves every original vertex, on the boundary or not. *)
Theorem original_vertex_update ov om (out0 : outputs) :
  valid_mesh (length ov) om →
  ∃ out,
    loopSubdivision ov om out0 = Ok out ∧
    ∀ i, i < length ov →
      destVert out !! i =
        Some ((float_lit 5 / float_lit 8) *. (ov !!! i)
              + neighborSum ov om i
                .* (float_lit 3
                    / (float_lit 16 * float_of_size (occurrenceCount om i)))).
Proof.
  intros Hv.
  destruct (loopSubdivision_valid ov om out0 Hv) as (ps & dn & Hps & Hdn & Hrun).
  eexists. split; [exact Hrun|]. intros i Hi. cbn [destVert].
  rewrite lookup_app_l by (by rewrite length_repositioned).
  by rewrite lookup_repositioned.
Qed.

Lemma occurrenceCount_zero om i : ¬ referenced om i → occurrenceCount om i = 0.
Proof.
  intros Hn. unfold occurrenceCount.
  destruct (filter _ om) as [|f l] eqn:Hf; [done|]. exfalso. apply Hn.
  assert (f ∈ filter (λ f, face_has f i = true) om) as Hin
    by (rewrite Hf; by left).
  apply (list_elem_of_filter (λ f, face_has f i = true)) in Hin as [? ?].
  unfold referenced. apply Exists_exists. eauto.
Qed.

(** A vertex that no face mentions stops the pass at its assertion, after
    the first loop has run to its end. *)
Lemma loopSubdivision_unreferenced ov om (out0 : outputs) i :
  well_formed (length ov) om → i < length ov → ¬ referenced om i →
  (∃ V M R, subdivideFaces ov om (destVert out0) (destMesh out0)
              = Ok (V, M, R) ∧ length M = (4 * length om)%nat) ∧
  loopSubdivision ov om out0 = Err AssertionFailed.
Proof.
  intros Hw Hi Hn. pose proof (well_formed_in_range _ _ Hw) as Hr.
  destruct (midpoints_valid ov om Hw) as [ps Hps].
  pose proof Hw as (Hok & _).
  assert (subdivideFaces ov om (destVert out0) (destMesh out0)
          = Ok (ov ++ ps, om ≫= childFaces (finalRegistry ov om),
                finalRegistry ov om)) as Hsub.
  { by rewrite subdivideFaces_closed, Hps. }
  split.
  { eexists _, _, _. split; [exact Hsub|]. by apply length_bind_chunk. }
  unfold loopSubdivision. rewrite Hsub. simpl.
  rewrite accumulate_closed by (by rewrite ?length_replicate). simpl.
  rewrite (reposition_loop_assert _ _ _ (length ov) 0 _ i); try done.
  - by rewrite length_imap, length_replicate.
  - by rewrite length_imap, length_replicate.
  - rewrite length_app. lia.
  - lia.
  - rewrite list_lookup_imap, lookup_replicate_2 by done. simpl.
    by rewrite occurrenceCount_zero.
Qed.

(** The first loop has no check of its own: whenever it runs to its end,
    whatever the indices in the faces, it has kept the original vertices in
    front and has emitted the four children of every face. *)
Lemma subdivideFaces_Ok_children ov om dv0 (dm0 : list face) V M R :
  subdivideFaces ov om dv0 dm0 = Ok (V, M, R) →
  (∃ ps, V = ov ++ ps) ∧ M = om ≫= childFaces R ∧
  length M = (4 * length om)%nat.
Proof.
  unfold subdivideFaces, assign, clear. rewrite subdivideFaces_resolveEdges.
  intros ([V' R'] & H & [= <- <- <-])%bind_Ok_inv.
  split; [by eapply resolveEdges_prefix|]. split; [done|].
  by apply length_bind_chunk.
Qed.

(** C7, as the code has it.  On a valid mesh the pass returns a mesh.  Its
    one check is [assert( occurrences[i] != 0 )]: a vertex that occurs in
    no face of an otherwise well-formed mesh makes the pass fail there, but
    not before output is produced, since the assertion is reached after the
    first loop has put the midpoints into [destVert] and the child faces
    into [destMesh].  The first loop checks nothing: whenever its accesses
    are in bounds it runs to its end and emits four children for every
    face, whatever the indices of the face are. *)
Theorem failure_modes ov om (out0 : outputs) :
  (valid_mesh (length ov) om → ∃ out, loopSubdivision ov om out0 = Ok out) ∧
  (well_formed (length ov) om →
   (∃ i, i < length ov ∧ ¬ referenced om i) →
   (∃ V M R, subdivideFaces ov om (destVert out0) (destMesh out0)
               = Ok (V, M, R) ∧ length M = (4 * length om)%nat) ∧
   loopSubdivision ov om out0 = Err AssertionFailed) ∧
  (∀ V M R,
     subdivideFaces ov om (destVert out0) (destMesh out0) = Ok (V, M, R) →
     (∃ ps, V = ov ++ ps) ∧ M = om ≫= childFaces R ∧
     length M = (4 * length om)%nat).
Proof.
  split_and!.
  - intros Hv.
    destruct (loopSubdivision_valid ov om out0 Hv) as (ps & dn & _ & _ & Hrun).
    eauto.
  - intros Hw (i & Hi & Hn). by apply (loopSubdivision_unreferenced _ _ _ i).
  - intros V M R. apply subdivideFaces_Ok_children.
Qed.

(** *** The call through its references *)

(** With [destMesh] another vector than [origMesh] and [destVert] another
    vector than [origVert], each step of the call is the step of the pass
    on the contents of the vectors, stored back at [destVert] and
    [destMesh]. *)
Lemma getNewVertex_at_separate e rm wv wm m V (M : list face) R :
  wm ≠ rm →
  getNewVertex_at e wv rm R (set_meshes (set_points m wv V) wm M)
  = ('(i, V', R') ← getNewVertex e V (meshes m !!! rm) R;
     Ok (i, set_meshes (set_points m wv V') wm M, R')).
Proof.
  intros Hm. unfold getNewVertex_at. cbn [points meshes set_meshes set_points].
  rewrite lookup_total_insert_eq, lookup_total_insert_ne by done.
  destruct (getNewVertex e V (meshes m !!! rm) R) as [[[i V'] R']|]; [|done].
  cbn. unfold set_points, set_meshes. cbn. by rewrite insert_insert_eq.
Qed.

Lemma subdivideFace_at_step rm wv wm m f V (M : list face) R :
  wm ≠ rm →
  subdivideFace_at rm wv wm (set_meshes (set_points m wv V) wm M, R) f
  = ('(V', M', R') ← subdivideFace (meshes m !!! rm) (V, M, R) f;
     Ok (set_meshes (set_points m wv V') wm M', R')).
Proof.
  intros Hm. unfold subdivideFace_at, subdivideFace. cbv beta iota zeta.
  rewrite getNewVertex_at_separate by done.
  destruct (getNewVertex (v1 f, v2 f) V _ R) as [[[a Va] Ra]|]; [|done].
  cbn [mbind res_bind]. rewrite getNewVertex_at_separate by done.
  destruct (getNewVertex (v2 f, v3 f) Va _ Ra) as [[[b Vb] Rb]|]; [|done].
  cbn [mbind res_bind]. rewrite getNewVertex_at_separate by done.
  destruct (getNewVertex (v3 f, v1 f) Vb _ Rb) as [[[c Vc] Rc]|]; [|done].
  cbn [mbind res_bind]. unfold set_meshes, set_points. cbn.
  by rewrite lookup_total_insert_eq, insert_insert_eq.
Qed.

Lemma subdivideFace_at_separate rm wv wm m (fs : list face) :
  wm ≠ rm → ∀ V M R,
  for_each (subdivideFace_at rm wv wm) fs
           (set_meshes (set_points m wv V) wm M, R)
  = ('(V', M', R') ← for_each (subdivideFace (meshes m !!! rm)) fs (V, M, R);
     Ok (set_meshes (set_points m wv V') wm M', R')).
Proof.
  intros Hm. induction fs as [|f fs IH]; intros V M R; [done|].
  cbn [for_each]. rewrite subdivideFace_at_step by done.
  destruct (subdivideFace (meshes m !!! rm) (V, M, R) f)
    as [[[V' M'] R']|]; [|done].
  cbn [mbind res_bind]. apply IH.
Qed.

Lemma reposition_at_step rv wv m occ (tmp : list point3d) V i :
  wv ≠ rv →
  reposition_at rv wv occ tmp (set_points m wv V) i
  = (V' ← reposition (points m !!! rv) occ tmp V i; Ok (set_points m wv V')).
Proof.
  intros Hv. unfold reposition_at. cbn [points set_points].
  rewrite lookup_total_insert_eq, lookup_total_insert_ne by done.
  destruct (reposition (points m !!! rv) occ tmp V i) as [V'|]; [|done].
  cbn [mbind res_bind]. unfold set_points. cbn. by rewrite insert_insert_eq.
Qed.

Lemma reposition_at_separate rv wv m occ (tmp : list point3d) l :
  wv ≠ rv → ∀ V,
  for_each (reposition_at rv wv occ tmp) l (set_points m wv V)
  = (V' ← for_each (reposition (points m !!! rv) occ tmp) l V;
     Ok (set_points m wv V')).
Proof.
  intros Hv. induction l as [|i l IH]; intros V; [done|].
  cbn [for_each]. rewrite reposition_at_step by done.
  destruct (reposition (points m !!! rv) occ tmp V i) as [V'|]; [|done].
  cbn [mbind res_bind]. apply IH.
Qed.

(** The call on outputs that are not the inputs is the pass on the contents
    of the two inputs, stored in the three outputs; the rest of the memory
    is as before. *)
Lemma loopSubdivision_at_separate rv rm wv wm wn m (out0 : outputs) :
  wv ≠ rv → wm ≠ rm →
  loopSubdivision_at rv rm wv wm wn m
  = (out ← loopSubdivision (points m !!! rv) (meshes m !!! rm) out0;
     Ok (Memory (<[wv:=destVert out]> (points m))
                (<[wm:=destMesh out]> (meshes m))
                (<[wn:=destNorm out]> (normals m)))).
Proof.
  intros Hv Hm. unfold loopSubdivision_at, loopSubdivision, subdivideFaces.
  unfold assign, clear. cbv zeta.
  cbn [meshes set_meshes set_points].
  rewrite (lookup_total_insert_ne (meshes m)) by done.
  rewrite subdivideFace_at_separate by done.
  destruct (for_each (subdivideFace (meshes m !!! rm)) (meshes m !!! rm) _)
    as [[[V1 M1] R1]|]; [|done].
  cbn [mbind res_bind points meshes set_meshes set_points].
  rewrite (lookup_total_insert_ne (points m)),
    (lookup_total_insert_ne (meshes m)) by done.
  destruct (for_each (accumulate (points m !!! rv)) (meshes m !!! rm) _)
    as [[occ tmp]|]; [|done].
  cbn [mbind res_bind].
  change (set_meshes (set_points m wv V1) wm M1)
    with (set_points (set_meshes m wm M1) wv V1).
  rewrite reposition_at_separate by done.
  cbn [points meshes set_meshes].
  destruct (for_each (reposition (points m !!! rv) occ tmp) _ V1)
    as [V2|]; [|done].
  cbn [mbind res_bind points meshes normals set_normals set_points set_meshes].
  rewrite !lookup_total_insert_eq.
  destruct (for_each (accumulateNormal V2) M1 _) as [dn|]; [|done].
  cbn [mbind res_bind destVert destMesh destNorm].
  unfold set_normals, set_points, set_meshes. cbn.
  by rewrite !insert_insert_eq.
Qed.

(** C8, as the code has it.  When the vectors given for [destVert] and
    [destMesh] are not the input vectors, the call on a valid input returns
    and is the pass on the contents of [origVert] and [origMesh]: it stores
    into [destVert], [destMesh] and [destNorm] what the pass computes from
    these contents, it leaves every other vector of the memory as it was,
    the two inputs included, and any other call whose inputs have the same
    contents, made on any memory and any vectors, stores the same three
    outputs. *)
Theorem separate_outputs_function rv rm wv wm wn m :
  valid_mesh (length (points m !!! rv)) (meshes m !!! rm) →
  wv ≠ rv → wm ≠ rm →
  ∃ out m',
    loopSubdivision (points m !!! rv) (meshes m !!! rm)
      (Outputs (points m !!! wv) (meshes m !!! wm) (normals m !!! wn))
    = Ok out ∧
    loopSubdivision_at rv rm wv wm wn m = Ok m' ∧
    points m' !!! wv = destVert out ∧
    meshes m' !!! wm = destMesh out ∧
    normals m' !!! wn = destNorm out ∧
    (∀ l, l ≠ wv → points m' !! l = points m !! l) ∧
    (∀ l, l ≠ wm → meshes m' !! l = meshes m !! l) ∧
    (∀ l, l ≠ wn → normals m' !! l = normals m !! l) ∧
    ∀ rv2 rm2 wv2 wm2 wn2 m2,
      points m2 !!! rv2 = points m !!! rv →
      meshes m2 !!! rm2 = meshes m !!! rm →
      wv2 ≠ rv2 → wm2 ≠ rm2 →
      ∃ m2',
        loopSubdivision_at rv2 rm2 wv2 wm2 wn2 m2 = Ok m2' ∧
        points m2' !!! wv2 = points m' !!! wv ∧
        meshes m2' !!! wm2 = meshes m' !!! wm ∧
        normals m2' !!! wn2 = normals m' !!! wn.
Proof.
  intros Hvalid Hv Hm.
  set (out0 := Outputs (points m !!! wv) (meshes m !!! wm) (normals m !!! wn)).
  destruct (loopSubdivision_valid _ _ out0 Hvalid) as (ps & dn & _ & _ & Hrun).
  eexists _, _. split; [exact Hrun|].
  rewrite (loopSubdivision_at_separate rv rm wv wm wn m out0), Hrun by done.
  cbn [mbind res_bind points meshes normals destVert destMesh destNorm].
  split; [done|]. cbn [points meshes normals].
  rewrite !lookup_total_insert_eq.
  split; [done|]. split; [done|]. split; [done|].
  split; [intros l Hl; by rewrite lookup_insert_ne|].
  split; [intros l Hl; by rewrite lookup_insert_ne|].
  split; [intros l Hl; by rewrite lookup_insert_ne|].
  intros rv2 rm2 wv2 wm2 wn2 m2 Hpts Hfs Hv2 Hm2.
  rewrite (loopSubdivision_at_separate rv2 rm2 wv2 wm2 wn2 m2 out0) by done.
  rewrite Hpts, Hfs, Hrun.
  cbn [mbind res_bind points meshes normals destVert destMesh destNorm].
  eexists. split; [done|]. cbn [points meshes normals].
  by rewrite !lookup_total_insert_eq.
Qed.

(** Every output normal is [normalize] of an accumulated vector, and there
    is one per output vertex. *)
Lemma normals_shape ov om (out0 out : outputs) :
  loopSubdivision ov om out0 = Ok out →
  length (destNorm out) = length (destVert out) ∧
  ∃ acc, length acc = length (destVert out) ∧
         destNorm out = normalize <$> acc.
Proof.
  intros H. pose proof H as (_ & _ & _ & _ & _ & _ & _ & Hlen)%loopSubdivision_Ok_inv.
  split; [done|]. unfold loopSubdivision in H.
  apply bind_Ok_inv in H as ([[V1 M1] R1] & _ & H).
  apply bind_Ok_inv in H as ([occ tmp] & _ & H).
  apply bind_Ok_inv in H as (dv & _ & H).
  apply bind_Ok_inv in H as (dn & _ & H).
  injection H as <-. simpl in Hlen. simpl. exists dn. split; [|done].
  by rewrite length_fmap in Hlen.
Qed.

Lemma subdivideFaces_Ok_resolve ov om dv0 (dm0 : list face) V1 M1 R1 :
  subdivideFaces ov om dv0 dm0 = Ok (V1, M1, R1) →
  resolveEdges om (meshEdges om) ov ∅ = Ok (V1, R1).
Proof.
  unfold subdivideFaces, assign. rewrite subdivideFaces_resolveEdges.
  intros ([V R] & H & [= <- _ <-])%bind_Ok_inv. done.
Qed.

(** The output vertices past the original ones are those the first loop
    left. *)
Lemma loopSubdivision_frame ov om (out0 out : outputs) :
  loopSubdivision ov om out0 = Ok out →
  ∃ V1 M1 R1,
    subdivideFaces ov om (destVert out0) (destMesh out0) = Ok (V1, M1, R1) ∧
    length (destVert out) = length V1 ∧
    ∀ k, length ov ≤ k → destVert out !! k = V1 !! k.
Proof.
  intros (V1 & R1 & occ & tmp & Hsub & _ & Hrep & _)%loopSubdivision_Ok_inv.
  apply reposition_frame in Hrep as [Hlen Hframe].
  exists V1, (destMesh out), R1. split_and!; try done.
  intros k Hk. apply Hframe. lia.
Qed.

(** C9.  The repositioning loop writes the first [length origVert] entries
    of the output vertices only.  Whatever stands at an index at or past
    [length origVert] in the vertex list at any moment of the first loop,
    the moment of its creation included, stands there in the output. *)
Theorem midpoints_kept ov om (out0 out : outputs) :
  loopSubdivision ov om out0 = Ok out →
  (∃ V1 M1 R1,
      subdivideFaces ov om (destVert out0) (destMesh out0) = Ok (V1, M1, R1) ∧
      length (destVert out) = length V1 ∧
      ∀ k, length ov ≤ k → destVert out !! k = V1 !! k) ∧
  (∀ es1 es2 V R,
      meshEdges om = es1 ++ es2 →
      resolveEdges om es1 ov ∅ = Ok (V, R) →
      ∀ k, length ov ≤ k → k < length V → destVert out !! k = V !! k).
Proof.
  intros Hrun.
  destruct (loopSubdivision_frame _ _ _ _ Hrun)
    as (V1 & M1 & R1 & Hsub & Hlen & Hk).
  split; [by eexists _, _, _|].
  intros es1 es2 V R Hsplit Hres k Hk1 Hk2.
  apply subdivideFaces_Ok_resolve in Hsub.
  rewrite Hsplit, resolveEdges_app, Hres in Hsub. simpl in Hsub.
  apply resolveEdges_prefix in Hsub as [X ->].
  rewrite Hk by done. by apply lookup_app_l.
Qed.

(** C10.  In a pass that returns, each time [getNewVertex] makes a new
    vertex the positions it reads, at the endpoints of the edge and at the
    opposite vertices, are the input positions, and the vertex it appends
    is its formula evaluated on the input positions; every output vertex at
    or past [length origVert] is such a value. *)
Theorem midpoints_from_input ov om (out0 out : outputs) :
  loopSubdivision ov om out0 = Ok out →
  (∀ es1 e es2 V R,
      meshEdges om = es1 ++ e :: es2 →
      resolveEdges om es1 ov ∅ = Ok (V, R) →
      V !! e.1 = ov !! e.1 ∧ V !! e.2 = ov !! e.2 ∧
      (∀ o1 o2, isBoundaryEdge e om = Ok (Interior o1 o2) →
                V !! o1 = ov !! o1 ∧ V !! o2 = ov !! o2) ∧
      (contains R e = false →
       ∃ p, midpoint ov om e = Ok p ∧
            getNewVertex e V om R
            = Ok (length V, V ++ [p], <[canon e := length V]> R))) ∧
  (∀ k, length ov ≤ k → k < length (destVert out) →
        ∃ e p, e ∈ meshEdges om ∧ midpoint ov om e = Ok p ∧
               destVert out !! k = Some p).
Proof.
  intros Hrun. pose proof (loopSubdivision_Ok_in_range _ _ _ _ Hrun) as Hr.
  pose proof (meshEdges_in_range _ _ Hr) as Her.
  destruct (loopSubdivision_frame _ _ _ _ Hrun)
    as (V1 & M1 & R1 & Hsub & Hlen & Hkeep).
  split.
  - intros es1 e es2 V R Hsplit Hres.
    pose proof (subdivideFaces_Ok_resolve _ _ _ _ _ _ _ Hsub) as Hall.
    rewrite Hsplit, resolveEdges_app, Hres in Hall. simpl in Hall.
    apply bind_Ok_inv in Hall as ([[i Vi] Ri] & Hstep & _).
    destruct (resolveEdges_prefix _ _ _ _ _ _ Hres) as [X ->].
    rewrite Forall_forall in Her. destruct (Her e) as [H1 H2].
    { rewrite Hsplit. apply elem_of_app. right. by left. }
    split_and!.
    + by apply lookup_app_l.
    + by apply lookup_app_l.
    + intros o1 o2 Hb.
      destruct (isBoundaryEdge_interior _ _ _ _ _ Hr Hb)
        as (_ & _ & _ & _ & _ & ? & ?).
      split; by apply lookup_app_l.
    + intros Hc.
      assert (R !! canon e = None) as Hnone.
      { unfold contains in Hc. apply bool_decide_eq_false in Hc.
        by apply eq_None_not_Some. }
      rewrite (getNewVertex_fresh _ _ _ _ Hnone), midpoint_app in Hstep
        by done.
      rewrite (getNewVertex_fresh _ _ _ _ Hnone), midpoint_app by done.
      destruct (midpoint ov om e) as [p|]; [|done]. by exists p.
  - intros k Hk1 Hk2.
    rewrite subdivideFaces_closed in Hsub by done.
    apply bind_Ok_inv in Hsub as (ps & Hps & [= <- _ _]).
    rewrite Hkeep by done. rewrite Hlen, length_app in Hk2.
    destruct (lookup_lt_is_Some_2 ps (k - length ov)) as [p Hp]; [lia|].
    apply mapM_Ok_Forall2 in Hps.
    destruct (Forall2_lookup_r _ _ _ _ _ Hps Hp) as (e & He & Hmid).
    exists e, p. split_and!; [|done|].
    + apply list_elem_of_lookup_2 in He. by apply firsts_elem in He as [? _].
    + by rewrite lookup_app_r.
Qed.

End Properties.

(** ** Further properties of the pass *)

Section Further.
Context `{G : Geometry}.
Local Open Scope geo_scope.

#[local] Existing Instance point3d_inhabited.

Implicit Types (ov V X : list point3d) (om fs : list face) (R : EdgeList).
Implicit Types (e : edge) (es : list edge) (f : face) (i j k n : nat).

(** *** The shape of a run that returns *)

Lemma run_Ok_shape ov om (out0 out : outputs) :
  loopSubdivision ov om out0 = Ok out →
  ∃ ps,
    mapM (midpoint ov om) (firsts ∅ (meshEdges om)) = Ok ps ∧
    length ps = length (firsts ∅ (meshEdges om)) ∧
    subdivideFaces ov om (destVert out0) (destMesh out0)
      = Ok (ov ++ ps, destMesh out, finalRegistry ov om) ∧
    destMesh out = om ≫= childFaces (finalRegistry ov om) ∧
    length (destVert out) = (length ov + length ps)%nat ∧
    ∀ k, length ov ≤ k → destVert out !! k = (ov ++ ps) !! k.
Proof.
  intros Hrun. pose proof (loopSubdivision_Ok_in_range _ _ _ _ Hrun) as Hr.
  destruct (loopSubdivision_frame _ _ _ _ Hrun)
    as (V1 & M1 & R1 & Hsub & Hlen & Hk).
  apply loopSubdivision_Ok_inv in Hrun as (V1' & R1' & _ & _ & Hsub' & _).
  rewrite Hsub in Hsub'. injection Hsub' as <- -> <-.
  pose proof Hsub as Hc. rewrite subdivideFaces_closed in Hc by done.
  apply bind_Ok_inv in Hc as (ps & Hps & [= <- HM <-]).
  exists ps. split_and!; try done.
  - apply mapM_Ok_Forall2, Forall2_length in Hps. done.
  - by rewrite Hlen, length_app.
Qed.

Lemma firsts_NoDup (seen : gset (idxtype * idxtype)) es :
  NoDup (canon <$> firsts seen es).
Proof.
  revert seen. induction es as [|e es IH]; intros seen; simpl.
  - constructor.
  - destruct (decide (canon e ∈ seen)); [apply IH|].
    rewrite fmap_cons. constructor; [|apply IH].
    intros (e' & Heq & [_ Hn]%firsts_elem)%list_elem_of_fmap.
    apply Hn. rewrite <- Heq. apply elem_of_union. left.
    by apply elem_of_singleton.
Qed.

(** The index the registry holds for the [j]-th first occurrence. *)
Lemma finalRegistry_firsts ov om j e0 :
  firsts ∅ (meshEdges om) !! j = Some e0 →
  e0 ∈ meshEdges om ∧
  finalRegistry ov om !! canon e0 = Some (length ov + j)%nat.
Proof.
  intros Hj.
  assert (e0 ∈ meshEdges om) as He0.
  { apply list_elem_of_lookup_2 in Hj. by apply firsts_elem in Hj as [? _]. }
  split; [done|].
  destruct (getIndex_finalRegistry ov om e0 He0)
    as (j' & e1 & Hj' & Hor & _ & Hlk & _).
  assert (canon e1 = canon e0) as Hc by (by apply canon_eq).
  assert (j' = j) as ->; [|done].
  eapply (NoDup_lookup (canon <$> firsts ∅ (meshEdges om))).
  - apply firsts_NoDup.
  - by rewrite list_lookup_fmap, Hj'.
  - by rewrite list_lookup_fmap, Hj, Hc.
Qed.

Lemma finalRegistry_inj ov om e e' i :
  e ∈ meshEdges om → e' ∈ meshEdges om →
  finalRegistry ov om !! canon e = Some i →
  finalRegistry ov om !! canon e' = Some i →
  canon e = canon e'.
Proof.
  intros He He' Hi Hi'.
  destruct (getIndex_finalRegistry ov om e He)
    as (j & e0 & Hj & Hor & _ & Hlk & _).
  destruct (getIndex_finalRegistry ov om e' He')
    as (j' & e0' & Hj' & Hor' & _ & Hlk' & _).
  rewrite Hlk in Hi. rewrite Hlk' in Hi'.
  injection Hi as Hi. injection Hi' as Hi'.
  assert (j = j') as <- by lia.
  assert (e0 = e0') as <- by congruence.
  apply canon_eq in Hor, Hor'. congruence.
Qed.

Lemma finalRegistry_dom ov om key i :
  finalRegistry ov om !! key = Some i →
  ∃ e, e ∈ meshEdges om ∧ key = canon e.
Proof.
  intros Hi. assert (key ∈ dom (finalRegistry ov om)) as Hd
    by (apply elem_of_dom; eauto).
  unfold finalRegistry in Hd. rewrite registry_after_dom, dom_empty_L in Hd.
  apply elem_of_union in Hd as [Hd|Hd]; [by apply elem_of_empty in Hd|].
  apply elem_of_list_to_set, list_elem_of_fmap in Hd as (e & -> & He). eauto.
Qed.

Lemma canon_eq_pair (x y z w : idxtype) :
  canon (x, y) = canon (z, w) ↔ (x = z ∧ y = w) ∨ (x = w ∧ y = z).
Proof.
  rewrite (canon_eq (z, w) (x, y)). simpl. split.
  - intros [[= -> ->]|[= -> ->]]; tauto.
  - intros [[-> ->]|[-> ->]]; tauto.
Qed.

Lemma finalRegistry_total ov om e :
  e ∈ meshEdges om →
  finalRegistry ov om !! canon e = Some (finalRegistry ov om !!! canon e) ∧
  length ov ≤ finalRegistry ov om !!! canon e
    < length ov + length (firsts ∅ (meshEdges om)).
Proof.
  intros He.
  destruct (getIndex_finalRegistry ov om e He)
    as (j & e0 & Hj & _ & _ & Hlk & _).
  rewrite (lookup_total_correct _ _ _ Hlk). split; [done|].
  apply lookup_lt_Some in Hj. lia.
Qed.

Lemma finalRegistry_total_inj ov om e e' :
  e ∈ meshEdges om → e' ∈ meshEdges om →
  finalRegistry ov om !!! canon e = finalRegistry ov om !!! canon e' →
  canon e = canon e'.
Proof.
  intros He He' Heq.
  destruct (finalRegistry_total ov om e He) as [H1 _].
  destruct (finalRegistry_total ov om e' He') as [H2 _].
  rewrite <- Heq in H2. by eapply finalRegistry_inj.
Qed.

Lemma edgesOf_meshEdges om f e : f ∈ om → e ∈ edgesOf f → e ∈ meshEdges om.
Proof. intros Hf He. apply meshEdges_elem. eauto. Qed.

(** The six indices of the children of a face: the three of the face lie
    below [length ov], the three midpoints at or above it, and two midpoints
    coincide only when two vertices of the face do. *)
Lemma child_indices ov om f :
  Forall (face_in_range (length ov)) om → f ∈ om →
  let R := finalRegistry ov om in
  let a := R !!! canon (v1 f, v2 f) in
  let b := R !!! canon (v2 f, v3 f) in
  let c := R !!! canon (v3 f, v1 f) in
  let E := length (firsts ∅ (meshEdges om)) in
  (v1 f < length ov ∧ v2 f < length ov ∧ v3 f < length ov) ∧
  (length ov ≤ a < length ov + E ∧ length ov ≤ b < length ov + E
   ∧ length ov ≤ c < length ov + E) ∧
  (a = b → v1 f = v3 f) ∧ (b = c → v1 f = v2 f) ∧ (a = c → v2 f = v3 f).
Proof.
  intros Hr Hf. rewrite Forall_forall in Hr. pose proof (Hr f Hf) as Hin.
  assert ((v1 f, v2 f) ∈ meshEdges om) as H12
    by (apply (edgesOf_meshEdges om f); [done|apply edgesOf_elem; tauto]).
  assert ((v2 f, v3 f) ∈ meshEdges om) as H23
    by (apply (edgesOf_meshEdges om f); [done|apply edgesOf_elem; tauto]).
  assert ((v3 f, v1 f) ∈ meshEdges om) as H31
    by (apply (edgesOf_meshEdges om f); [done|apply edgesOf_elem; tauto]).
  cbv zeta. split; [exact Hin|]. split.
  { split_and!; by apply finalRegistry_total. }
  split_and!; intros Heq;
    apply finalRegistry_total_inj in Heq; try done;
    apply canon_eq_pair in Heq; lia.
Qed.

Lemma childFaces_elem R f g :
  g ∈ childFaces R f ↔
  let a := R !!! canon (v1 f, v2 f) in
  let b := R !!! canon (v2 f, v3 f) in
  let c := R !!! canon (v3 f, v1 f) in
  g = Face (v1 f) a c ∨ g = Face a b c ∨ g = Face c b (v3 f)
  ∨ g = Face a (v2 f) b.
Proof.
  unfold childFaces. cbv zeta. rewrite !elem_of_cons, elem_of_nil. tauto.
Qed.

(** *** The second loop on any faces in range *)

Lemma insert_imap {A} (h : A → A) (l : list A) v x y :
  l !! v = Some x → y = h x →
  <[v:=y]> l = imap (λ i z, if decide (i = v) then h z else z) l.
Proof.
  intros Hx ->. apply list_eq. intros i. rewrite list_lookup_imap.
  destruct (decide (i = v)) as [->|Hne].
  - rewrite list_lookup_insert_eq by (by eapply lookup_lt_Some).
    rewrite Hx. simpl. by rewrite ?decide_True by done.
  - rewrite list_lookup_insert_ne by done.
    destruct (l !! i); simpl; [|done]. by rewrite ?decide_False by done.
Qed.

Lemma vec_get_imap {A B} (F : nat → A → B) (l : list A) v x :
  l !! v = Some x → vec_get (imap F l) v = Ok (F v x).
Proof. intros Hx. apply vec_get_Some. by rewrite list_lookup_imap, Hx. Qed.

Lemma accumulate_step_seq ov f (occ : list nat) (tmp : list point3d) :
  face_in_range (length ov) f →
  length occ = length ov → length tmp = length ov →
  accumulate ov (occ, tmp) f =
    Ok (imap (λ i c, (multiplicity f i + c)%nat) occ,
        imap (λ i t, contributionSeq ov f i t) tmp).
Proof.
  intros (H1 & H2 & H3) Hocc Htmp. unfold accumulate.
  destruct (lookup_lt_is_Some_2 ov (v1 f) H1) as [p1 Hp1].
  destruct (lookup_lt_is_Some_2 ov (v2 f) H2) as [p2 Hp2].
  destruct (lookup_lt_is_Some_2 ov (v3 f) H3) as [p3 Hp3].
  destruct (lookup_lt_is_Some_2 occ (v1 f)) as [n1 Hn1]; [lia|].
  destruct (lookup_lt_is_Some_2 occ (v2 f)) as [n2 Hn2]; [lia|].
  destruct (lookup_lt_is_Some_2 occ (v3 f)) as [n3 Hn3]; [lia|].
  destruct (lookup_lt_is_Some_2 tmp (v1 f)) as [t1 Ht1]; [lia|].
  destruct (lookup_lt_is_Some_2 tmp (v2 f)) as [t2 Ht2]; [lia|].
  destruct (lookup_lt_is_Some_2 tmp (v3 f)) as [t3 Ht3]; [lia|].
  rewrite (vec_get_Some _ _ _ Hp1), (vec_get_Some _ _ _ Hp2),
    (vec_get_Some _ _ _ Hp3).
  (* v1 *)
  rewrite (vec_get_Some _ _ _ Hn1), (vec_get_Some _ _ _ Ht1). simpl.
  rewrite !vec_set_lt by lia. simpl.
  rewrite (insert_imap S occ (v1 f) n1 _ Hn1 eq_refl).
  rewrite (insert_imap (λ t, t + (p2 + p3)) tmp (v1 f) t1 _ Ht1 eq_refl).
  (* v2 *)
  rewrite (vec_get_imap _ occ _ _ Hn2), (vec_get_imap _ tmp _ _ Ht2). simpl.
  rewrite !vec_set_lt by (rewrite length_imap; lia). simpl.
  erewrite (insert_imap S (imap _ occ) (v2 f));
    [|by rewrite list_lookup_imap, Hn2|reflexivity].
  erewrite (insert_imap (λ t, t + (p1 + p3)) (imap _ tmp) (v2 f));
    [|by rewrite list_lookup_imap, Ht2|reflexivity].
  rewrite !imap_imap.
  (* v3 *)
  rewrite (vec_get_imap _ occ _ _ Hn3), (vec_get_imap _ tmp _ _ Ht3). simpl.
  rewrite !vec_set_lt by (rewrite length_imap; lia). simpl.
  erewrite (insert_imap S (imap _ occ) (v3 f));
    [|by rewrite list_lookup_imap, Hn3|reflexivity].
  erewrite (insert_imap (λ t, t + (p1 + p2)) (imap _ tmp) (v3 f));
    [|by rewrite list_lookup_imap, Ht3|reflexivity].
  rewrite !imap_imap.
  f_equal. f_equal.
  - apply imap_ext. intros i c _. unfold multiplicity.
    repeat case_decide; lia.
  - apply imap_ext. intros i t _. unfold contributionSeq.
    by rewrite (list_lookup_total_correct _ _ _ Hp1),
      (list_lookup_total_correct _ _ _ Hp2),
      (list_lookup_total_correct _ _ _ Hp3).
Qed.

Lemma accumulate_closed_seq ov fs : ∀ (occ : list nat) (tmp : list point3d),
  Forall (face_in_range (length ov)) fs →
  length occ = length ov → length tmp = length ov →
  for_each (accumulate ov) fs (occ, tmp) =
    Ok (imap (λ i c, foldl (λ c f, (multiplicity f i + c)%nat) c fs) occ,
        imap (λ i t, foldl (λ acc f, contributionSeq ov f i acc) t fs) tmp).
Proof.
  induction fs as [|f fs IH]; intros occ tmp Hr Hocc Htmp.
  - simpl. f_equal. f_equal.
    + apply list_eq. intros i. rewrite list_lookup_imap.
      by destruct (occ !! i).
    + apply list_eq. intros i. rewrite list_lookup_imap.
      by destruct (tmp !! i).
  - apply Forall_cons in Hr as [Hf Hr]. cbn [for_each].
    rewrite accumulate_step_seq by done. simpl.
    rewrite IH by (by rewrite ?length_imap). by rewrite !imap_imap.
Qed.

Lemma multiplicity_zero f i : multiplicity f i = 0 ↔ face_has f i = false.
Proof.
  unfold multiplicity, face_has. rewrite bool_decide_eq_false.
  repeat case_decide; split; intros; try lia; tauto.
Qed.

Lemma foldl_multiplicity fs i : ∀ c,
  foldl (λ c f, (multiplicity f i + c)%nat) c fs = 0 ↔
  c = 0 ∧ Forall (λ f, face_has f i = false) fs.
Proof.
  induction fs as [|f fs IH]; intros c; simpl.
  - split; [intros ->; by split|by intros [-> _]].
  - rewrite IH, Forall_cons, <- multiplicity_zero. split.
    + intros [? ?]. split_and!; [lia|lia|done].
    + intros (-> & ? & ?). split; [lia|done].
Qed.

Lemma occurrenceTotal_zero om i :
  occurrenceTotal om i = 0 ↔ ¬ referenced om i.
Proof.
  unfold occurrenceTotal, referenced. rewrite foldl_multiplicity.
  rewrite <- Forall_Exists_neg. split.
  - intros [_ H]. apply (Forall_impl _ _ _ H). intros f Hf. by rewrite Hf.
  - intros H. split; [done|]. apply (Forall_impl _ _ _ H).
    intros f Hf. by destruct (face_has f i).
Qed.

(** The first three loops on faces in range, given the midpoints. *)
Lemma vertices_in_range ov om dv0 (dm0 : list face) ps :
  Forall (face_in_range (length ov)) om →
  mapM (midpoint ov om) (firsts ∅ (meshEdges om)) = Ok ps →
  let occ := imap (λ i c, foldl (λ c f, (multiplicity f i + c)%nat) c om)
                  (replicate (length ov) 0) in
  let tmp := imap (λ i t, foldl (λ acc f, contributionSeq ov f i acc) t om)
                  (replicate (length ov) point_zero) in
  subdivideFaces ov om dv0 dm0
    = Ok (ov ++ ps, om ≫= childFaces (finalRegistry ov om),
          finalRegistry ov om) ∧
  for_each (accumulate ov) om
    (replicate (length ov) 0, replicate (length ov) point_zero)
    = Ok (occ, tmp) ∧
  ((∃ i, i < length ov ∧ occurrenceTotal om i = 0) →
   for_each (reposition ov occ tmp) (seq 0 (length ov)) (ov ++ ps)
   = Err AssertionFailed) ∧
  ((∀ i, i < length ov → occurrenceTotal om i ≠ 0) →
   for_each (reposition ov occ tmp) (seq 0 (length ov)) (ov ++ ps)
   = Ok (repositionedSeq ov om ++ ps)).
Proof.
  intros Hr Hps occ tmp.
  assert (∀ i, i < length ov → occ !! i = Some (occurrenceTotal om i)) as Hocc.
  { intros i Hi. unfold occ.
    by rewrite list_lookup_imap, lookup_replicate_2 by done. }
  assert (∀ i, i < length ov → tmp !! i = Some (runningSum ov om i)) as Htmp.
  { intros i Hi. unfold tmp.
    by rewrite list_lookup_imap, lookup_replicate_2 by done. }
  assert (length occ = length ov) as Hlo
    by (unfold occ; by rewrite length_imap, length_replicate).
  assert (length tmp = length ov) as Hlt
    by (unfold tmp; by rewrite length_imap, length_replicate).
  split_and!.
  - by rewrite subdivideFaces_closed, Hps.
  - by rewrite accumulate_closed_seq by (by rewrite ?length_replicate).
  - intros (i & Hi & Hz).
    apply (reposition_loop_assert _ _ _ (length ov) 0 _ i); try done.
    + rewrite length_app. lia.
    + lia.
    + by rewrite Hocc, Hz.
  - intros Hnz.
    destruct (reposition_loop ov occ tmp (length ov) 0 (ov ++ ps))
      as (dv & Hrun & Hlen & Hlk); try done.
    { rewrite length_app. lia. }
    { intros i c Hc. assert (i < length ov) as Hi
        by (apply lookup_lt_Some in Hc; lia).
      rewrite Hocc in Hc by done. injection Hc as <-. by apply Hnz. }
    rewrite Hrun. f_equal. apply list_eq. intros i. rewrite Hlk.
    destruct (decide (0 ≤ i < 0 + length ov)) as [Hi|Hi].
    + unfold repositionedSeq.
      rewrite lookup_app_l by (rewrite length_imap; lia).
      rewrite list_lookup_imap.
      destruct (lookup_lt_is_Some_2 ov i) as [p Hp]; [lia|].
      pose proof (Hocc i ltac:(lia)) as Hc. pose proof (Htmp i ltac:(lia)) as Ht.
      by rewrite Hp, (list_lookup_total_correct ov _ _ Hp),
        (list_lookup_total_correct occ _ _ Hc),
        (list_lookup_total_correct tmp _ _ Ht).
    + unfold repositionedSeq.
      rewrite !lookup_app_r by (rewrite ?length_imap; lia).
      by rewrite length_imap.
Qed.

(** *** The normals loop in closed form *)

Lemma accumulateNormal_step_closed dv (dn : list vec3d) f :
  face_in_range (length dv) f → length dn = length dv →
  accumulateNormal dv dn f
  = Ok (imap (λ i a, normalContribution dv f i a) dn).
Proof.
  intros (H1 & H2 & H3) Hlen. unfold accumulateNormal.
  destruct (lookup_lt_is_Some_2 dv (v1 f) H1) as [p1 Hp1].
  destruct (lookup_lt_is_Some_2 dv (v2 f) H2) as [p2 Hp2].
  destruct (lookup_lt_is_Some_2 dv (v3 f) H3) as [p3 Hp3].
  destruct (lookup_lt_is_Some_2 dn (v1 f)) as [n1 Hn1]; [lia|].
  destruct (lookup_lt_is_Some_2 dn (v2 f)) as [n2 Hn2]; [lia|].
  destruct (lookup_lt_is_Some_2 dn (v3 f)) as [n3 Hn3]; [lia|].
  rewrite (vec_get_Some _ _ _ Hp1), (vec_get_Some _ _ _ Hp2),
    (vec_get_Some _ _ _ Hp3). simpl.
  rewrite (vec_get_Some _ _ _ Hn1). simpl.
  rewrite vec_set_lt by lia. simpl.
  rewrite (insert_imap
             (λ a, vec_add a (vec_scale (angleAtVertex p1 p2 p3)
                                        (computeNormal p1 p2 p3)))
             dn (v1 f) n1 _ Hn1 eq_refl).
  rewrite (vec_get_imap _ dn _ _ Hn2). simpl.
  rewrite vec_set_lt by (rewrite length_imap; lia). simpl.
  erewrite (insert_imap
              (λ a, vec_add a (vec_scale (angleAtVertex p2 p3 p1)
                                         (computeNormal p1 p2 p3)))
              (imap _ dn) (v2 f));
    [|by rewrite list_lookup_imap, Hn2|reflexivity].
  rewrite imap_imap.
  rewrite (vec_get_imap _ dn _ _ Hn3). simpl.
  rewrite vec_set_lt by (rewrite length_imap; lia). simpl.
  erewrite (insert_imap
              (λ a, vec_add a (vec_scale (angleAtVertex p3 p1 p2)
                                         (computeNormal p1 p2 p3)))
              (imap _ dn) (v3 f));
    [|by rewrite list_lookup_imap, Hn3|reflexivity].
  rewrite imap_imap. f_equal.
  apply imap_ext. intros i a _. unfold normalContribution.
  by rewrite (list_lookup_total_correct _ _ _ Hp1),
    (list_lookup_total_correct _ _ _ Hp2),
    (list_lookup_total_correct _ _ _ Hp3).
Qed.

Lemma accumulateNormal_closed dv (dm : list face) : ∀ (dn : list vec3d),
  Forall (face_in_range (length dv)) dm → length dn = length dv →
  for_each (accumulateNormal dv) dm dn
  = Ok (imap (λ i a, foldl (λ acc f, normalContribution dv f i acc) a dm) dn).
Proof.
  induction dm as [|f dm IH]; intros dn Hr Hlen.
  - simpl. f_equal. apply list_eq. intros i. rewrite list_lookup_imap.
    by destruct (dn !! i).
  - apply Forall_cons in Hr as [Hf Hr]. cbn [for_each].
    rewrite accumulateNormal_step_closed by done. simpl.
    rewrite IH by (by rewrite ?length_imap). by rewrite imap_imap.
Qed.

Lemma loopSubdivision_Ok_normals ov om (out0 out : outputs) :
  loopSubdivision ov om out0 = Ok out →
  ∃ dn,
    for_each (accumulateNormal (destVert out)) (destMesh out)
             (replicate (length (destVert out)) vec_zero) = Ok dn ∧
    destNorm out = normalize <$> dn.
Proof.
  unfold loopSubdivision. intros H.
  apply bind_Ok_inv in H as ([[V1 M1] R1] & _ & H).
  apply bind_Ok_inv in H as ([occ tmp] & _ & H).
  apply bind_Ok_inv in H as (dv & _ & H).
  apply bind_Ok_inv in H as (dn & Hdn & H).
  injection H as <-. simpl. by exists dn.
Qed.

(** *** The outcome on faces in range *)

Lemma mapM_Err_inv {A B} (h : A → res B) (l : list A) x :
  mapM h l = Err x → ∃ y, y ∈ l ∧ h y = Err x.
Proof.
  induction l as [|y l IH]; simpl; [done|].
  intros [H|(b & _ & H)]%bind_Err_inv.
  - exists y. split; [by left|done].
  - apply bind_Err_inv in H as [H|(k & _ & H)]; [|done].
    destruct (IH H) as (z & ? & ?). exists z. split; [by right|done].
Qed.

Lemma midpoint_in_range_Err ov om e x :
  Forall (face_in_range (length ov)) om →
  e.1 < length ov → e.2 < length ov →
  midpoint ov om e = Err x → x = MalformedMesh.
Proof.
  intros Hr H1 H2. unfold midpoint.
  destruct (vec_get_lt ov _ H1) as (p1 & _ & Hp1).
  destruct (vec_get_lt ov _ H2) as (p2 & _ & Hp2).
  destruct (isBoundaryEdge e om) as [[|o1 o2]|y] eqn:Hb; simpl.
  - by rewrite Hp1, Hp2.
  - destruct (isBoundaryEdge_interior _ _ _ _ _ Hr Hb)
      as (_ & _ & _ & _ & _ & Ho1 & Ho2).
    destruct (vec_get_lt ov _ Ho1) as (q1 & _ & Hq1).
    destruct (vec_get_lt ov _ Ho2) as (q2 & _ & Hq2).
    by rewrite Hp1, Hp2, Hq1, Hq2.
  - intros [= <-]. unfold isBoundaryEdge in Hb.
    destruct (incidentFaces e om) as [|f [|g [|]]];
      repeat case_match; congruence.
Qed.

(** With every face index in range no access is out of range, and the run
    is followed to one of three points: an edge that the finder does not
    cover, the assertion, failed because a vertex is in no face, or the
    end, with a mesh. *)
Lemma run_in_range_outcome ov om (out0 : outputs) :
  Forall (face_in_range (length ov)) om →
  loopSubdivision ov om out0 = Err MalformedMesh ∨
  ∃ ps,
    mapM (midpoint ov om) (firsts ∅ (meshEdges om)) = Ok ps ∧
    (((∃ i, i < length ov ∧ occurrenceTotal om i = 0) ∧
      loopSubdivision ov om out0 = Err AssertionFailed) ∨
     ((∀ i, i < length ov → occurrenceTotal om i ≠ 0) ∧
      ∃ dn, loopSubdivision ov om out0
            = Ok (Outputs (repositionedSeq ov om ++ ps)
                          (om ≫= childFaces (finalRegistry ov om)) dn))).
Proof.
  intros Hr.
  destruct (mapM (midpoint ov om) (firsts ∅ (meshEdges om))) as [ps|x] eqn:Hps.
  - right. exists ps. split; [done|].
    destruct (vertices_in_range ov om (destVert out0) (destMesh out0) ps Hr Hps)
      as (Hsub & Hacc & Hzero & Hnz).
    unfold loopSubdivision. rewrite Hsub. simpl. rewrite Hacc. simpl.
    destruct (decide (Exists (λ i, occurrenceTotal om i = 0)
                             (seq 0 (length ov)))) as [Hex|Hex].
    + left. apply Exists_exists in Hex as (i & Hi%elem_of_seq & Hz).
      assert (∃ i, i < length ov ∧ occurrenceTotal om i = 0) as Hz'
        by (exists i; split; [lia|done]).
      split; [done|]. by rewrite (Hzero Hz').
    + right. assert (∀ i, i < length ov → occurrenceTotal om i ≠ 0) as Hall.
      { intros i Hi Hz. apply Hex, Exists_exists. exists i.
        split; [apply elem_of_seq; lia|done]. }
      split; [done|]. rewrite (Hnz Hall). simpl. unfold assign, clear.
      destruct (accumulateNormal_loop (repositionedSeq ov om ++ ps)
                  (om ≫= childFaces (finalRegistry ov om))
                  (replicate (length (repositionedSeq ov om ++ ps)) vec_zero))
        as (dn & Hdn & _).
      { rewrite length_app. unfold repositionedSeq. rewrite length_imap.
        apply childFaces_in_range; [done|].
        apply mapM_Ok_Forall2, Forall2_length in Hps. done. }
      { by rewrite length_replicate. }
      rewrite Hdn. simpl. by eexists.
  - left. apply mapM_Err_inv in Hps as Hex. destruct Hex as (e & He & Hmid).
    apply firsts_elem in He as [He _].
    pose proof (meshEdges_in_range _ _ Hr) as Her.
    rewrite Forall_forall in Her. destruct (Her e He) as [H1 H2].
    apply (midpoint_in_range_Err _ _ _ _ Hr H1 H2) in Hmid as ->.
    unfold loopSubdivision. by rewrite subdivideFaces_closed, Hps.
Qed.

(** *** Extras: the output mesh *)

(** X1.  With no faces the pass returns the empty mesh when there are no
    vertices either, and stops at its assertion as soon as there is one
    vertex. *)
Theorem no_faces ov (out0 : outputs) :
  loopSubdivision ov [] out0 =
    match ov with
    | [] => Ok (Outputs [] [] [])
    | _ :: _ => Err AssertionFailed
    end.
Proof. destruct ov; reflexivity. Qed.

(** X2.  In every run that returns, each index of each output face points
    into the output vertices. *)
Theorem output_faces_in_range ov om (out0 out : outputs) :
  loopSubdivision ov om out0 = Ok out →
  Forall (face_in_range (length (destVert out))) (destMesh out).
Proof.
  intros Hrun. pose proof (loopSubdivision_Ok_in_range _ _ _ _ Hrun) as Hr.
  destruct (run_Ok_shape _ _ _ _ Hrun) as (ps & _ & Hlps & _ & -> & -> & _).
  by apply childFaces_in_range.
Qed.

(** X3.  The output faces and the number of output vertices depend on the
    input faces and on the number of input vertices only, not on the
    positions: two runs that return on the same faces and on vertex lists of
    one length give the same faces. *)
Theorem connectivity_ignores_positions ov ov' om (out0 out0' out out' : outputs) :
  length ov = length ov' →
  loopSubdivision ov om out0 = Ok out →
  loopSubdivision ov' om out0' = Ok out' →
  destMesh out = destMesh out' ∧
  length (destVert out) = length (destVert out').
Proof.
  intros Hlen Hrun Hrun'.
  destruct (run_Ok_shape _ _ _ _ Hrun) as (ps & _ & Hlps & _ & -> & -> & _).
  destruct (run_Ok_shape _ _ _ _ Hrun') as (ps' & _ & Hlps' & _ & -> & -> & _).
  unfold finalRegistry. rewrite Hlen. split; [done|]. lia.
Qed.

(** X4.  In every run that returns, the registry the first loop leaves is a
    one-to-one correspondence between the undirected edges of the faces and
    the indices of the new vertices: every edge has an index at or past
    [length origVert] and inside the output, two edges with one index are
    the same edge up to the order of the endpoints, and every such index is
    the index of an edge. *)
Theorem midpoint_index_bijection ov om (out0 out : outputs) :
  loopSubdivision ov om out0 = Ok out →
  ∃ V M R,
    subdivideFaces ov om (destVert out0) (destMesh out0) = Ok (V, M, R) ∧
    (∀ e, e ∈ meshEdges om →
       ∃ i, getIndex R e = Ok i ∧ length ov ≤ i < length (destVert out)) ∧
    (∀ e e' i, e ∈ meshEdges om → e' ∈ meshEdges om →
       getIndex R e = Ok i → getIndex R e' = Ok i →
       e' = e ∨ e' = (e.2, e.1)) ∧
    (∀ i, length ov ≤ i < length (destVert out) →
       ∃ e, e ∈ meshEdges om ∧ getIndex R e = Ok i).
Proof.
  intros Hrun.
  destruct (run_Ok_shape _ _ _ _ Hrun) as (ps & _ & Hlps & Hsub & _ & Hlen & _).
  eexists _, _, _. split; [exact Hsub|]. split_and!.
  - intros e He.
    destruct (getIndex_finalRegistry ov om e He)
      as (j & e0 & Hj & _ & _ & _ & Hidx).
    exists (length ov + j)%nat. split; [done|].
    apply lookup_lt_Some in Hj. lia.
  - intros e e' i He He'. unfold getIndex.
    destruct (finalRegistry ov om !! canon e) as [i1|] eqn:H1; [|done].
    destruct (finalRegistry ov om !! canon e') as [i2|] eqn:H2; [|done].
    intros [= ->] [= ->]. apply canon_eq. symmetry.
    by eapply finalRegistry_inj.
  - intros i Hi.
    destruct (lookup_lt_is_Some_2 (firsts ∅ (meshEdges om)) (i - length ov))
      as [e0 He0]; [lia|].
    apply (finalRegistry_firsts ov) in He0 as [He0 Hlk].
    exists e0. split; [done|]. unfold getIndex. rewrite Hlk. f_equal. lia.
Qed.

Lemma childFaces_distinct ov om :
  Forall (face_in_range (length ov)) om → Forall face_distinct om →
  Forall face_distinct (om ≫= childFaces (finalRegistry ov om)).
Proof.
  intros Hr Hd.
  rewrite Forall_forall. intros g (f & Hg & Hf)%list_elem_of_bind.
  rewrite Forall_forall in Hd. destruct (Hd f Hf) as (H12 & H23 & H31).
  pose proof (child_indices ov om f Hr Hf) as Hc. cbv zeta in Hc.
  apply childFaces_elem in Hg. cbv zeta in Hg. unfold face_distinct.
  destruct Hg as [->|[->|[->| ->]]]; simpl; lia.
Qed.

(** X5.  In every run that returns on faces with three distinct indices,
    every output face has three distinct indices. *)
Theorem children_distinct ov om (out0 out : outputs) :
  loopSubdivision ov om out0 = Ok out →
  Forall face_distinct om →
  Forall face_distinct (destMesh out).
Proof.
  intros Hrun Hd. pose proof (loopSubdivision_Ok_in_range _ _ _ _ Hrun) as Hr.
  destruct (run_Ok_shape _ _ _ _ Hrun) as (ps & _ & _ & _ & -> & _ & _).
  by apply childFaces_distinct.
Qed.

(** X6.  What a successful call of [getNewVertex] guarantees to its caller
    when every registered index points into the vertex list: the list is
    unchanged for a registered edge and longer by one, at the returned
    index, for a new one; earlier registrations stand; the edge is now
    registered at the returned index, which points into the list; and every
    registered index still points into the list. *)
Theorem getNewVertex_contract e V om R i V' (R' : EdgeList) :
  registry_in_range V R →
  getNewVertex e V om R = Ok (i, V', R') →
  (contains R e = true → V' = V ∧ R' = R) ∧
  (contains R e = false →
     ∃ p, V' = V ++ [p] ∧ i = length V ∧ R' = <[canon e := i]> R) ∧
  R ⊆ R' ∧ getIndex R' e = Ok i ∧ i < length V' ∧ registry_in_range V' R'.
Proof.
  intros Hinv Hget.
  destruct (R !! canon e) as [j|] eqn:Hj.
  - rewrite (getNewVertex_registered _ _ _ _ _ Hj) in Hget.
    injection Hget as <- <- <-.
    rewrite (contains_true _ _ _ Hj). split_and!; try done.
    + unfold getIndex. by rewrite Hj.
    + by apply (Hinv (canon e)).
  - rewrite (getNewVertex_fresh _ _ _ _ Hj) in Hget.
    apply bind_Ok_inv in Hget as (p & _ & [= <- <- <-]).
    rewrite (contains_false _ _ Hj). split_and!; try done.
    + intros _. by exists p.
    + by apply insert_subseteq.
    + unfold getIndex. by rewrite lookup_insert_eq.
    + rewrite length_app. simpl. lia.
    + apply map_Forall_insert_2; [rewrite length_app; simpl; lia|].
      intros key k Hk. specialize (Hinv key k Hk). simpl in Hinv.
      rewrite length_app. simpl. lia.
Qed.

(** *** Extras: errors and what a returning run implies *)

Lemma run_Ok_closed ov om (out0 out : outputs) :
  loopSubdivision ov om out0 = Ok out →
  ∃ ps,
    mapM (midpoint ov om) (firsts ∅ (meshEdges om)) = Ok ps ∧
    (∀ i, i < length ov → occurrenceTotal om i ≠ 0) ∧
    destVert out = repositionedSeq ov om ++ ps ∧
    destMesh out = om ≫= childFaces (finalRegistry ov om).
Proof.
  intros Hrun. pose proof (loopSubdivision_Ok_in_range _ _ _ _ Hrun) as Hr.
  destruct (run_in_range_outcome ov om out0 Hr)
    as [He|(ps & Hps & [[_ He]|(Hnz & dn & Hok)])]; try congruence.
  rewrite Hok in Hrun. injection Hrun as <-. by exists ps.
Qed.

Lemma reposition_loop_Err ov (occ : list nat) (tmp : list point3d) :
  ∀ l dv x,
  for_each (reposition ov occ tmp) l dv = Err x →
  x = AssertionFailed ∨ x = OutOfRange.
Proof.
  induction l as [|i l IH]; intros dv x; cbn [for_each]; [done|].
  intros [H|(dv1 & _ & H)]%bind_Err_inv; [|by eapply IH].
  unfold reposition in H.
  apply bind_Err_inv in H as [H|(c & _ & H)];
    [right; by apply vec_get_Err in H|].
  case_decide; [left; congruence|].
  apply bind_Err_inv in H as [H|(p & _ & H)];
    [right; by apply vec_get_Err in H|].
  apply bind_Err_inv in H as [H|(t & _ & H)];
    [right; by apply vec_get_Err in H|].
  right. by apply vec_set_Err in H.
Qed.

Lemma accumulateNormal_loop_Err dv (dm : list face) : ∀ (dn : list vec3d) x,
  for_each (accumulateNormal dv) dm dn = Err x → x = OutOfRange.
Proof.
  induction dm as [|f dm IH]; intros dn x; cbn [for_each]; [done|].
  intros [H|(dn1 & _ & H)]%bind_Err_inv; [|by eapply IH].
  unfold accumulateNormal in H.
  repeat (apply bind_Err_inv in H as [H|(? & _ & H)];
          [by first [apply vec_get_Err in H|apply vec_set_Err in H]|]).
  done.
Qed.

Lemma loopSubdivision_Err ov om (out0 : outputs) x :
  loopSubdivision ov om out0 = Err x → x ≠ RegistryMisuse.
Proof.
  unfold loopSubdivision. intros H.
  apply bind_Err_inv in H as [H|([[V1 M1] R1] & _ & H)].
  { apply subdivideFaces_Err in H as [-> | ->]; done. }
  apply bind_Err_inv in H as [H|([occ tmp] & _ & H)].
  { by apply accumulate_loop_Err in H as ->. }
  apply bind_Err_inv in H as [H|(dv & _ & H)].
  { apply reposition_loop_Err in H as [-> | ->]; done. }
  apply bind_Err_inv in H as [H|(dn & _ & H)]; [|done].
  by apply accumulateNormal_loop_Err in H as ->.
Qed.

(** X7.  On a well-formed mesh (indices in range and distinct in every
    face, at most two faces on an edge) every vector access of the pass is
    in bounds and the finder answers on every edge: the run goes on to a
    mesh or to the assertion, and to the assertion exactly when some vertex
    is in no face. *)
Theorem well_formed_run_in_bounds ov om (out0 : outputs) :
  well_formed (length ov) om →
  ((∀ i, i < length ov → referenced om i) ∧
   ∃ out, loopSubdivision ov om out0 = Ok out) ∨
  ((∃ i, i < length ov ∧ ¬ referenced om i) ∧
   loopSubdivision ov om out0 = Err AssertionFailed).
Proof.
  intros Hw.
  destruct (decide (Forall (referenced om) (seq 0 (length ov)))) as [Hall|Hex].
  - left. split.
    + intros i Hi. rewrite Forall_forall in Hall. apply Hall, elem_of_seq. lia.
    + destruct (loopSubdivision_valid ov om out0 (conj Hw Hall))
        as (ps & dn & _ & _ & Hrun).
      eauto.
  - right. apply not_Forall_Exists in Hex; [|apply _].
    apply Exists_exists in Hex as (i & Hi%elem_of_seq & Hn).
    assert (i < length ov) as Hlt by lia.
    split; [by exists i|].
    by apply (loopSubdivision_unreferenced ov om out0 i).
Qed.

(** X8.  On faces whose indices are all in range, also when a face names a
    vertex twice, a run that comes to the assertion [occurrences[i] != 0]
    and fails it was given a vertex that is in no face. *)
Theorem assertion_means_unused_vertex ov om (out0 : outputs) :
  Forall (face_in_range (length ov)) om →
  loopSubdivision ov om out0 = Err AssertionFailed →
  ∃ i, i < length ov ∧ ¬ referenced om i.
Proof.
  intros Hr Hrun.
  destruct (run_in_range_outcome ov om out0 Hr)
    as [He|(ps & _ & [[(i & Hi & Hz) _]|(_ & dn & He)])]; try congruence.
  exists i. split; [done|]. by apply occurrenceTotal_zero.
Qed.

(** X9.  The pass uses the registry within its contract: [getNewVertex]
    adds an edge only when it is absent and asks for an index only when the
    edge is present, so neither it nor the pass ever stops in the registry. *)
Theorem registry_never_misused ov om (out0 : outputs) e V R :
  getNewVertex e V om R ≠ Err RegistryMisuse ∧
  loopSubdivision ov om out0 ≠ Err RegistryMisuse.
Proof.
  split.
  - intros H. apply getNewVertex_Err in H as [?|?]; done.
  - intros H. by apply loopSubdivision_Err in H.
Qed.

(** X10.  On faces whose indices are all in range, also when a face names
    a vertex twice, a run that returns was given a mesh in which every
    vertex is in some face: the assertion lets no unused vertex through. *)
Theorem returning_run_input ov om (out0 out : outputs) :
  Forall (face_in_range (length ov)) om →
  loopSubdivision ov om out0 = Ok out →
  ∀ i, i < length ov → referenced om i.
Proof.
  intros Hr Hrun.
  destruct (run_in_range_outcome ov om out0 Hr)
    as [He|(ps & _ & [[_ He]|(Hnz & _)])]; try congruence.
  intros i Hi. destruct (decide (referenced om i)) as [|Hn]; [done|].
  apply occurrenceTotal_zero in Hn. by apply Hnz in Hn.
Qed.

(** X11.  In every run that returns, also on faces that name a vertex
    twice, the original vertex [i] moves to
    5/8 * old + sum * (3 / (16 * n)), where [n] counts the slots of the face
    list that hold [i], so that a vertex named twice by a face counts twice,
    and [sum] adds, slot after slot, the positions of the other two slots
    of the face. *)
Theorem original_vertex_update_any ov om (out0 out : outputs) :
  loopSubdivision ov om out0 = Ok out →
  ∀ i, i < length ov →
    destVert out !! i =
      Some ((float_lit 5 / float_lit 8) *. (ov !!! i)
            + runningSum ov om i
              .* (float_lit 3
                  / (float_lit 16 * float_of_size (occurrenceTotal om i)))).
Proof.
  intros Hrun i Hi.
  destruct (run_Ok_closed _ _ _ _ Hrun) as (ps & _ & _ & -> & _).
  unfold repositionedSeq.
  rewrite lookup_app_l by (by rewrite length_imap).
  rewrite list_lookup_imap.
  destruct (lookup_lt_is_Some_2 ov i Hi) as [p Hp].
  by rewrite Hp, (list_lookup_total_correct _ _ _ Hp).
Qed.

(** X12.  In every run that returns there is one normal per output vertex,
    and the normal of vertex [i] is [normalize] of the sum, in the order of
    the output faces and slot after slot, of the face normal weighted by
    the angle at [i], both computed from the output positions. *)
Theorem normals_closed_form ov om (out0 out : outputs) :
  loopSubdivision ov om out0 = Ok out →
  length (destNorm out) = length (destVert out) ∧
  ∀ i, i < length (destVert out) →
    destNorm out !! i =
      Some (normalize (accumulatedNormal (destVert out) (destMesh out) i)).
Proof.
  intros Hrun.
  assert (Forall (face_in_range (length (destVert out))) (destMesh out)) as Hr.
  { pose proof (loopSubdivision_Ok_in_range _ _ _ _ Hrun) as Hr.
    destruct (run_Ok_shape _ _ _ _ Hrun) as (ps & _ & Hlps & _ & -> & -> & _).
    by apply childFaces_in_range. }
  destruct (loopSubdivision_Ok_normals _ _ _ _ Hrun) as (dn & Hdn & ->).
  rewrite accumulateNormal_closed in Hdn by (by rewrite ?length_replicate).
  injection Hdn as <-. rewrite length_fmap, length_imap, length_replicate.
  split; [done|]. intros i Hi.
  by rewrite list_lookup_fmap, list_lookup_imap, lookup_replicate_2.
Qed.

Lemma children_cover ov om i :
  (∀ k, k < length ov → referenced om k) →
  i < length ov + length (firsts ∅ (meshEdges om)) →
  referenced (om ≫= childFaces (finalRegistry ov om)) i.
Proof.
  intros Href Hi. unfold referenced. apply Exists_exists.
  destruct (decide (i < length ov)) as [Hlt|Hge].
  - specialize (Href i Hlt). unfold referenced in Href.
    apply Exists_exists in Href as (f & Hf & Hi'%face_has_true).
    destruct Hi' as [->|[->| ->]].
    + exists (Face (v1 f) (finalRegistry ov om !!! canon (v1 f, v2 f))
                   (finalRegistry ov om !!! canon (v3 f, v1 f))).
      split; [|apply face_has_true; simpl; tauto].
      apply list_elem_of_bind. exists f. split; [|done].
      apply childFaces_elem. cbv zeta. tauto.
    + exists (Face (finalRegistry ov om !!! canon (v1 f, v2 f)) (v2 f)
                   (finalRegistry ov om !!! canon (v2 f, v3 f))).
      split; [|apply face_has_true; simpl; tauto].
      apply list_elem_of_bind. exists f. split; [|done].
      apply childFaces_elem. cbv zeta. tauto.
    + exists (Face (finalRegistry ov om !!! canon (v3 f, v1 f))
                   (finalRegistry ov om !!! canon (v2 f, v3 f)) (v3 f)).
      split; [|apply face_has_true; simpl; tauto].
      apply list_elem_of_bind. exists f. split; [|done].
      apply childFaces_elem. cbv zeta. tauto.
  - destruct (lookup_lt_is_Some_2 (firsts ∅ (meshEdges om)) (i - length ov))
      as [e0 He0]; [lia|].
    apply (finalRegistry_firsts ov) in He0 as [He0 Hlk].
    replace (length ov + (i - length ov))%nat with i in Hlk by lia.
    apply meshEdges_elem in He0 as (f & He0 & Hf).
    exists (Face (finalRegistry ov om !!! canon (v1 f, v2 f))
                 (finalRegistry ov om !!! canon (v2 f, v3 f))
                 (finalRegistry ov om !!! canon (v3 f, v1 f))).
    split.
    + apply list_elem_of_bind. exists f. split; [|done].
      apply childFaces_elem. cbv zeta. tauto.
    + apply face_has_true. simpl.
      apply lookup_total_correct in Hlk.
      apply edgesOf_elem in He0 as [->|[->| ->]]; rewrite Hlk; tauto.
Qed.

(** X13.  In every run that returns, every output vertex, original or new,
    is a vertex of some output face. *)
Theorem output_vertices_used ov om (out0 out : outputs) :
  loopSubdivision ov om out0 = Ok out →
  ∀ i, i < length (destVert out) → referenced (destMesh out) i.
Proof.
  intros Hrun i Hi.
  destruct (run_Ok_closed _ _ _ _ Hrun) as (ps & _ & Hnz & _ & _).
  destruct (run_Ok_shape _ _ _ _ Hrun) as (ps' & _ & Hlps & _ & HM & Hlen & _).
  rewrite HM. apply children_cover; [|lia].
  intros k Hk. destruct (decide (referenced om k)) as [|Hn]; [done|].
  apply occurrenceTotal_zero in Hn. by apply Hnz in Hn.
Qed.

(** *** Counting faces through the children *)

Lemma filter_bind_count {A B} (P : B → Prop) `{!∀ x, Decision (P x)}
    (g : A → list B) (w : A → nat) (l : list A) :
  (∀ x, x ∈ l → length (filter P (g x)) ≤ w x) →
  length (filter P (l ≫= g)) ≤ sum_list_with w l.
Proof.
  induction l as [|x l IH]; intros Hw; [done|].
  rewrite bind_cons, filter_app, length_app. simpl.
  pose proof (Hw x ltac:(by left)).
  assert (length (filter P (l ≫= g)) ≤ sum_list_with w l)
    by (apply IH; intros y Hy; apply Hw; by right).
  lia.
Qed.

Lemma sum_list_with_indicator {A} (Q : A → Prop) `{!∀ x, Decision (Q x)}
    (c : nat) (l : list A) :
  sum_list_with (λ x, if decide (Q x) then c else 0) l
  = (c * length (filter Q l))%nat.
Proof.
  induction l as [|x l IH]; simpl; [lia|].
  rewrite filter_cons. destruct (decide (Q x)); simpl; lia.
Qed.

Lemma NoDup_fmap_filter {A B} `{EqDecision B} (h : A → B) (l : list A) y :
  NoDup (h <$> l) → length (filter (λ x, h x = y) l) ≤ 1.
Proof.
  induction l as [|x l IH]; intros Hnd; [simpl; lia|].
  rewrite fmap_cons in Hnd. apply NoDup_cons in Hnd as [Hx Hnd].
  rewrite filter_cons. destruct (decide (h x = y)) as [Heq|]; [|by apply IH].
  simpl. assert (filter (λ x, h x = y) l = []) as ->; [|simpl; lia].
  destruct (filter _ l) as [|z k] eqn:Hf; [done|]. exfalso. apply Hx.
  assert (z ∈ filter (λ x, h x = y) l) as Hz by (rewrite Hf; by left).
  apply (list_elem_of_filter (λ x, h x = y)) in Hz as [Hz1 Hz2].
  apply list_elem_of_fmap. exists z. split; [congruence|done].
Qed.

Lemma vertexSet_elem f z :
  z ∈ vertexSet f ↔ z = v1 f ∨ z = v2 f ∨ z = v3 f.
Proof.
  unfold vertexSet. rewrite !elem_of_union, !elem_of_singleton. tauto.
Qed.

Lemma endpoints_canon e e' :
  canon e = canon e' → ∀ z, (z = e.1 ∨ z = e.2) ↔ (z = e'.1 ∨ z = e'.2).
Proof.
  intros Hc z. symmetry in Hc. apply canon_eq in Hc as [->| ->]; simpl; tauto.
Qed.

(** Two different edges of a face with distinct indices cover its three
    vertices. *)
Lemma two_edges_cover f e1 e2 :
  face_distinct f → e1 ∈ edgesOf f → e2 ∈ edgesOf f → canon e1 ≠ canon e2 →
  ∀ z, z ∈ vertexSet f ↔ (z = e1.1 ∨ z = e1.2) ∨ (z = e2.1 ∨ z = e2.2).
Proof.
  intros (H12 & H23 & H31) He1%edgesOf_elem He2%edgesOf_elem Hne z.
  rewrite vertexSet_elem.
  destruct He1 as [->|[->| ->]], He2 as [->|[->| ->]]; simpl;
    first [done|lia].
Qed.

(** Counting on the four children of one face, with the midpoint indices
    [a], [b], [c] above the original indices [p], [q], [r]: an edge from
    an original vertex to a midpoint lies in at most one child. *)
Lemma corner_count_list n p q r a b c v me x y :
  p < n → q < n → r < n → v < n →
  n ≤ a → n ≤ b → n ≤ c → n ≤ me →
  p ≠ q → q ≠ r → r ≠ p →
  (x = v ∧ y = me) ∨ (x = me ∧ y = v) →
  length (filter (λ g, containsEdge g (x, y) = true)
                 [Face p a c; Face a b c; Face c b r; Face a q b])
  ≤ (if decide (me = a ∨ me = b ∨ me = c) then 1 else 0).
Proof.
  intros Hp Hq Hr' Hv Ha Hb Hc Hme Hpq Hqr Hrp Hxy.
  assert (∀ g, containsEdge g (x, y) = true →
               (v = v1 g ∨ v = v2 g ∨ v = v3 g) ∧
               (me = v1 g ∨ me = v2 g ∨ me = v3 g)) as Hg.
  { intros g [H1 H2]%containsEdge_true. simpl in H1, H2.
    destruct Hxy as [[-> ->]|[-> ->]]; done. }
  assert (containsEdge (Face p a c) (x, y) = true →
          v = p ∧ (me = a ∨ me = c)) as H1.
  { intros [H H']%Hg. simpl in H, H'. lia. }
  assert (containsEdge (Face a b c) (x, y) = true → False) as H2.
  { intros [H H']%Hg. simpl in H, H'. lia. }
  assert (containsEdge (Face c b r) (x, y) = true →
          v = r ∧ (me = c ∨ me = b)) as H3.
  { intros [H H']%Hg. simpl in H, H'. lia. }
  assert (containsEdge (Face a q b) (x, y) = true →
          v = q ∧ (me = a ∨ me = b)) as H4.
  { intros [H H']%Hg. simpl in H, H'. lia. }
  clear Hg Hxy Hp Hq Hr' Hv Ha Hb Hc Hme.
  rewrite !filter_cons, filter_nil.
  destruct (decide (containsEdge (Face a b c) (x, y) = true)) as [[]%H2|_].
  destruct (decide (containsEdge (Face p a c) (x, y) = true)) as [[-> ?]%H1|_];
    destruct (decide (containsEdge (Face c b r) (x, y) = true)) as [[? ?]%H3|_];
    destruct (decide (containsEdge (Face a q b) (x, y) = true)) as [[? ?]%H4|_];
    try congruence; case_decide; simpl; first [lia|tauto].
Qed.

(** An edge between two different midpoints lies in at most two children:
    the middle one and one corner. *)
Lemma middle_count_list n p q r a b c x y :
  p < n → q < n → r < n →
  n ≤ a → n ≤ b → n ≤ c → n ≤ x → n ≤ y →
  a ≠ b → b ≠ c → a ≠ c → x ≠ y →
  length (filter (λ g, containsEdge g (x, y) = true)
                 [Face p a c; Face a b c; Face c b r; Face a q b])
  ≤ (if decide ((x = a ∨ x = b ∨ x = c) ∧ (y = a ∨ y = b ∨ y = c))
     then 2 else 0).
Proof.
  intros Hp Hq Hr' Ha Hb Hc Hx Hy Hab Hbc Hac Hxy.
  assert (containsEdge (Face p a c) (x, y) = true →
          (x = a ∧ y = c) ∨ (x = c ∧ y = a)) as H1.
  { intros [H H']%containsEdge_true. simpl in H, H'. lia. }
  assert (containsEdge (Face a b c) (x, y) = true →
          (x = a ∨ x = b ∨ x = c) ∧ (y = a ∨ y = b ∨ y = c)) as H2.
  { intros [H H']%containsEdge_true. simpl in H, H'. done. }
  assert (containsEdge (Face c b r) (x, y) = true →
          (x = c ∧ y = b) ∨ (x = b ∧ y = c)) as H3.
  { intros [H H']%containsEdge_true. simpl in H, H'. lia. }
  assert (containsEdge (Face a q b) (x, y) = true →
          (x = a ∧ y = b) ∨ (x = b ∧ y = a)) as H4.
  { intros [H H']%containsEdge_true. simpl in H, H'. lia. }
  clear Hp Hq Hr' Ha Hb Hc Hx Hy.
  rewrite !filter_cons, filter_nil.
  destruct (decide (containsEdge (Face p a c) (x, y) = true)) as [K1%H1|_];
    destruct (decide (containsEdge (Face a b c) (x, y) = true)) as [K2%H2|_];
    destruct (decide (containsEdge (Face c b r) (x, y) = true)) as [K3%H3|_];
    destruct (decide (containsEdge (Face a q b) (x, y) = true)) as [K4%H4|_];
    case_decide; simpl; try lia;
    repeat match goal with
           | H : _ ∨ _ |- _ => destruct H as [[? ?]|[? ?]]
           end;
    first [congruence|tauto].
Qed.

Section Preservation.
Variables (ov : list point3d) (om : list face).
Hypothesis Hr : Forall (face_in_range (length ov)) om.
Hypothesis Hd : Forall face_distinct om.

#[local] Set Default Proof Using "Hr Hd".

Local Abbreviation mid e := (finalRegistry ov om !!! canon e).
Local Abbreviation children := (om ≫= childFaces (finalRegistry ov om)).

Lemma mid_edge_of f e :
  f ∈ om → e ∈ meshEdges om →
  (mid e = mid (v1 f, v2 f) ∨ mid e = mid (v2 f, v3 f)
   ∨ mid e = mid (v3 f, v1 f)) →
  ∃ e', e' ∈ edgesOf f ∧ canon e = canon e'.
Proof.
  intros Hf He H.
  destruct H as [H|[H|H]]; apply finalRegistry_total_inj in H; try done;
    try (apply (edgesOf_meshEdges om f); [done|apply edgesOf_elem; tauto]).
  - exists (v1 f, v2 f). split; [apply edgesOf_elem; tauto|done].
  - exists (v2 f, v3 f). split; [apply edgesOf_elem; tauto|done].
  - exists (v3 f, v1 f). split; [apply edgesOf_elem; tauto|done].
Qed.

Lemma mid_in_face f e :
  f ∈ om → e ∈ meshEdges om →
  (mid e = mid (v1 f, v2 f) ∨ mid e = mid (v2 f, v3 f)
   ∨ mid e = mid (v3 f, v1 f)) →
  containsEdge f e = true.
Proof.
  intros Hf He H. destruct (mid_edge_of f e Hf He H) as (e' & He' & Hc).
  pose proof (endpoints_canon _ _ Hc) as Hz.
  apply containsEdge_edgesOf, containsEdge_true in He' as [H1 H2].
  apply containsEdge_true.
  pose proof (proj1 (Hz e.1) ltac:(tauto)).
  pose proof (proj1 (Hz e.2) ltac:(tauto)).
  split; [destruct H0 as [->| ->]; done|destruct H3 as [->| ->]; done].
Qed.

(** Two midpoints of [f0] among the midpoints of [f]: the two faces have
    the same vertices. *)
Lemma two_mids_same_face f0 f e1 e2 :
  f0 ∈ om → f ∈ om → e1 ∈ edgesOf f0 → e2 ∈ edgesOf f0 →
  canon e1 ≠ canon e2 →
  (mid e1 = mid (v1 f, v2 f) ∨ mid e1 = mid (v2 f, v3 f)
   ∨ mid e1 = mid (v3 f, v1 f)) →
  (mid e2 = mid (v1 f, v2 f) ∨ mid e2 = mid (v2 f, v3 f)
   ∨ mid e2 = mid (v3 f, v1 f)) →
  vertexSet f = vertexSet f0.
Proof.
  intros Hf0 Hf He1 He2 Hne H1 H2.
  destruct (mid_edge_of f e1 Hf (edgesOf_meshEdges _ _ _ Hf0 He1) H1)
    as (e1' & He1' & Hc1).
  destruct (mid_edge_of f e2 Hf (edgesOf_meshEdges _ _ _ Hf0 He2) H2)
    as (e2' & He2' & Hc2).
  rewrite Forall_forall in Hd.
  apply set_eq. intros z.
  rewrite (two_edges_cover f e1' e2')
    by first [done|by apply Hd|congruence].
  rewrite (two_edges_cover f0 e1 e2) by first [done|by apply Hd].
  by rewrite (endpoints_canon _ _ Hc1 z), (endpoints_canon _ _ Hc2 z).
Qed.

(** The children of [f] that contain an original vertex and the midpoint
    of the edge [e]: at most one, and none unless [f] lies on [e]. *)
Lemma corner_count f e v x y :
  f ∈ om → e ∈ meshEdges om → v < length ov →
  (x = v ∧ y = mid e) ∨ (x = mid e ∧ y = v) →
  length (filter (λ g, containsEdge g (x, y) = true)
                 (childFaces (finalRegistry ov om) f))
  ≤ (if decide (containsEdge f e = true) then 1 else 0).
Proof.
  intros Hf He Hv Hxy.
  pose proof (child_indices ov om f Hr Hf) as Hc. cbv zeta in Hc.
  destruct Hc as ((Hp & Hq & Hr') & ([Ha _] & [Hb _] & [Hc _]) & _).
  pose proof Hd as Hd'. rewrite Forall_forall in Hd'.
  destruct (Hd' f Hf) as (H12 & H23 & H31).
  pose proof (mid_in_face f e Hf He) as Hmid.
  destruct (finalRegistry_total ov om e He) as [_ [Hge _]].
  etrans;
    [by apply (corner_count_list (length ov) (v1 f) (v2 f) (v3 f) _ _ _ v
                 (mid e) x y)|].
  repeat case_decide; first [lia|tauto].
Qed.

(** The children of [f] that contain two different midpoints of [f0]: at
    most two, and none unless [f] has the vertices of [f0]. *)
Lemma middle_count f0 f e1 e2 :
  f0 ∈ om → f ∈ om → e1 ∈ edgesOf f0 → e2 ∈ edgesOf f0 →
  canon e1 ≠ canon e2 →
  length (filter (λ g, containsEdge g (mid e1, mid e2) = true)
                 (childFaces (finalRegistry ov om) f))
  ≤ (if decide (vertexSet f = vertexSet f0) then 2 else 0).
Proof.
  intros Hf0 Hf He1 He2 Hne.
  pose proof (child_indices ov om f Hr Hf) as Hc. cbv zeta in Hc.
  destruct Hc as ((Hp & Hq & Hr') & ([Ha _] & [Hb _] & [Hc _])
                  & Hab & Hbc & Hac).
  pose proof Hd as Hd'. rewrite Forall_forall in Hd'.
  destruct (Hd' f Hf) as (H12 & H23 & H31).
  pose proof (two_mids_same_face f0 f e1 e2 Hf0 Hf He1 He2 Hne) as Hsame.
  pose proof (edgesOf_meshEdges _ _ _ Hf0 He1) as Hm1.
  pose proof (edgesOf_meshEdges _ _ _ Hf0 He2) as Hm2.
  destruct (finalRegistry_total ov om e1 Hm1) as [_ [Hge1 _]].
  destruct (finalRegistry_total ov om e2 Hm2) as [_ [Hge2 _]].
  assert (mid e1 ≠ mid e2) as Hxy
    by (intros Heq; by apply Hne, (finalRegistry_total_inj ov om)).
  etrans;
    [apply (middle_count_list (length ov) (v1 f) (v2 f) (v3 f));
     first [done|intros Heq; specialize (Hab Heq); congruence
           |intros Heq; specialize (Hbc Heq); congruence
           |intros Heq; specialize (Hac Heq); congruence]|].
  repeat case_decide; first [lia|tauto].
Qed.

Lemma orig_mid_count e v x y :
  e ∈ meshEdges om → v < length ov →
  (x = v ∧ y = mid e) ∨ (x = mid e ∧ y = v) →
  length (incidentFaces (x, y) children) ≤ length (incidentFaces e om).
Proof.
  intros He Hv Hxy. unfold incidentFaces.
  etrans;
    [apply (filter_bind_count _ _
              (λ f, if decide (containsEdge f e = true) then 1 else 0))|].
  - intros f Hf. by apply (corner_count f e v).
  - rewrite sum_list_with_indicator. lia.
Qed.

Lemma mid_mid_count f0 e1 e2 :
  simple om →
  f0 ∈ om → e1 ∈ edgesOf f0 → e2 ∈ edgesOf f0 → canon e1 ≠ canon e2 →
  length (incidentFaces (mid e1, mid e2) children) ≤ 2.
Proof.
  intros Hs Hf0 He1 He2 Hne. unfold incidentFaces.
  etrans;
    [apply (filter_bind_count _ _
              (λ f, if decide (vertexSet f = vertexSet f0) then 2 else 0))|].
  - intros f Hf. by apply middle_count.
  - rewrite sum_list_with_indicator.
    pose proof (NoDup_fmap_filter vertexSet om (vertexSet f0) Hs). lia.
Qed.

(** Every edge of the children lies on at most two children. *)
Lemma children_manifold : manifold om → simple om → manifold children.
Proof.
  intros Hman Hs. unfold manifold. rewrite Forall_forall. intros e' He'.
  apply meshEdges_elem in He' as (g & He' & Hg).
  apply list_elem_of_bind in Hg as (f & Hg & Hf).
  pose proof Hd as Hd'. rewrite Forall_forall in Hd'.
  destruct (Hd' f Hf) as (H12 & H23 & H31).
  pose proof Hr as Hr'. rewrite Forall_forall in Hr'.
  destruct (Hr' f Hf) as (Hv1 & Hv2 & Hv3).
  assert ((v1 f, v2 f) ∈ edgesOf f) as E12 by (apply edgesOf_elem; tauto).
  assert ((v2 f, v3 f) ∈ edgesOf f) as E23 by (apply edgesOf_elem; tauto).
  assert ((v3 f, v1 f) ∈ edgesOf f) as E31 by (apply edgesOf_elem; tauto).
  pose proof (edgesOf_meshEdges _ _ _ Hf E12) as M12.
  pose proof (edgesOf_meshEdges _ _ _ Hf E23) as M23.
  pose proof (edgesOf_meshEdges _ _ _ Hf E31) as M31.
  unfold manifold in Hman. rewrite Forall_forall in Hman.
  pose proof (Hman _ M12) as B12. pose proof (Hman _ M23) as B23.
  pose proof (Hman _ M31) as B31.
  assert (canon (v1 f, v2 f) ≠ canon (v2 f, v3 f)) as N1
    by (rewrite canon_eq_pair; lia).
  assert (canon (v2 f, v3 f) ≠ canon (v3 f, v1 f)) as N2
    by (rewrite canon_eq_pair; lia).
  assert (canon (v3 f, v1 f) ≠ canon (v1 f, v2 f)) as N3
    by (rewrite canon_eq_pair; lia).
  apply childFaces_elem in Hg. cbv zeta in Hg.
  destruct Hg as [->|[->|[->| ->]]];
    apply edgesOf_elem in He'; simpl in He'; destruct He' as [->|[->| ->]].
  - etrans; [apply (orig_mid_count (v1 f, v2 f) (v1 f)); tauto|done].
  - by apply (mid_mid_count f).
  - etrans; [apply (orig_mid_count (v3 f, v1 f) (v1 f)); tauto|done].
  - by apply (mid_mid_count f).
  - by apply (mid_mid_count f).
  - by apply (mid_mid_count f).
  - by apply (mid_mid_count f).
  - etrans; [apply (orig_mid_count (v2 f, v3 f) (v3 f)); tauto|done].
  - etrans; [apply (orig_mid_count (v3 f, v1 f) (v3 f)); tauto|done].
  - etrans; [apply (orig_mid_count (v1 f, v2 f) (v2 f)); tauto|done].
  - etrans; [apply (orig_mid_count (v2 f, v3 f) (v2 f)); tauto|done].
  - by apply (mid_mid_count f).
Qed.

(** An index at or past [length ov] in a child of [f] is one of the three
    midpoints of [f]. *)
Lemma child_big f g z :
  f ∈ om → g ∈ childFaces (finalRegistry ov om) f →
  z ∈ vertexSet g → length ov ≤ z →
  z = mid (v1 f, v2 f) ∨ z = mid (v2 f, v3 f) ∨ z = mid (v3 f, v1 f).
Proof.
  intros Hf Hg Hz Hge.
  pose proof (child_indices ov om f Hr Hf) as Hc. cbv zeta in Hc.
  apply childFaces_elem in Hg. cbv zeta in Hg.
  apply vertexSet_elem in Hz.
  destruct Hg as [->|[->|[->| ->]]]; simpl in Hz; lia.
Qed.

(** A child of [f] holds two different midpoints of [f]. *)
Lemma child_two_mids f g :
  f ∈ om → g ∈ childFaces (finalRegistry ov om) f →
  ∃ e1 e2, e1 ∈ edgesOf f ∧ e2 ∈ edgesOf f ∧ canon e1 ≠ canon e2 ∧
           mid e1 ∈ vertexSet g ∧ mid e2 ∈ vertexSet g.
Proof.
  intros Hf Hg.
  pose proof Hd as Hd'. rewrite Forall_forall in Hd'.
  destruct (Hd' f Hf) as (H12 & H23 & H31).
  assert ((v1 f, v2 f) ∈ edgesOf f) as E12 by (apply edgesOf_elem; tauto).
  assert ((v2 f, v3 f) ∈ edgesOf f) as E23 by (apply edgesOf_elem; tauto).
  assert ((v3 f, v1 f) ∈ edgesOf f) as E31 by (apply edgesOf_elem; tauto).
  assert (canon (v1 f, v2 f) ≠ canon (v2 f, v3 f)) as N1
    by (rewrite canon_eq_pair; lia).
  assert (canon (v2 f, v3 f) ≠ canon (v3 f, v1 f)) as N2
    by (rewrite canon_eq_pair; lia).
  assert (canon (v1 f, v2 f) ≠ canon (v3 f, v1 f)) as N3
    by (rewrite canon_eq_pair; lia).
  apply childFaces_elem in Hg. cbv zeta in Hg.
  destruct Hg as [->|[->|[->| ->]]].
  - exists (v1 f, v2 f), (v3 f, v1 f).
    split_and!; try done; apply vertexSet_elem; simpl; tauto.
  - exists (v1 f, v2 f), (v2 f, v3 f).
    split_and!; try done; apply vertexSet_elem; simpl; tauto.
  - exists (v2 f, v3 f), (v3 f, v1 f).
    split_and!; try done; apply vertexSet_elem; simpl; tauto.
  - exists (v1 f, v2 f), (v2 f, v3 f).
    split_and!; try done; apply vertexSet_elem; simpl; tauto.
Qed.

(** Children with the same vertices come from faces with the same
    vertices. *)
Lemma child_vertexSet_inj f f' g g' :
  f ∈ om → f' ∈ om →
  g ∈ childFaces (finalRegistry ov om) f →
  g' ∈ childFaces (finalRegistry ov om) f' →
  vertexSet g = vertexSet g' → vertexSet f' = vertexSet f.
Proof.
  intros Hf Hf' Hg Hg' Heq.
  destruct (child_two_mids f g Hf Hg) as (e1 & e2 & He1 & He2 & Hne & H1 & H2).
  rewrite Heq in H1, H2.
  apply (two_mids_same_face f f' e1 e2); try done.
  - apply (child_big f' g'); try done.
    by apply finalRegistry_total, (edgesOf_meshEdges om f).
  - apply (child_big f' g'); try done.
    by apply finalRegistry_total, (edgesOf_meshEdges om f).
Qed.

Lemma childFaces_NoDup f :
  f ∈ om → NoDup (vertexSet <$> childFaces (finalRegistry ov om) f).
Proof.
  intros Hf.
  pose proof (child_indices ov om f Hr Hf) as Hc. cbv zeta in Hc.
  pose proof Hd as Hd'. rewrite Forall_forall in Hd'.
  destruct (Hd' f Hf) as (H12 & H23 & H31).
  assert (∀ g g' z, z ∈ vertexSet g → z ∉ vertexSet g' →
                    vertexSet g ≠ vertexSet g') as Hdiff
    by (intros g g' z Hz Hn Heq; apply Hn; by rewrite <- Heq).
  unfold childFaces. cbv zeta. rewrite !fmap_cons, fmap_nil.
  repeat (apply NoDup_cons; split); try apply NoDup_nil_2;
    rewrite ?elem_of_cons, elem_of_nil.
  - intros [H|[H|[H|[]]]]; revert H.
    + apply (Hdiff _ _ (v1 f)); rewrite vertexSet_elem; simpl; lia.
    + apply (Hdiff _ _ (v1 f)); rewrite vertexSet_elem; simpl; lia.
    + apply (Hdiff _ _ (v1 f)); rewrite vertexSet_elem; simpl; lia.
  - intros [H|[H|[]]]; revert H.
    + apply not_eq_sym.
      apply (Hdiff _ _ (v3 f)); rewrite vertexSet_elem; simpl; lia.
    + apply not_eq_sym.
      apply (Hdiff _ _ (v2 f)); rewrite vertexSet_elem; simpl; lia.
  - intros [H|[]]; revert H.
    apply (Hdiff _ _ (v3 f)); rewrite vertexSet_elem; simpl; lia.
  - intros [].
Qed.

Lemma children_simple_aux (l : list face) :
  l ⊆ om → NoDup (vertexSet <$> l) →
  NoDup (vertexSet <$> (l ≫= childFaces (finalRegistry ov om))).
Proof.
  induction l as [|f l IH]; intros Hsub Hnd; [constructor|].
  rewrite fmap_cons in Hnd. apply NoDup_cons in Hnd as [Hf Hnd].
  assert (f ∈ om) as Hfom by (apply Hsub; by left).
  assert (l ⊆ om) as Hl by (intros x Hx; apply Hsub; by right).
  rewrite bind_cons, fmap_app. apply NoDup_app. split_and!.
  - by apply childFaces_NoDup.
  - intros S (g & -> & Hg)%list_elem_of_fmap
           (g' & Heq & (f' & Hg' & Hf')%list_elem_of_bind)%list_elem_of_fmap.
    apply Hf. apply list_elem_of_fmap. exists f'. split; [|done].
    symmetry. by apply (child_vertexSet_inj f f' g g'); try done; apply Hl.
  - by apply IH.
Qed.

(** No two children have the same three vertices. *)
Lemma children_simple : simple om → simple children.
Proof. intros Hs. by apply children_simple_aux. Qed.

End Preservation.

(** X14.  The pass keeps its own preconditions: on a valid mesh in which no
    two faces have the same three vertices it returns a mesh that is again
    valid (indices in range and distinct in every face, at most two faces on
    an edge, every vertex in a face) and again has no two faces with the
    same vertices; so a second pass, run on the output of the first, returns
    too, with sixteen times the faces. *)
Theorem pass_keeps_validity ov om (out0 : outputs) :
  valid_mesh (length ov) om → simple om →
  ∃ out,
    loopSubdivision ov om out0 = Ok out ∧
    valid_mesh (length (destVert out)) (destMesh out) ∧
    simple (destMesh out) ∧
    ∃ out2,
      loopSubdivision (destVert out) (destMesh out) out = Ok out2 ∧
      length (destMesh out2) = (16 * length om)%nat.
Proof.
  intros Hv Hs.
  destruct (loopSubdivision_valid ov om out0 Hv) as (ps & dn & Hps & Hdn & Hrun).
  pose proof Hv as [[Hok Hman] Href].
  pose proof (well_formed_in_range _ _ (proj1 Hv)) as Hr.
  assert (Forall face_distinct om) as Hd.
  { eapply Forall_impl; [exact Hok|]. by intros f [_ ?]. }
  assert (length ps = length (firsts ∅ (meshEdges om))) as Hlps
    by (apply mapM_Ok_Forall2, Forall2_length in Hps; done).
  set (D := om ≫= childFaces (finalRegistry ov om)) in Hrun.
  assert (length (repositioned ov om ++ ps)
          = (length ov + length ps)%nat) as Hlen
    by (by rewrite length_app, length_repositioned).
  assert (valid_mesh (length (repositioned ov om ++ ps)) D) as Hv'.
  { rewrite Hlen. split; [split|].
    - pose proof (childFaces_in_range (length ov) om ps Hr Hlps) as H1.
      pose proof (childFaces_distinct ov om Hr Hd) as H2.
      rewrite Forall_forall in H1. rewrite Forall_forall in H2.
      rewrite Forall_forall. intros g Hg. split; [by apply H1|by apply H2].
    - by apply children_manifold.
    - rewrite Forall_forall. intros i Hi%elem_of_seq.
      apply children_cover; [|lia].
      intros k Hk. rewrite Forall_forall in Href. apply Href.
      apply elem_of_seq. lia. }
  assert (simple D) as Hs' by (by apply children_simple).
  eexists. split; [exact Hrun|]. cbn [destVert destMesh].
  split; [exact Hv'|]. split; [exact Hs'|].
  destruct (loopSubdivision_valid (repositioned ov om ++ ps) D
              (Outputs (repositioned ov om ++ ps) D dn) Hv')
    as (ps2 & dn2 & _ & _ & Hrun2).
  eexists. split; [exact Hrun2|]. cbn [destMesh].
  rewrite (length_bind_chunk _ 4) by done. unfold D.
  rewrite (length_bind_chunk _ 4) by done. lia.
Qed.

End Further.

(** ** The pass on concrete meshes *)

Import Examples.

Ltac by_computation := apply (bool_decide_unpack _); vm_compute; exact I.

(** The scenario of the spec: one triangle gives 6 vertices, 4 faces and
    6 normals, the three new vertices being averages of the endpoints. *)
Example single_triangle :
  ∃ out, @loopSubdivision symbolic triangleVert triangleMesh none = Ok out ∧
         length (destVert out) = 6 ∧
         destMesh out = [Face 0 3 5; Face 3 4 5; Face 5 4 2; Face 3 1 4] ∧
         length (destNorm out) = 6 ∧
         drop 3 (destVert out)
         = [T_scale_r (T_add P0 P1) T_half;
            T_scale_r (T_add P1 P2) T_half;
            T_scale_r (T_add P2 P0) T_half].
Proof. eexists. split; [vm_compute; reflexivity|]. by vm_compute. Qed.

(** The tetrahedron: 4 + 6 vertices and 16 faces; every new vertex follows
    the interior rule. *)
Example tetrahedron_sizes :
  ∃ out, @loopSubdivision symbolic tetraVert tetraMesh none = Ok out ∧
         length (destVert out) = 10 ∧ length (destMesh out) = 16 ∧
         Forall (λ p, ∃ a b c d,
                   p = T_add (T_scale_l (T_div (T_lit 3) (T_lit 8)) (T_add a b))
                             (T_scale_l (T_div (T_lit 1) (T_lit 8)) (T_add c d)))
                (drop 4 (destVert out)).
Proof.
  eexists. split; [vm_compute; reflexivity|]. split; [by vm_compute|].
  split; [by vm_compute|]. vm_compute. repeat constructor; by eexists _, _, _, _.
Qed.

(** The strip: the edge {1,2} of both faces has the one midpoint 5, which
    the children of both faces name. *)
Example strip_shared_midpoint :
  destMesh stripOut
  = [Face 0 4 6; Face 4 5 6; Face 6 5 2; Face 4 1 5;
     Face 2 5 8; Face 5 7 8; Face 8 7 3; Face 5 1 7] ∧
  destVert stripOut !! 5
  = Some (T_add (T_scale_l (T_div (T_lit 3) (T_lit 8)) (T_add P1 P2))
                (T_scale_l (T_div (T_lit 1) (T_lit 8)) (T_add P0 P3))).
Proof. by vm_compute. Qed.

Lemma one_midpoint_per_edge_witness :
  valid_mesh (length stripVert) stripMesh ∧
  ∃ out, @loopSubdivision symbolic stripVert stripMesh none = Ok out ∧
         length (destVert out) = 9.
Proof.
  assert (valid_mesh (length stripVert) stripMesh) as Hv by by_computation.
  split; [exact Hv|].
  destruct (@one_midpoint_per_edge symbolic stripVert stripMesh none Hv)
    as [_ (out & Hrun & Hlen)].
  exists out. split; [exact Hrun|]. rewrite Hlen. vm_compute. reflexivity.
Defined.

Lemma four_children_in_order_witness :
  valid_mesh (length stripVert) stripMesh ∧
  ∃ out, @loopSubdivision symbolic stripVert stripMesh none = Ok out ∧
         length (destMesh out) = 8.
Proof.
  assert (valid_mesh (length stripVert) stripMesh) as Hv by by_computation.
  split; [exact Hv|].
  destruct (@four_children_in_order symbolic stripVert stripMesh none Hv)
    as (out & V & R & Hrun & _ & Hlen & _).
  exists out. split; [exact Hrun|]. exact Hlen.
Defined.

Lemma interior_edge_midpoint_witness :
  valid_mesh (length stripVert) stripMesh ∧
  (1, 2) ∈ meshEdges stripMesh ∧
  incidentFaces (1, 2) stripMesh = [Face 0 1 2; Face 2 1 3] ∧
  ∃ out idx p,
    @loopSubdivision symbolic stripVert stripMesh none = Ok out ∧
    destVert out !! idx = Some p ∧
    (p = T_add (T_scale_l (T_div (T_lit 3) (T_lit 8)) (T_add P1 P2))
               (T_scale_l (T_div (T_lit 1) (T_lit 8)) (T_add P0 P3)) ∨
     p = T_add (T_scale_l (T_div (T_lit 3) (T_lit 8)) (T_add P2 P1))
               (T_scale_l (T_div (T_lit 1) (T_lit 8)) (T_add P0 P3))).
Proof.
  assert (valid_mesh (length stripVert) stripMesh) as Hv by by_computation.
  assert ((1, 2) ∈ meshEdges stripMesh) as He by by_computation.
  assert (incidentFaces (1, 2) stripMesh = [Face 0 1 2; Face 2 1 3]) as Hinc
    by (vm_compute; reflexivity).
  split_and!; [exact Hv|exact He|exact Hinc|].
  destruct (@interior_edge_midpoint symbolic stripVert stripMesh none
              (1, 2) (Face 0 1 2) (Face 2 1 3) Hv He Hinc)
    as (out & V & M & R & idx & oA & oB & a & b
        & Hrun & _ & _ & _ & HA & HB & Hor & Hp).
  vm_compute in HA. vm_compute in HB.
  injection HA as <-. injection HB as <-.
  exists out, idx. eexists. split; [exact Hrun|]. split; [exact Hp|].
  destruct Hor as [[= -> ->]|[= -> ->]]; [left|right]; reflexivity.
Defined.

Lemma boundary_edge_midpoint_witness :
  valid_mesh (length stripVert) stripMesh ∧
  (0, 1) ∈ meshEdges stripMesh ∧
  incidentFaces (0, 1) stripMesh = [Face 0 1 2] ∧
  ∃ out idx p,
    @loopSubdivision symbolic stripVert stripMesh none = Ok out ∧
    destVert out !! idx = Some p ∧
    (p = T_scale_r (T_add P0 P1) T_half ∨ p = T_scale_r (T_add P1 P0) T_half).
Proof.
  assert (valid_mesh (length stripVert) stripMesh) as Hv by by_computation.
  assert ((0, 1) ∈ meshEdges stripMesh) as He by by_computation.
  assert (incidentFaces (0, 1) stripMesh = [Face 0 1 2]) as Hinc
    by (vm_compute; reflexivity).
  split_and!; [exact Hv|exact He|exact Hinc|].
  destruct (@boundary_edge_midpoint symbolic stripVert stripMesh none
              (0, 1) (Face 0 1 2) Hv He Hinc)
    as (out & V & M & R & idx & a & b & Hrun & _ & _ & _ & Hor & Hp).
  exists out, idx. eexists. split; [exact Hrun|]. split; [exact Hp|].
  destruct Hor as [[= -> ->]|[= -> ->]]; [left|right]; reflexivity.
Defined.

Lemma original_vertex_update_witness :
  valid_mesh (length stripVert) stripMesh ∧
  ∃ out,
    @loopSubdivision symbolic stripVert stripMesh none = Ok out ∧
    destVert out !! 1 =
      Some (T_add (T_scale_l (T_div (T_lit 5) (T_lit 8)) P1)
                  (T_scale_r
                     (T_add (T_add T_zero (T_add P0 P2)) (T_add P2 P3))
                     (T_div (T_lit 3) (T_mul (T_lit 16) (T_size 2))))).
Proof.
  assert (valid_mesh (length stripVert) stripMesh) as Hv by by_computation.
  split; [exact Hv|].
  destruct (@original_vertex_update symbolic stripVert stripMesh none Hv)
    as (out & Hrun & Hpos).
  exists out. split; [exact Hrun|].
  etrans; [apply (Hpos 1); vm_compute; lia|reflexivity].
Defined.

(** C7, as stated, fails on the code.  The third face of the chain names
    the index 4 in a list of four vertices, and nothing stops the first
    loop: by the time it reads [vertList[4]] the list holds the midpoints
    of the earlier edges, so every access is in bounds, and the loop ends
    with eleven vertices in [destVert] and twelve faces in [destMesh], the
    last four being the children of the invalid face; the new vertex 9, on
    the edge {1,4}, is the average of the vertex 1 and of the new vertex 4,
    the midpoint of the edge {0,1}.  Output is produced and no assertion or
    error has been raised.  The next loop indexes [occurrences[4]], again
    unchecked. *)
Lemma invalid_index_unchecked :
  ¬ Forall (face_in_range (length chainVert)) chainMesh ∧
  ∃ V R,
    @subdivideFaces symbolic chainVert chainMesh [] []
    = Ok (V,
          [Face 0 4 6; Face 4 5 6; Face 6 5 2; Face 4 1 5;
           Face 2 5 8; Face 5 7 8; Face 8 7 3; Face 5 1 7;
           Face 3 7 10; Face 7 9 10; Face 10 9 4; Face 7 1 9], R) ∧
    length V = 11 ∧
    V !! 9 = Some (T_scale_r (T_add P1 (T_scale_r (T_add P0 P1) T_half))
                             T_half).
Proof.
  split; [by_computation|].
  eexists _, _. split; [vm_compute; reflexivity|].
  split; vm_compute; reflexivity.
Qed.

Lemma failure_modes_witness :
  (valid_mesh (length stripVert) stripMesh ∧
   ∃ out, @loopSubdivision symbolic stripVert stripMesh none = Ok out) ∧
  (well_formed (length looseVert) looseMesh ∧
   (∃ i, i < length looseVert ∧ ¬ referenced looseMesh i) ∧
   @loopSubdivision symbolic looseVert looseMesh none = Err AssertionFailed) ∧
  (¬ Forall (face_in_range (length chainVert)) chainMesh ∧
   ∃ V M R,
     @subdivideFaces symbolic chainVert chainMesh [] [] = Ok (V, M, R) ∧
     length M = 12).
Proof.
  assert (valid_mesh (length stripVert) stripMesh) as Hv by by_computation.
  assert (well_formed (length looseVert) looseMesh) as Hw by by_computation.
  assert (∃ i, i < length looseVert ∧ ¬ referenced looseMesh i) as Hz.
  { exists 3. split; [vm_compute; lia|by_computation]. }
  assert (¬ Forall (face_in_range (length chainVert)) chainMesh) as Hb
    by by_computation.
  assert (∃ V M R,
            @subdivideFaces symbolic chainVert chainMesh [] [] = Ok (V, M, R))
    as (V & M & R & Hsub) by (eexists _, _, _; vm_compute; reflexivity).
  split; [split; [exact Hv|]|split; [split; [exact Hw|split; [exact Hz|]]|
                                       split; [exact Hb|]]].
  - exact (proj1 (@failure_modes symbolic stripVert stripMesh none) Hv).
  - exact (proj2 (proj1 (proj2 (@failure_modes symbolic looseVert looseMesh none))
                    Hw Hz)).
  - exists V, M, R. split; [exact Hsub|].
    exact (proj2 (proj2 (proj2 (proj2 (@failure_modes symbolic chainVert
                                         chainMesh none))
                                V M R Hsub))).
Defined.

(** C8, as stated, fails on the code: the outputs are references, and
    nothing keeps them apart from the inputs.  On the triangle, a valid
    input, the call with outputs of its own returns the four children; the
    call that is given the input mesh as [destMesh] empties it at
    loop.cpp:31, runs no face loop and stops at the assertion for the vertex
    0; the call that is given the input vertices as [destVert] appends the
    midpoints to its own input and stops at the assertion for the vertex 3,
    the first midpoint. *)
Lemma aliased_outputs_fail :
  valid_mesh (length (points triangleMemory !!! 0))
             (meshes triangleMemory !!! 0) ∧
  (∃ m', loopSubdivision_at 0 0 1 1 0 triangleMemory = Ok m' ∧
         meshes m' !!! 1
         = [Face 0 3 5; Face 3 4 5; Face 5 4 2; Face 3 1 4]) ∧
  loopSubdivision_at 0 0 1 0 0 triangleMemory = Err AssertionFailed ∧
  loopSubdivision_at 0 0 0 1 0 triangleMemory = Err AssertionFailed ∧
  loopSubdivision_at 0 0 0 0 0 triangleMemory = Err AssertionFailed.
Proof.
  split; [by_computation|]. split.
  { eexists. split; [vm_compute; reflexivity|]. vm_compute. reflexivity. }
  split_and!; vm_compute; reflexivity.
Qed.

Lemma separate_outputs_function_witness :
  valid_mesh (length (points stripMemory !!! 0)) (meshes stripMemory !!! 0) ∧
  ∃ m', loopSubdivision_at 0 0 1 1 0 stripMemory = Ok m' ∧
        points m' !!! 1 = destVert stripOut ∧
        meshes m' !!! 1 = destMesh stripOut ∧
        normals m' !!! 0 = destNorm stripOut ∧
        points m' !! 0 = Some stripVert ∧
        meshes m' !! 0 = Some stripMesh.
Proof.
  assert (valid_mesh (length (points stripMemory !!! 0))
                     (meshes stripMemory !!! 0)) as Hv by by_computation.
  split; [exact Hv|].
  destruct (separate_outputs_function 0 0 1 1 0 stripMemory Hv
              ltac:(lia) ltac:(lia))
    as (out & m' & Hout & Hrun & Hp & Hf & Hn & Fp & Ff & _ & _).
  assert (out = stripOut) as ->.
  { vm_compute in Hout. injection Hout as <-. vm_compute. reflexivity. }
  exists m'. split; [exact Hrun|]. split; [exact Hp|]. split; [exact Hf|].
  split; [exact Hn|]. split.
  - etrans; [apply (Fp 0); lia|reflexivity].
  - etrans; [apply (Ff 0); lia|reflexivity].
Defined.

Lemma midpoints_kept_witness :
  @loopSubdivision symbolic stripVert stripMesh none = Ok stripOut ∧
  ∃ V1 M1 R1,
    @subdivideFaces symbolic stripVert stripMesh [] [] = Ok (V1, M1, R1) ∧
    length (destVert stripOut) = length V1 ∧
    ∀ k, length stripVert ≤ k → destVert stripOut !! k = V1 !! k.
Proof.
  assert (@loopSubdivision symbolic stripVert stripMesh none = Ok stripOut)
    as Hrun by (vm_compute; reflexivity).
  split; [exact Hrun|].
  exact (proj1 (@midpoints_kept symbolic stripVert stripMesh none stripOut Hrun)).
Defined.

Lemma midpoints_from_input_witness :
  @loopSubdivision symbolic stripVert stripMesh none = Ok stripOut ∧
  ∀ k, length stripVert ≤ k → k < length (destVert stripOut) →
       ∃ e p, e ∈ meshEdges stripMesh ∧
              @midpoint symbolic stripVert stripMesh e = Ok p ∧
              destVert stripOut !! k = Some p.
Proof.
  assert (@loopSubdivision symbolic stripVert stripMesh none = Ok stripOut)
    as Hrun by (vm_compute; reflexivity).
  split; [exact Hrun|].
  exact (proj2 (@midpoints_from_input symbolic stripVert stripMesh none
                  stripOut Hrun)).
Defined.

(** ** The further properties on concrete meshes *)

Import MoreExamples.

Lemma output_faces_in_range_witness :
  @loopSubdivision symbolic stripVert stripMesh none = Ok stripOut ∧
  Forall (face_in_range (length (destVert stripOut))) (destMesh stripOut).
Proof.
  assert (@loopSubdivision symbolic stripVert stripMesh none = Ok stripOut)
    as Hrun by (vm_compute; reflexivity).
  split; [exact Hrun|].
  exact (@output_faces_in_range symbolic stripVert stripMesh none stripOut Hrun).
Defined.

Lemma connectivity_ignores_positions_witness :
  length stripVert = length movedVert ∧
  @loopSubdivision symbolic stripVert stripMesh none = Ok stripOut ∧
  @loopSubdivision symbolic movedVert stripMesh none = Ok movedOut ∧
  destMesh stripOut = destMesh movedOut ∧
  length (destVert stripOut) = length (destVert movedOut).
Proof.
  assert (length stripVert = length movedVert) as Hlen by reflexivity.
  assert (@loopSubdivision symbolic stripVert stripMesh none = Ok stripOut)
    as Hrun by (vm_compute; reflexivity).
  assert (@loopSubdivision symbolic movedVert stripMesh none = Ok movedOut)
    as Hrun' by (vm_compute; reflexivity).
  split; [exact Hlen|]. split; [exact Hrun|]. split; [exact Hrun'|].
  exact (@connectivity_ignores_positions symbolic stripVert movedVert stripMesh
           none none stripOut movedOut Hlen Hrun Hrun').
Defined.

Lemma midpoint_index_bijection_witness :
  @loopSubdivision symbolic stripVert stripMesh none = Ok stripOut ∧
  ∃ V M R,
    @subdivideFaces symbolic stripVert stripMesh [] [] = Ok (V, M, R) ∧
    ∀ i, length stripVert ≤ i < length (destVert stripOut) →
         ∃ e, e ∈ meshEdges stripMesh ∧ getIndex R e = Ok i.
Proof.
  assert (@loopSubdivision symbolic stripVert stripMesh none = Ok stripOut)
    as Hrun by (vm_compute; reflexivity).
  split; [exact Hrun|].
  destruct (@midpoint_index_bijection symbolic stripVert stripMesh none
              stripOut Hrun) as (V & M & R & Hsub & _ & _ & Hsurj).
  exists V, M, R. split; [exact Hsub|exact Hsurj].
Defined.

Lemma children_distinct_witness :
  @loopSubdivision symbolic stripVert stripMesh none = Ok stripOut ∧
  Forall face_distinct stripMesh ∧
  Forall face_distinct (destMesh stripOut).
Proof.
  assert (@loopSubdivision symbolic stripVert stripMesh none = Ok stripOut)
    as Hrun by (vm_compute; reflexivity).
  assert (Forall face_distinct stripMesh) as Hd by by_computation.
  split; [exact Hrun|]. split; [exact Hd|].
  exact (@children_distinct symbolic stripVert stripMesh none stripOut Hrun Hd).
Defined.

Lemma getNewVertex_contract_witness :
  registry_in_range stripVert (∅ : EdgeList) ∧
  @getNewVertex symbolic (0, 1) stripVert stripMesh ∅
  = Ok (4, stripVert ++ [firstMidpoint], <[canon (0, 1) := 4]> ∅) ∧
  getIndex (<[canon (0, 1) := 4]> (∅ : EdgeList)) (0, 1) = Ok 4 ∧
  4 < length (stripVert ++ [firstMidpoint]) ∧
  registry_in_range (stripVert ++ [firstMidpoint])
                    (<[canon (0, 1) := 4]> (∅ : EdgeList)).
Proof.
  assert (registry_in_range stripVert (∅ : EdgeList)) as Hinv
    by apply map_Forall_empty.
  assert (@getNewVertex symbolic (0, 1) stripVert stripMesh ∅
          = Ok (4, stripVert ++ [firstMidpoint], <[canon (0, 1) := 4]> ∅))
    as Hget by (vm_compute; reflexivity).
  split; [exact Hinv|]. split; [exact Hget|].
  exact (proj2 (proj2 (proj2
           (@getNewVertex_contract symbolic (0, 1) stripVert stripMesh ∅ 4
              (stripVert ++ [firstMidpoint]) (<[canon (0, 1) := 4]> ∅)
              Hinv Hget)))).
Defined.

Lemma well_formed_run_in_bounds_witness :
  well_formed (length looseVert) looseMesh ∧
  @loopSubdivision symbolic looseVert looseMesh none = Err AssertionFailed.
Proof.
  assert (well_formed (length looseVert) looseMesh) as Hw by by_computation.
  split; [exact Hw|].
  destruct (@well_formed_run_in_bounds symbolic looseVert looseMesh none Hw)
    as [[_ [out Hrun]]|[_ Hrun]]; [|exact Hrun].
  vm_compute in Hrun. discriminate Hrun.
Defined.

Lemma assertion_means_unused_vertex_witness :
  Forall (face_in_range (length spareVert)) foldedMesh ∧
  ¬ well_formed (length spareVert) foldedMesh ∧
  @loopSubdivision symbolic spareVert foldedMesh none = Err AssertionFailed ∧
  ∃ i, i < length spareVert ∧ ¬ referenced foldedMesh i.
Proof.
  assert (Forall (face_in_range (length spareVert)) foldedMesh) as Hr
    by by_computation.
  assert (@loopSubdivision symbolic spareVert foldedMesh none
          = Err AssertionFailed) as Hrun by (vm_compute; reflexivity).
  split; [exact Hr|]. split; [by_computation|]. split; [exact Hrun|].
  exact (@assertion_means_unused_vertex symbolic spareVert foldedMesh none
           Hr Hrun).
Defined.

Lemma returning_run_input_witness :
  Forall (face_in_range (length foldedVert)) foldedMesh ∧
  ¬ well_formed (length foldedVert) foldedMesh ∧
  @loopSubdivision symbolic foldedVert foldedMesh none = Ok foldedOut ∧
  ∀ i, i < length foldedVert → referenced foldedMesh i.
Proof.
  assert (Forall (face_in_range (length foldedVert)) foldedMesh) as Hr
    by by_computation.
  assert (@loopSubdivision symbolic foldedVert foldedMesh none = Ok foldedOut)
    as Hrun by (vm_compute; reflexivity).
  split; [exact Hr|]. split; [by_computation|]. split; [exact Hrun|].
  exact (@returning_run_input symbolic foldedVert foldedMesh none foldedOut
           Hr Hrun).
Defined.

Lemma original_vertex_update_any_witness :
  ¬ Forall face_distinct foldedMesh ∧
  @loopSubdivision symbolic foldedVert foldedMesh none = Ok foldedOut ∧
  destVert foldedOut !! 0 =
    Some (T_add (T_scale_l (T_div (T_lit 5) (T_lit 8)) P0)
                (T_scale_r
                   (T_add (T_add T_zero (T_add P0 P1)) (T_add P0 P1))
                   (T_div (T_lit 3) (T_mul (T_lit 16) (T_size 2))))).
Proof.
  assert (@loopSubdivision symbolic foldedVert foldedMesh none = Ok foldedOut)
    as Hrun by (vm_compute; reflexivity).
  split; [by_computation|]. split; [exact Hrun|].
  etrans; [apply (@original_vertex_update_any symbolic foldedVert foldedMesh
                    none foldedOut Hrun 0); vm_compute; lia|reflexivity].
Defined.

Lemma normals_closed_form_witness :
  @loopSubdivision symbolic stripVert stripMesh none = Ok stripOut ∧
  length (destNorm stripOut) = length (destVert stripOut) ∧
  ∀ i, i < length (destVert stripOut) →
    destNorm stripOut !! i =
      Some (T_normalize
              (@accumulatedNormal symbolic (destVert stripOut)
                 (destMesh stripOut) i)).
Proof.
  assert (@loopSubdivision symbolic stripVert stripMesh none = Ok stripOut)
    as Hrun by (vm_compute; reflexivity).
  split; [exact Hrun|].
  exact (@normals_closed_form symbolic stripVert stripMesh none stripOut Hrun).
Defined.

Lemma output_vertices_used_witness :
  @loopSubdivision symbolic stripVert stripMesh none = Ok stripOut ∧
  ∀ i, i < length (destVert stripOut) → referenced (destMesh stripOut) i.
Proof.
  assert (@loopSubdivision symbolic stripVert stripMesh none = Ok stripOut)
    as Hrun by (vm_compute; reflexivity).
  split; [exact Hrun|].
  exact (@output_vertices_used symbolic stripVert stripMesh none stripOut Hrun).
Defined.

Lemma pass_keeps_validity_witness :
  valid_mesh (length stripVert) stripMesh ∧ simple stripMesh ∧
  ∃ out,
    @loopSubdivision symbolic stripVert stripMesh none = Ok out ∧
    valid_mesh (length (destVert out)) (destMesh out) ∧
    simple (destMesh out) ∧
    ∃ out2,
      @loopSubdivision symbolic (destVert out) (destMesh out) out = Ok out2 ∧
      length (destMesh out2) = 32.
Proof.
  assert (valid_mesh (length stripVert) stripMesh) as Hv by by_computation.
  assert (simple stripMesh) as Hs by by_computation.
  split; [exact Hv|]. split; [exact Hs|].
  exact (@pass_keeps_validity symbolic stripVert stripMesh none Hv Hs).
Defined.
